(** * Stock ledger and balance reconciliation

    A shallow embedding of the inventory core of the finance server:
    [server/services/movementService.js], [server/services/inventoryService.js],
    the CSV import of [server/routes/stock.js] and the tables of
    [server/mysql/2025_08_inventory.sql].

    The relational store is a record of tables.  Rows are kept in insertion
    order, [stock_balances] is a finite map on its unique key
    (variant_id, location_id).  A service call is a function from the store to
    a [result]: [Err] means that the call threw and that the store is the one
    before the call (every throw of the modelled services happens before their
    first write, or inside a transaction that is rolled back).

    Modelling decisions:
    - the database wrapper [server/db.js] is not among the sources; its
      [execute] and [query] are taken to run one statement and to resolve
      to the rows (or to the insert id), as the services use them;
    - identifiers and quantities are integers ([Z]), as the routes produce
      them with [parseInt]; [0] is the falsy integer of the [!x] tests;
    - costs are JavaScript numbers; their arithmetic is kept abstract in the
      class [CostArith], so that every statement holds for any arithmetic
      (exact or rounding), and is instantiated with [Q] for the examples;
      the scale of the DECIMAL(15,2) column is not modelled: a balance row
      holds the number the service wrote;
    - keys are modelled where a statement of the services can fail on them:
      the unique keys of [product_color_sizes], [stock_balances],
      [stock_opname] and [stock_opname_items], and the foreign keys of
      [stock_movements];
    - CURRENT_TIMESTAMP is the field [current_timestamp] of the store;
    - [String.prototype.localeCompare], whose order depends on the locale of
      the server, is a parameter of the inventory tree;
    - calls run one after the other: interleavings of concurrent requests
      are not modelled. *)

From Stdlib Require Import ZArith QArith List Ascii String Lia Permutation.
From Stdlib Require OrderedTypeEx.
From stdpp Require Import base decidable option list sorting gmap strings pretty.

Local Open Scope string_scope.
Local Open Scope list_scope.
Local Open Scope Z_scope.

(** ** JavaScript numbers used as costs *)

Class CostArith (num : Type) := {
  num_zero : num;
  num_of_Z : Z → num;
  num_add : num → num → num;
  num_mul : num → num → num;
  num_div : num → num → num;
  (** [x > 0] *)
  num_gt0 : num → bool
}.

(** ** Property lookup in an object literal

    [o[k]] on an object literal finds own properties first and then the
    properties inherited from [Object.prototype], whose values are functions
    (or the prototype object itself): truthy, and without an [includes]
    method. *)

Inductive js_prop (A : Type) :=
| OwnProp (a : A)
| InheritedProp
| NoProp.
Arguments OwnProp {A} a.
Arguments InheritedProp {A}.
Arguments NoProp {A}.

Definition object_prototype_keys : list string :=
  ["constructor"; "__proto__"; "hasOwnProperty"; "isPrototypeOf";
   "propertyIsEnumerable"; "toLocaleString"; "toString"; "valueOf";
   "__defineGetter__"; "__defineSetter__"; "__lookupGetter__";
   "__lookupSetter__"].

Fixpoint own_property {A} (o : list (string * A)) (k : string) : option A :=
  match o with
  | [] => None
  | (k', a) :: o' => if decide (k = k') then Some a else own_property o' k
  end.

Definition js_get {A} (o : list (string * A)) (k : string) : js_prop A :=
  match own_property o k with
  | Some a => OwnProp a
  | None => if decide (k ∈ object_prototype_keys) then InheritedProp else NoProp
  end.

(** ** Errors

    The services throw [Error] objects that differ only by their message;
    one constructor per message.  The last three are raised below the
    services: by the language ([NotAFunction]) and by the database driver. *)

Inductive error :=
| MissingRequiredFields      (* 'Missing required fields for stock movement' *)
| QuantityMustBePositive     (* 'Quantity must be positive' *)
| InvalidReasonCode (reasonCode movementType : string)
                             (* 'Invalid reason code .. for movement type ..' *)
| InsufficientStock (available required : Z)
                             (* 'Insufficient stock. Available: .., Required: ..' *)
| SameLocations              (* 'Source and destination locations cannot be the same' *)
| VariantNotFound            (* 'Variant not found' *)
| OpnameItemNotFound         (* 'Opname item not found' *)
| OpnameNotFoundOrNotActive  (* 'Opname not found or not active' *)
| NotAFunction               (* TypeError: .. is not a function *)
| BadBindParameter           (* a function given as a bind parameter *)
| DuplicateEntry (key : string)    (* ER_DUP_ENTRY *)
| NoReferencedRow (key : string).  (* ER_NO_REFERENCED_ROW *)

(** The error taxonomy of the specification (section 7), as a reading of the
    messages above. *)
Inductive error_class :=
| InvalidArgument
| InvalidReasonCodeClass
| InsufficientStockClass
| NotFound
| InvalidState
| IntegrityFault.

Definition classify (e : error) : option error_class :=
  match e with
  | MissingRequiredFields | QuantityMustBePositive | SameLocations =>
      Some InvalidArgument
  | InvalidReasonCode _ _ => Some InvalidReasonCodeClass
  | InsufficientStock _ _ => Some InsufficientStockClass
  | VariantNotFound | OpnameItemNotFound => Some NotFound
  | OpnameNotFoundOrNotActive => Some InvalidState
  | NotAFunction | BadBindParameter | DuplicateEntry _ | NoReferencedRow _ => None
  end.

Inductive result (A : Type) :=
| Ok (a : A)
| Err (e : error).
Arguments Ok {A} a.
Arguments Err {A} e.

Definition result_bind {A B} (f : A → result B) (r : result A) : result B :=
  match r with
  | Ok a => f a
  | Err e => Err e
  end.

#[global] Instance result_mbind : MBind result := @result_bind.
#[global] Instance result_mret : MRet result := @Ok.

Definition is_ok {A} (r : result A) : bool :=
  match r with Ok _ => true | Err _ => false end.

(** ** Catalog tables *)

Record Location := {
  loc_id : Z;
  loc_code : string;
  loc_name : string;
  loc_is_default : bool
}.

Record Product := {
  prod_id : Z;
  prod_name : string;
  prod_price : Z
}.

Record Color := {
  col_id : Z;
  col_name : string;
  col_hex_code : string
}.

Record Size := {
  size_id : Z;
  size_name : string;
  size_sort : Z
}.

Record ProductColor := {
  pc_id : Z;
  pc_product_id : Z;
  pc_color_id : Z
}.

(** A row of [product_color_sizes] is a variant (SKU). *)
Record ProductColorSize := {
  pcs_id : Z;
  pcs_product_color_id : Z;
  pcs_size_id : Z
}.

Record Catalog := {
  locations : list Location;
  products : list Product;
  colors : list Color;
  sizes : list Size;
  product_colors : list ProductColor;
  product_color_sizes : list ProductColorSize;
  next_product_id : Z;
  next_color_id : Z;
  next_size_id : Z;
  next_product_color_id : Z;
  next_product_color_size_id : Z
}.

(** ** Opname tables *)

Inductive OpnameStatus := DRAFT | ACTIVE | COMPLETED | CANCELLED.

#[global] Instance OpnameStatus_eq_dec : EqDecision OpnameStatus.
Proof. solve_decision. Defined.

Record Opname := {
  op_id : Z;
  opname_code : string;
  op_location_id : option Z;
  op_status : OpnameStatus;
  op_snapshot_at : option Z;
  op_completed_at : option Z;
  op_created_by : string
}.

Record OpnameItem := {
  oi_id : Z;
  oi_opname_id : Z;
  oi_variant_id : Z;
  oi_location_id : Z;
  system_qty : Z;
  counted_qty : option Z;
  oi_note : option string;
  counted_by : option string;
  counted_at : option Z
}.

(** [variance_qty INT GENERATED ALWAYS AS (counted_qty - system_qty) STORED]:
    NULL while the item is not counted. *)
Definition variance_qty (i : OpnameItem) : option Z :=
  (λ c, c - system_qty i) <$> counted_qty i.

Definition set_op_completed (now : Z) (o : Opname) : Opname :=
  {| op_id := op_id o; opname_code := opname_code o;
     op_location_id := op_location_id o; op_status := COMPLETED;
     op_snapshot_at := op_snapshot_at o; op_completed_at := Some now;
     op_created_by := op_created_by o |}.

Definition set_counted (c : Z) (by_ : string) (now : Z) (n : option string)
    (i : OpnameItem) : OpnameItem :=
  {| oi_id := oi_id i; oi_opname_id := oi_opname_id i;
     oi_variant_id := oi_variant_id i; oi_location_id := oi_location_id i;
     system_qty := system_qty i; counted_qty := Some c; oi_note := n;
     counted_by := Some by_; counted_at := Some now |}.

Section Ledger.
Context {num : Type} `{!CostArith num}.

(** ** Ledger and balance tables *)

(** A row of [stock_movements]. [m_qty] is a magnitude, the direction is
    [m_movement_type]. *)
Record Movement := {
  m_id : Z;
  m_variant_id : Z;
  m_location_id : Z;
  m_movement_type : string;
  m_reason_code : string;
  m_qty : Z;
  m_unit : string;
  m_unit_cost : option num;
  m_currency : string;
  m_ref_table : option string;
  m_ref_id : option Z;
  m_ref_code : option string;
  m_note : option string;
  m_pic : option string;
  m_created_by : option string;
  m_created_at : Z
}.

(** A row of [stock_balances]; [avg_cost] is NULL until a movement writes
    it. *)
Record Balance := {
  qty_on_hand : Z;
  avg_cost : option num
}.

Record state := {
  catalog : Catalog;
  stock_movements : list Movement;
  next_movement_id : Z;
  stock_balances : gmap (Z * Z) Balance;
  stock_opname : list Opname;
  next_opname_id : Z;
  stock_opname_items : list OpnameItem;
  next_opname_item_id : Z;
  current_timestamp : Z;
  (** [process.env.ALLOW_NEGATIVE] *)
  ALLOW_NEGATIVE : option string
}.

Definition set_catalog (c : Catalog) (s : state) : state :=
  {| catalog := c; stock_movements := stock_movements s;
     next_movement_id := next_movement_id s;
     stock_balances := stock_balances s; stock_opname := stock_opname s;
     next_opname_id := next_opname_id s;
     stock_opname_items := stock_opname_items s;
     next_opname_item_id := next_opname_item_id s;
     current_timestamp := current_timestamp s;
     ALLOW_NEGATIVE := ALLOW_NEGATIVE s |}.

Definition set_balances (b : gmap (Z * Z) Balance) (s : state) : state :=
  {| catalog := catalog s; stock_movements := stock_movements s;
     next_movement_id := next_movement_id s;
     stock_balances := b; stock_opname := stock_opname s;
     next_opname_id := next_opname_id s;
     stock_opname_items := stock_opname_items s;
     next_opname_item_id := next_opname_item_id s;
     current_timestamp := current_timestamp s;
     ALLOW_NEGATIVE := ALLOW_NEGATIVE s |}.

(** [INSERT INTO stock_movements]: the row is appended and the counter of
    the AUTO_INCREMENT column advances. *)
Definition append_movement (m : Movement) (s : state) : state :=
  {| catalog := catalog s; stock_movements := stock_movements s ++ [m];
     next_movement_id := next_movement_id s + 1;
     stock_balances := stock_balances s; stock_opname := stock_opname s;
     next_opname_id := next_opname_id s;
     stock_opname_items := stock_opname_items s;
     next_opname_item_id := next_opname_item_id s;
     current_timestamp := current_timestamp s;
     ALLOW_NEGATIVE := ALLOW_NEGATIVE s |}.

Definition set_opname (o : list Opname) (s : state) : state :=
  {| catalog := catalog s; stock_movements := stock_movements s;
     next_movement_id := next_movement_id s;
     stock_balances := stock_balances s; stock_opname := o;
     next_opname_id := next_opname_id s;
     stock_opname_items := stock_opname_items s;
     next_opname_item_id := next_opname_item_id s;
     current_timestamp := current_timestamp s;
     ALLOW_NEGATIVE := ALLOW_NEGATIVE s |}.

Definition append_opname (o : Opname) (s : state) : state :=
  {| catalog := catalog s; stock_movements := stock_movements s;
     next_movement_id := next_movement_id s;
     stock_balances := stock_balances s; stock_opname := stock_opname s ++ [o];
     next_opname_id := next_opname_id s + 1;
     stock_opname_items := stock_opname_items s;
     next_opname_item_id := next_opname_item_id s;
     current_timestamp := current_timestamp s;
     ALLOW_NEGATIVE := ALLOW_NEGATIVE s |}.

Definition set_opname_items (i : list OpnameItem) (s : state) : state :=
  {| catalog := catalog s; stock_movements := stock_movements s;
     next_movement_id := next_movement_id s;
     stock_balances := stock_balances s; stock_opname := stock_opname s;
     next_opname_id := next_opname_id s;
     stock_opname_items := i;
     next_opname_item_id := next_opname_item_id s;
     current_timestamp := current_timestamp s;
     ALLOW_NEGATIVE := ALLOW_NEGATIVE s |}.

Definition append_opname_item (i : OpnameItem) (s : state) : state :=
  {| catalog := catalog s; stock_movements := stock_movements s;
     next_movement_id := next_movement_id s;
     stock_balances := stock_balances s; stock_opname := stock_opname s;
     next_opname_id := next_opname_id s;
     stock_opname_items := stock_opname_items s ++ [i];
     next_opname_item_id := next_opname_item_id s + 1;
     current_timestamp := current_timestamp s;
     ALLOW_NEGATIVE := ALLOW_NEGATIVE s |}.

(** The environment: time passes and the operator may change the flag. *)
Definition set_environment (now : Z) (flag : option string) (s : state) : state :=
  {| catalog := catalog s; stock_movements := stock_movements s;
     next_movement_id := next_movement_id s;
     stock_balances := stock_balances s; stock_opname := stock_opname s;
     next_opname_id := next_opname_id s;
     stock_opname_items := stock_opname_items s;
     next_opname_item_id := next_opname_item_id s;
     current_timestamp := now;
     ALLOW_NEGATIVE := flag |}.

(** ** Reading the tables *)

(** [SELECT qty_on_hand FROM stock_balances WHERE ..], then
    [rows[0]?.qty_on_hand || 0]. *)
Definition balance_qty (s : state) (v l : Z) : Z :=
  match stock_balances s !! (v, l) with
  | Some b => qty_on_hand b
  | None => 0
  end.

(** [parseFloat(rows[0].avg_cost) || 0]; [0] too when there is no row. *)
Definition balance_avg_cost (s : state) (v l : Z) : num :=
  match stock_balances s !! (v, l) with
  | Some b => default num_zero (avg_cost b)
  | None => num_zero
  end.

(** [CASE WHEN movement_type = 'IN' THEN qty ELSE -qty END] *)
Definition signed_qty (m : Movement) : Z :=
  if decide (m_movement_type m = "IN") then m_qty m else - m_qty m.

Definition at_pair (v l : Z) (m : Movement) : bool :=
  bool_decide (m_variant_id m = v) && bool_decide (m_location_id m = l).

Definition sum_signed (ms : list Movement) : Z :=
  foldr (λ m acc, signed_qty m + acc) 0 ms.

(** Replaying the ledger of one (variant, location) pair from zero. *)
Definition ledger_qty (s : state) (v l : Z) : Z :=
  sum_signed (filter (λ m, at_pair v l m = true) (stock_movements s)).

Definition variant_exists (s : state) (v : Z) : bool :=
  bool_decide (v ∈ pcs_id <$> product_color_sizes (catalog s)).

Definition location_exists (s : state) (l : Z) : bool :=
  bool_decide (l ∈ loc_id <$> locations (catalog s)).

(** ** Movement ledger: [MovementService.createMovement] *)

Record MovementPayload := {
  variantId : Z;
  locationId : Z;
  movementType : string;
  reasonCode : string;
  qty : Z;
  unit_ : option string;
  unitCost : option num;
  currency : option string;
  refTable : option string;
  refId : option Z;
  refCode : option string;
  note : option string;
  pic : option string;
  createdBy : option string
}.

Definition validReasons : list (string * list string) :=
  [("IN", ["OVERPROD_IN"; "RETURN_IN"; "ADJUSTMENT_IN"; "TRANSFER_IN"]);
   ("OUT", ["SALES_OUT"; "GIFT_OUT"; "ADJUSTMENT_OUT"; "TRANSFER_OUT"])].

(** [process.env.ALLOW_NEGATIVE === 'true'] *)
Definition allowNegative (s : state) : bool :=
  bool_decide (ALLOW_NEGATIVE s = Some "true").

(** [unitCost && unitCost > 0] *)
Definition cost_supplied (c : option num) : bool :=
  match c with
  | Some x => num_gt0 x
  | None => false
  end.

(** The moving average written by an IN movement with a cost. *)
Definition moving_average (currentQty : Z) (currentAvgCost : num)
    (q : Z) (c : num) : num :=
  num_div (num_add (num_mul (num_of_Z currentQty) currentAvgCost)
                   (num_mul (num_of_Z q) c))
          (num_of_Z (currentQty + q)).

Definition updateStockBalance (v l : Z) (mtype : string) (q : Z)
    (cost : option num) (s : state) : state :=
  let currentQty := balance_qty s v l in
  let currentAvgCost := balance_avg_cost s v l in
  let newQty :=
    if decide (mtype = "IN") then currentQty + q
    else if decide (mtype = "OUT") then currentQty - q
    else currentQty in
  let newAvgCost :=
    if decide (mtype = "IN") then
      match cost with
      | Some c => if num_gt0 c then moving_average currentQty currentAvgCost q c
                  else currentAvgCost
      | None => currentAvgCost
      end
    else currentAvgCost in
  (* UPDATE when the row exists, INSERT otherwise: an upsert on the key *)
  set_balances
    (<[(v, l) := {| qty_on_hand := newQty; avg_cost := Some newAvgCost |}]>
       (stock_balances s)) s.

Definition movement_of_payload (p : MovementPayload) (s : state) : Movement :=
  {| m_id := next_movement_id s;
     m_variant_id := variantId p;
     m_location_id := locationId p;
     m_movement_type := movementType p;
     m_reason_code := reasonCode p;
     m_qty := qty p;
     m_unit := default "pcs" (unit_ p);
     m_unit_cost := unitCost p;
     m_currency := default "IDR" (currency p);
     m_ref_table := refTable p;
     m_ref_id := refId p;
     m_ref_code := refCode p;
     m_note := note p;
     m_pic := pic p;
     m_created_by := createdBy p;
     m_created_at := current_timestamp s |}.

(** Validation of the payload, in the order of the source. *)
Definition validate_payload (p : MovementPayload) : result unit :=
  if bool_decide (variantId p = 0) || bool_decide (locationId p = 0)
     || bool_decide (movementType p = "") || bool_decide (reasonCode p = "")
     || bool_decide (qty p = 0)
  then Err MissingRequiredFields
  else if bool_decide (qty p ≤ 0) then Err QuantityMustBePositive
  else match js_get validReasons (movementType p) with
       | OwnProp reasons =>
           if bool_decide (reasonCode p ∈ reasons) then Ok ()
           else Err (InvalidReasonCode (reasonCode p) (movementType p))
       | InheritedProp => Err NotAFunction
       | NoProp => Err (InvalidReasonCode (reasonCode p) (movementType p))
       end.

(** The balance check of OUT movements. *)
Definition check_stock (p : MovementPayload) (s : state) : result unit :=
  if bool_decide (movementType p = "OUT") && negb (allowNegative s) then
    let currentQty := balance_qty s (variantId p) (locationId p) in
    if bool_decide (currentQty < qty p)
    then Err (InsufficientStock currentQty (qty p))
    else Ok ()
  else Ok ().

(** The foreign keys of [stock_movements]. *)
Definition check_foreign_keys (p : MovementPayload) (s : state) : result unit :=
  if negb (variant_exists s (variantId p)) then Err (NoReferencedRow "variant_id")
  else if negb (location_exists s (locationId p))
  then Err (NoReferencedRow "location_id")
  else Ok ().

Definition createMovement (p : MovementPayload) (s : state)
    : result (Movement * state) :=
  _ ← validate_payload p;
  _ ← check_stock p s;
  _ ← check_foreign_keys p s;
  let m := movement_of_payload p s in
  let s1 := append_movement m s in
  let s2 := updateStockBalance (variantId p) (locationId p) (movementType p)
              (qty p) (unitCost p) s1 in
  Ok (m, s2).

(** ** Transfer: [MovementService.transfer] *)

Record TransferParams := {
  t_variantId : Z;
  fromLocationId : Z;
  toLocationId : Z;
  t_qty : Z;
  t_refCode : option string;
  t_pic : option string;
  t_createdBy : option string;
  t_note : option string
}.

(** [note || fallback]: the empty string is falsy as well. *)
Definition note_or (n : option string) (fallback : string) : string :=
  match n with
  | Some x => if decide (x = "") then fallback else x
  | None => fallback
  end.

Definition transfer_out_payload (t : TransferParams) : MovementPayload :=
  {| variantId := t_variantId t; locationId := fromLocationId t;
     movementType := "OUT"; reasonCode := "TRANSFER_OUT"; qty := t_qty t;
     unit_ := None; unitCost := None; currency := None;
     refTable := None; refId := None; refCode := t_refCode t;
     note := Some (note_or (t_note t)
                     ("Transfer to location " +:+ pretty (toLocationId t)));
     pic := t_pic t; createdBy := t_createdBy t |}.

Definition transfer_in_payload (t : TransferParams) : MovementPayload :=
  {| variantId := t_variantId t; locationId := toLocationId t;
     movementType := "IN"; reasonCode := "TRANSFER_IN"; qty := t_qty t;
     unit_ := None; unitCost := None; currency := None;
     refTable := None; refId := None; refCode := t_refCode t;
     note := Some (note_or (t_note t)
                     ("Transfer from location " +:+ pretty (fromLocationId t)));
     pic := t_pic t; createdBy := t_createdBy t |}.

(** Both movements run in one transaction: an error of either rolls both
    back, which is what [Err] stands for. *)
Definition transfer (t : TransferParams) (s : state)
    : result ((Movement * Movement) * state) :=
  if bool_decide (fromLocationId t = toLocationId t) then Err SameLocations
  else
    '(outMovement, s1) ← createMovement (transfer_out_payload t) s;
    '(inMovement, s2) ← createMovement (transfer_in_payload t) s1;
    Ok ((outMovement, inMovement), s2).

(** ** Variant resolver *)

Definition add_product (name : string) (c : Catalog) : Catalog :=
  {| locations := locations c;
     products := products c ++
       [{| prod_id := next_product_id c; prod_name := name; prod_price := 50000 |}];
     colors := colors c; sizes := sizes c;
     product_colors := product_colors c;
     product_color_sizes := product_color_sizes c;
     next_product_id := next_product_id c + 1;
     next_color_id := next_color_id c; next_size_id := next_size_id c;
     next_product_color_id := next_product_color_id c;
     next_product_color_size_id := next_product_color_size_id c |}.

Definition add_color (name : string) (c : Catalog) : Catalog :=
  {| locations := locations c; products := products c;
     colors := colors c ++
       [{| col_id := next_color_id c; col_name := name; col_hex_code := "#808080" |}];
     sizes := sizes c;
     product_colors := product_colors c;
     product_color_sizes := product_color_sizes c;
     next_product_id := next_product_id c;
     next_color_id := next_color_id c + 1; next_size_id := next_size_id c;
     next_product_color_id := next_product_color_id c;
     next_product_color_size_id := next_product_color_size_id c |}.

Definition add_size (name : string) (sort : Z) (c : Catalog) : Catalog :=
  {| locations := locations c; products := products c; colors := colors c;
     sizes := sizes c ++
       [{| size_id := next_size_id c; size_name := name; size_sort := sort |}];
     product_colors := product_colors c;
     product_color_sizes := product_color_sizes c;
     next_product_id := next_product_id c;
     next_color_id := next_color_id c; next_size_id := next_size_id c + 1;
     next_product_color_id := next_product_color_id c;
     next_product_color_size_id := next_product_color_size_id c |}.

Definition add_product_color (productId colorId : Z) (c : Catalog) : Catalog :=
  {| locations := locations c; products := products c; colors := colors c;
     sizes := sizes c;
     product_colors := product_colors c ++
       [{| pc_id := next_product_color_id c; pc_product_id := productId;
           pc_color_id := colorId |}];
     product_color_sizes := product_color_sizes c;
     next_product_id := next_product_id c;
     next_color_id := next_color_id c; next_size_id := next_size_id c;
     next_product_color_id := next_product_color_id c + 1;
     next_product_color_size_id := next_product_color_size_id c |}.

Definition add_product_color_size (productColorId sizeId : Z) (c : Catalog)
    : Catalog :=
  {| locations := locations c; products := products c; colors := colors c;
     sizes := sizes c;
     product_colors := product_colors c;
     product_color_sizes := product_color_sizes c ++
       [{| pcs_id := next_product_color_size_id c;
           pcs_product_color_id := productColorId; pcs_size_id := sizeId |}];
     next_product_id := next_product_id c;
     next_color_id := next_color_id c; next_size_id := next_size_id c;
     next_product_color_id := next_product_color_id c;
     next_product_color_size_id := next_product_color_size_id c + 1 |}.

(** The five-table join of [resolveVariantId], as a test on the rows of
    [product_color_sizes]. *)
Definition variant_has_names (c : Catalog) (productName colorName sizeName : string)
    (v : ProductColorSize) : bool :=
  existsb (λ pc,
      bool_decide (pc_id pc = pcs_product_color_id v)
      && existsb (λ p, bool_decide (prod_id p = pc_product_id pc)
                       && bool_decide (prod_name p = productName)) (products c)
      && existsb (λ co, bool_decide (col_id co = pc_color_id pc)
                        && bool_decide (col_name co = colorName)) (colors c))
    (product_colors c)
  && existsb (λ sz, bool_decide (size_id sz = pcs_size_id v)
                    && bool_decide (size_name sz = sizeName)) (sizes c).

(** The two-table join of [resolveVariantIdByIds] and [getStockCard]. *)
Definition variant_has_ids (c : Catalog) (productId colorId sizeId : Z)
    (v : ProductColorSize) : bool :=
  existsb (λ pc,
      bool_decide (pc_id pc = pcs_product_color_id v)
      && bool_decide (pc_product_id pc = productId)
      && bool_decide (pc_color_id pc = colorId))
    (product_colors c)
  && bool_decide (pcs_size_id v = sizeId).

(** [INSERT INTO stock_balances (variant_id, location_id, qty_on_hand)
    VALUES (?, ?, 0)] for every location. *)
Fixpoint init_balances (v : Z) (locs : list Location)
    (b : gmap (Z * Z) Balance) : result (gmap (Z * Z) Balance) :=
  match locs with
  | [] => Ok b
  | l :: locs' =>
      match b !! (v, loc_id l) with
      | Some _ => Err (DuplicateEntry "unique_variant_location")
      | None =>
          init_balances v locs'
            (<[(v, loc_id l) := {| qty_on_hand := 0; avg_cost := None |}]> b)
      end
  end.

(** The common tail of [createVariant] and [createVariantFromNames]: get or
    create the product-color link, insert the variant, initialise its
    balances. *)
Definition get_or_create_product_color (productId colorId : Z) (c : Catalog)
    : Z * Catalog :=
  match find (λ pc, bool_decide (pc_product_id pc = productId)
                    && bool_decide (pc_color_id pc = colorId))
             (product_colors c) with
  | Some pc => (pc_id pc, c)
  | None => (next_product_color_id c, add_product_color productId colorId c)
  end.

Definition insert_variant (productId colorId sizeId : Z) (s : state)
    : result (Z * state) :=
  let '(productColorId, c1) :=
    get_or_create_product_color productId colorId (catalog s) in
  if existsb (λ v, bool_decide (pcs_product_color_id v = productColorId)
                   && bool_decide (pcs_size_id v = sizeId))
             (product_color_sizes c1)
  then Err (DuplicateEntry "unique_product_color_size")
  else
    let variantId := next_product_color_size_id c1 in
    let c2 := add_product_color_size productColorId sizeId c1 in
    b ← init_balances variantId (locations c2) (stock_balances s);
    Ok (variantId, set_balances b (set_catalog c2 s)).

Definition createVariant (productId colorId sizeId : Z) (s : state)
    : result (Z * state) :=
  insert_variant productId colorId sizeId s.

Definition resolveVariantIdByIds (productId colorId sizeId : Z) (s : state)
    : result (Z * state) :=
  match find (variant_has_ids (catalog s) productId colorId sizeId)
             (product_color_sizes (catalog s)) with
  | None => createVariant productId colorId sizeId s
  | Some v => Ok (pcs_id v, s)
  end.

Definition productMapping : list (string * string) :=
  [("T-SHIRT KATUN 26 / JULI / 2025", "T-shirt Katun PDK");
   ("T-SHIRT KATUN", "T-shirt Katun PDK");
   ("LONG SLEEVE", "Long Sleeve");
   ("HENLEY", "Henley");
   ("POLOSHIRT", "Poloshirt");
   ("POLO LONG SLEEVE", "Poloshirt Long Sleeve");
   ("KEMEJA PIQUE PANJANG", "Kemeja Pique PJG");
   ("KEMEJA PIQUE PENDEK", "Kemeja Pique PDK");
   ("KIDS T-SHIRT", "Kids T-shirt");
   ("KIDS HENLEY", "Kids T-shirt");
   ("POLOSHIRT KRAH VARIASI", "Poloshirt Krah Variasi");
   ("JAKET VARSITY", "Jaket Varsity");
   ("SWEATER", "Sweater");
   ("KAOS RAGLAN + PRODUK GET 1", "Kaos Premium 24s");
   ("KAOS RINGER", "Kaos Ringer");
   ("KAOS KRAH", "Kaos Krah");
   ("KAOS PREMIUM", "Kaos Premium 24s");
   ("KEMEJA DRILL", "Kemeja Drill");
   ("KAOS CARDED", "T-shirt Katun PDK");
   ("KAOS BASEBALL", "Kaos Baseball")].

Definition sortOrder : list (string * Z) :=
  [("XS", 1); ("S", 2); ("M", 3); ("L", 4); ("XL", 5); ("XXL", 6);
   ("3XL", 7); ("4XL", 8); ("5XL", 9)].

(** [productMapping[productName] || productName]; an inherited property is a
    function, which the driver refuses as a bind parameter. *)
Definition mappedProductName (productName : string) : result string :=
  match js_get productMapping productName with
  | OwnProp a => Ok a
  | InheritedProp => Err BadBindParameter
  | NoProp => Ok productName
  end.

Definition get_or_create_product (name : string) (c : Catalog) : Z * Catalog :=
  match find (λ p, bool_decide (prod_name p = name)) (products c) with
  | Some p => (prod_id p, c)
  | None => (next_product_id c, add_product name c)
  end.

Definition get_or_create_color (name : string) (c : Catalog) : Z * Catalog :=
  match find (λ co, bool_decide (col_name co = name)) (colors c) with
  | Some co => (col_id co, c)
  | None => (next_color_id c, add_color name c)
  end.

(** [sortOrder[sizeName] || 10] is evaluated only when the size is created. *)
Definition get_or_create_size (name : string) (c : Catalog)
    : result (Z * Catalog) :=
  match find (λ sz, bool_decide (size_name sz = name)) (sizes c) with
  | Some sz => Ok (size_id sz, c)
  | None =>
      match js_get sortOrder name with
      | OwnProp n => Ok (next_size_id c, add_size name n c)
      | InheritedProp => Err BadBindParameter
      | NoProp => Ok (next_size_id c, add_size name 10 c)
      end
  end.

Record ResolveResult := {
  r_id : Z;
  r_created : bool
}.

Definition createVariantFromNames (productName colorName sizeName : string)
    (s : state) : result (ResolveResult * state) :=
  mapped ← mappedProductName productName;
  let '(productId, c1) := get_or_create_product mapped (catalog s) in
  let '(colorId, c2) := get_or_create_color colorName c1 in
  '(sizeId, c3) ← get_or_create_size sizeName c2;
  '(variantId, s1) ← insert_variant productId colorId sizeId (set_catalog c3 s);
  Ok ({| r_id := variantId; r_created := true |}, s1).

(** [MovementService.resolveVariantId]: the lookup is by the names as given;
    only the creation path goes through [productMapping]. *)
Definition resolveVariantId (productName colorName sizeName : string)
    (s : state) : result (ResolveResult * state) :=
  match find (variant_has_names (catalog s) productName colorName sizeName)
             (product_color_sizes (catalog s)) with
  | Some v => Ok ({| r_id := pcs_id v; r_created := false |}, s)
  | None => createVariantFromNames productName colorName sizeName s
  end.

(** ** ORDER BY

    A stable insertion sort: rows that compare equal keep their insertion
    order. *)

Fixpoint insert_by {A} (le : A → A → bool) (x : A) (l : list A) : list A :=
  match l with
  | [] => [x]
  | y :: l' => if le x y then x :: l else y :: insert_by le x l'
  end.

Definition sort_by {A} (le : A → A → bool) (l : list A) : list A :=
  foldr (insert_by le) [] l.

(** ** Stock card: [InventoryService.getStockCard] *)

Record StockCardParams := {
  sc_productId : Z;
  sc_colorId : Z;
  sc_sizeId : Z;
  sc_locationId : Z;
  fromDate : option Z;
  toDate : option Z;
  (** [None]: the default of 100; [Some 0]: falsy, no LIMIT clause *)
  limit : option nat
}.

Record StockCardLine := {
  line_movement : Movement;
  qty_change : Z;
  running_balance : Z
}.

Record JoinedNames := {
  j_location_name : string;
  j_location_code : string;
  j_product_name : string;
  j_color_name : string;
  j_size_name : string
}.

Record StockCard := {
  sc_variant_id : Z;
  sc_product_name : string;
  sc_color_name : string;
  sc_size_name : string;
  sc_location_name : string;
  sc_location_code : string;
  opening_qty : Z;
  current_qty : Z;
  sc_avg_cost : num;
  sc_movements : list StockCardLine;
  period_from : option Z;
  period_to : option Z
}.

(** The inner joins of the movement query go through primary keys: they keep
    a movement row once, when all the rows it refers to exist. *)
Definition join_names (c : Catalog) (v l : Z) : option JoinedNames :=
  loc ← find (λ x, bool_decide (loc_id x = l)) (locations c);
  pcs ← find (λ x, bool_decide (pcs_id x = v)) (product_color_sizes c);
  pc ← find (λ x, bool_decide (pc_id x = pcs_product_color_id pcs))
            (product_colors c);
  p ← find (λ x, bool_decide (prod_id x = pc_product_id pc)) (products c);
  co ← find (λ x, bool_decide (col_id x = pc_color_id pc)) (colors c);
  sz ← find (λ x, bool_decide (size_id x = pcs_size_id pcs)) (sizes c);
  Some {| j_location_name := loc_name loc; j_location_code := loc_code loc;
          j_product_name := prod_name p; j_color_name := col_name co;
          j_size_name := size_name sz |}.

(** [created_at ASC, id ASC] *)
Definition chronological (a b : Movement) : bool :=
  bool_decide (m_created_at a < m_created_at b)
  || (bool_decide (m_created_at a = m_created_at b)
      && bool_decide (m_id a ≤ m_id b)).

Definition in_window (from to : option Z) (m : Movement) : bool :=
  match from with Some f => bool_decide (f ≤ m_created_at m) | None => true end
  && match to with Some t => bool_decide (m_created_at m ≤ t) | None => true end.

Definition apply_limit {A} (lim : option nat) (l : list A) : list A :=
  match lim with
  | None => take 100 l
  | Some O => l
  | Some n => take n l
  end.

(** The opening balance query; [0] when [fromDate] is omitted. *)
Definition openingQty (s : state) (v l : Z) (from : option Z) : Z :=
  match from with
  | Some f =>
      sum_signed (filter (λ m, at_pair v l m = true ∧ m_created_at m < f)
                         (stock_movements s))
  | None => 0
  end.

(** The movement query. *)
Definition card_movements (s : state) (v l : Z) (from to : option Z)
    (lim : option nat) : list Movement :=
  match join_names (catalog s) v l with
  | None => []
  | Some _ =>
      apply_limit lim
        (sort_by chronological
           (filter (λ m, at_pair v l m = true ∧ in_window from to m = true)
                   (stock_movements s)))
  end.

(** [movements.map] with the running balance threaded through. *)
Fixpoint running_balances (runningBalance : Z) (ms : list Movement)
    : list StockCardLine :=
  match ms with
  | [] => []
  | m :: ms' =>
      let qtyChange := signed_qty m in
      let b := runningBalance + qtyChange in
      {| line_movement := m; qty_change := qtyChange; running_balance := b |}
        :: running_balances b ms'
  end.

Definition getStockCard (p : StockCardParams) (s : state) : result StockCard :=
  match find (variant_has_ids (catalog s) (sc_productId p) (sc_colorId p)
                (sc_sizeId p))
             (product_color_sizes (catalog s)) with
  | None => Err VariantNotFound
  | Some v =>
      let variantId := pcs_id v in
      let opening := openingQty s variantId (sc_locationId p) (fromDate p) in
      let movements :=
        card_movements s variantId (sc_locationId p) (fromDate p) (toDate p)
          (limit p) in
      let names :=
        match movements with
        | [] => None
        | _ :: _ => join_names (catalog s) variantId (sc_locationId p)
        end in
      Ok {| sc_variant_id := variantId;
            sc_product_name := default "" (j_product_name <$> names);
            sc_color_name := default "" (j_color_name <$> names);
            sc_size_name := default "" (j_size_name <$> names);
            sc_location_name := default "" (j_location_name <$> names);
            sc_location_code := default "" (j_location_code <$> names);
            opening_qty := opening;
            current_qty := balance_qty s variantId (sc_locationId p);
            sc_avg_cost := balance_avg_cost s variantId (sc_locationId p);
            sc_movements := running_balances opening movements;
            period_from := fromDate p;
            period_to := toDate p |}
  end.

(** The running balance after the last line of a card (the opening balance
    when the card has no line). *)
Definition closing_balance (c : StockCard) : Z :=
  match last (sc_movements c) with
  | Some line => running_balance line
  | None => opening_qty c
  end.

(** [InventoryService.getStockBalance]; [db.query] is taken to resolve to the
    rows. *)
Definition getStockBalance (v l : Z) (s : state) : Z :=
  match stock_balances s !! (v, l) with
  | Some b => qty_on_hand b
  | None => 0
  end.

(** ** Opname workflow *)

Fixpoint insert_opname_items (opnameId : Z) (rows : list ((Z * Z) * Balance))
    (s : state) : result state :=
  match rows with
  | [] => Ok s
  | ((v, l), b) :: rows' =>
      if existsb (λ i, bool_decide (oi_opname_id i = opnameId)
                       && bool_decide (oi_variant_id i = v)
                       && bool_decide (oi_location_id i = l))
                 (stock_opname_items s)
      then Err (DuplicateEntry "unique_opname_variant_location")
      else
        insert_opname_items opnameId rows'
          (append_opname_item
             {| oi_id := next_opname_item_id s; oi_opname_id := opnameId;
                oi_variant_id := v; oi_location_id := l;
                system_qty := qty_on_hand b; counted_qty := None;
                oi_note := None; counted_by := None; counted_at := None |} s)
  end.

(** The snapshot query: balances with stock, of one location when
    [locationId] is truthy. *)
Definition in_snapshot (locationId : option Z) (r : (Z * Z) * Balance) : bool :=
  bool_decide (0 < qty_on_hand r.2)
  && match locationId with
     | Some l => bool_decide (l = 0) || bool_decide (r.1.2 = l)
     | None => true
     end.

Definition snapshot_rows (locationId : option Z) (s : state)
    : list ((Z * Z) * Balance) :=
  filter (λ r, in_snapshot locationId r = true)
         (map_to_list (stock_balances s)).

Definition startOpname (opnameCode : string) (locationId : option Z)
    (createdBy : string) (s : state) : result (Opname * state) :=
  if existsb (λ o, bool_decide (opname_code o = opnameCode)) (stock_opname s)
  then Err (DuplicateEntry "opname_code")
  else
    let o := {| op_id := next_opname_id s; opname_code := opnameCode;
                op_location_id := locationId; op_status := ACTIVE;
                op_snapshot_at := Some (current_timestamp s);
                op_completed_at := None; op_created_by := createdBy |} in
    let s1 := append_opname o s in
    s2 ← insert_opname_items (op_id o) (snapshot_rows locationId s1) s1;
    Ok (o, s2).

Definition item_matches (opnameId v l : Z) (i : OpnameItem) : bool :=
  bool_decide (oi_opname_id i = opnameId)
  && bool_decide (oi_variant_id i = v)
  && bool_decide (oi_location_id i = l).

Definition updateOpnameCount (opnameId v l countedQty : Z) (countedBy : string)
    (note_ : option string) (s : state) : result (OpnameItem * state) :=
  let updated :=
    (λ i, if item_matches opnameId v l i
          then set_counted countedQty countedBy (current_timestamp s) note_ i
          else i) <$> stock_opname_items s in
  match find (item_matches opnameId v l) updated with
  | None => Err OpnameItemNotFound
  | Some i => Ok (i, set_opname_items updated s)
  end.

Record Adjustment := {
  adj_movement : Movement;
  adj_variance_qty : Z;
  adj_system_qty : Z;
  adj_counted_qty : Z
}.

Record CommitSummary := {
  total_items : nat;
  positive_variances : nat;
  negative_variances : nat;
  total_adjustments : nat
}.

Record CommitResult := {
  cr_opname : Opname;
  adjustments : list Adjustment;
  summary : CommitSummary
}.

(** The variance of a row; the commit query only returns counted rows. *)
Definition variance (i : OpnameItem) : Z := default 0 (variance_qty i).

(** [counted_qty IS NOT NULL AND variance_qty != 0] *)
Definition has_variance (opnameId : Z) (i : OpnameItem) : bool :=
  bool_decide (oi_opname_id i = opnameId)
  && match variance_qty i with
     | Some d => negb (bool_decide (d = 0))
     | None => false
     end.

(** [ORDER BY variance_qty DESC] *)
Definition variance_desc (a b : OpnameItem) : bool :=
  bool_decide (variance b ≤ variance a).

Definition commit_items (opnameId : Z) (s : state) : list OpnameItem :=
  sort_by variance_desc
    (filter (λ i, has_variance opnameId i = true) (stock_opname_items s)).

Definition adjustment_payload (opnameId : Z) (o : Opname)
    (createdBy_ : option string) (i : OpnameItem) : MovementPayload :=
  {| variantId := oi_variant_id i; locationId := oi_location_id i;
     movementType := if bool_decide (0 < variance i) then "IN" else "OUT";
     reasonCode := if bool_decide (0 < variance i) then "ADJUSTMENT_IN"
                   else "ADJUSTMENT_OUT";
     qty := Z.abs (variance i);
     unit_ := None; unitCost := None; currency := None;
     refTable := Some "stock_opname"; refId := Some opnameId;
     refCode := Some (opname_code o);
     note := Some ("Stock opname adjustment: "
                   +:+ note_or (oi_note i) "Physical count variance");
     pic := counted_by i; createdBy := createdBy_ |}.

(** The loop over the items: one [createMovement] each, in order. *)
Fixpoint book_adjustments (opnameId : Z) (o : Opname)
    (createdBy_ : option string) (items : list OpnameItem) (s : state)
    : result (list Adjustment * state) :=
  match items with
  | [] => Ok ([], s)
  | i :: items' =>
      '(m, s1) ← createMovement (adjustment_payload opnameId o createdBy_ i) s;
      '(adjs, s2) ← book_adjustments opnameId o createdBy_ items' s1;
      Ok ({| adj_movement := m; adj_variance_qty := variance i;
             adj_system_qty := system_qty i;
             adj_counted_qty := default 0 (counted_qty i) |} :: adjs, s2)
  end.

Definition complete_opname (opnameId : Z) (s : state) : state :=
  set_opname
    ((λ o, if bool_decide (op_id o = opnameId)
           then set_op_completed (current_timestamp s) o else o)
       <$> stock_opname s) s.

(** [InventoryService.commitOpname]: one transaction; any error rolls the
    adjustments back and leaves the session as it was. *)
Definition commitOpname (opnameId : Z) (createdBy_ : option string) (s : state)
    : result (CommitResult * state) :=
  match find (λ o, bool_decide (op_id o = opnameId)
                   && bool_decide (op_status o = ACTIVE)) (stock_opname s) with
  | None => Err OpnameNotFoundOrNotActive
  | Some o =>
      let items := commit_items opnameId s in
      '(adjs, s1) ← book_adjustments opnameId o createdBy_ items s;
      let s2 := complete_opname opnameId s1 in
      Ok ({| cr_opname := set_op_completed (current_timestamp s) o;
             adjustments := adjs;
             summary :=
               {| total_items := length items;
                  positive_variances :=
                    length (filter (λ i, 0 < variance i) items);
                  negative_variances :=
                    length (filter (λ i, variance i < 0) items);
                  total_adjustments := length adjs |} |}, s2)
  end.

(** ** CSV import: [POST /api/stock/import-csv]

    A row is taken after [csv-parse]: the four names as strings, [quantity]
    after [parseInt] and the cost after [parseFloat(unitCost) || 0].  Every
    row runs on its own: an error is recorded and the loop goes on. *)

Inductive csv_int :=
| CsvUndefined
| CsvNaN
| CsvInt (z : Z).

Record CsvRow := {
  row_product_name : string;
  row_color_name : string;
  row_size_name : string;
  row_location_name : string;
  row_quantity : csv_int;
  row_cost : num
}.

Inductive row_error :=
| RowMissingFields           (* 'Missing required fields' *)
| RowInvalidQuantity         (* 'Invalid quantity' *)
| RowUnknownLocation         (* 'Unknown location' *)
| RowThrew (e : error).      (* the message of a thrown error *)

(** [toLowerCase], on ASCII letters. *)
Definition ascii_toLowerCase (a : ascii) : ascii :=
  let n := N_of_ascii a in
  if ((65 <=? n) && (n <=? 90))%N then ascii_of_N (n + 32) else a.

Fixpoint toLowerCase (s : string) : string :=
  match s with
  | EmptyString => EmptyString
  | String a s' => String (ascii_toLowerCase a) (toLowerCase s')
  end.

Definition locationMapping : list (string * string) :=
  [("display", "display area"); ("lemari", "storage cabinet")].

(** [locationMapping[lower] || lower]; an inherited property is a function,
    which no location name is [===] to. *)
Definition mappedLocationName (locationName : string) : option string :=
  match js_get locationMapping (toLowerCase locationName) with
  | OwnProp a => Some a
  | InheritedProp => None
  | NoProp => Some (toLowerCase locationName)
  end.

Definition find_location (locationName : string) (s : state) : option Location :=
  mapped ← mappedLocationName locationName;
  find (λ loc, bool_decide (toLowerCase (loc_name loc) = mapped))
       (locations (catalog s)).

Definition csv_payload (v l : Z) (mtype reason : string) (q : Z) (c : num)
    (ref : string) (n : string) : MovementPayload :=
  {| variantId := v; locationId := l; movementType := mtype;
     reasonCode := reason; qty := q;
     unit_ := None; unitCost := Some c; currency := None;
     refTable := None; refId := None; refCode := Some ref;
     note := Some n; pic := Some "CSV_IMPORT"; createdBy := None |}.

Definition row_label (row : CsvRow) : string :=
  row_product_name row +:+ " " +:+ row_color_name row +:+ " " +:+ row_size_name row.

(** The stock operation of a row, once variant and location are known. *)
Definition import_movement (mode : string) (row : CsvRow) (q : Z) (v l : Z)
    (s : state) : result state :=
  if decide (mode = "add") then
    if bool_decide (0 < q) then
      '(_, s1) ← createMovement
        (csv_payload v l "IN" "ADJUSTMENT_IN" q (row_cost row) "CSV_IMPORT"
           ("CSV Import: " +:+ row_label row)) s;
      Ok s1
    else Ok s
  else if decide (mode = "set") then
    let currentBalance := getStockBalance v l s in
    let difference := q - currentBalance in
    if bool_decide (difference = 0) then Ok s
    else
      '(_, s1) ← createMovement
        (csv_payload v l
           (if bool_decide (0 < difference) then "IN" else "OUT")
           (if bool_decide (0 < difference) then "ADJUSTMENT_IN"
            else "ADJUSTMENT_OUT")
           (Z.abs difference) (row_cost row) "CSV_SET"
           ("CSV Set Stock: " +:+ row_label row +:+ " -> " +:+ pretty q)) s;
      Ok s1
  else Ok s.

Record RowResult := {
  row_created : bool;
  row_failure : option row_error
}.

Definition importCsvRow (mode : string) (row : CsvRow) (s : state)
    : RowResult * state :=
  if bool_decide (row_product_name row = "") || bool_decide (row_color_name row = "")
     || bool_decide (row_size_name row = "") || bool_decide (row_location_name row = "")
     || match row_quantity row with CsvUndefined => true | _ => false end
  then ({| row_created := false; row_failure := Some RowMissingFields |}, s)
  else
    match row_quantity row with
    | CsvInt q =>
        if bool_decide (q < 0)
        then ({| row_created := false; row_failure := Some RowInvalidQuantity |}, s)
        else
          match resolveVariantId (row_product_name row) (row_color_name row)
                  (row_size_name row) s with
          | Err e => ({| row_created := false; row_failure := Some (RowThrew e) |}, s)
          | Ok (variantResult, s1) =>
              match find_location (row_location_name row) s1 with
              | None =>
                  ({| row_created := r_created variantResult;
                      row_failure := Some RowUnknownLocation |}, s1)
              | Some location =>
                  match import_movement mode row q (r_id variantResult)
                          (loc_id location) s1 with
                  | Err e =>
                      ({| row_created := r_created variantResult;
                          row_failure := Some (RowThrew e) |}, s1)
                  | Ok s2 =>
                      ({| row_created := r_created variantResult;
                          row_failure := None |}, s2)
                  end
              end
          end
    | _ => ({| row_created := false; row_failure := Some RowInvalidQuantity |}, s)
    end.

Record ImportResults := {
  imported : nat;
  created : nat;
  updated : nat;
  errors : list (nat * row_error)
}.

Definition record_row (i : nat) (r : RowResult) (acc : ImportResults)
    : ImportResults :=
  let created' := if row_created r then S (created acc) else created acc in
  match row_failure r with
  | Some e =>
      {| imported := imported acc; created := created';
         updated := updated acc; errors := errors acc ++ [((i + 2)%nat, e)] |}
  | None =>
      {| imported := S (imported acc); created := created';
         updated := S (updated acc); errors := errors acc |}
  end.

Fixpoint import_rows (mode : string) (i : nat) (rows : list CsvRow)
    (acc : ImportResults) (s : state) : ImportResults * state :=
  match rows with
  | [] => (acc, s)
  | row :: rows' =>
      let '(r, s1) := importCsvRow mode row s in
      import_rows mode (S i) rows' (record_row i r acc) s1
  end.

Definition importCsv (mode : string) (rows : list CsvRow) (s : state)
    : ImportResults * state :=
  import_rows mode 0 rows
    {| imported := 0; created := 0; updated := 0; errors := [] |} s.

(** ** Inventory tree: [InventoryService.buildInventoryTree]

    A row of the tree query: a balance row joined with its variant, product,
    color, size and location. *)

Record TreeRow := {
  tr_product_id : Z;
  tr_product_name : string;
  tr_color_id : Z;
  tr_color_name : string;
  tr_color_hex : string;
  tr_location_id : Z;
  tr_location_code : string;
  tr_location_name : string;
  tr_location_is_default : bool;
  tr_size_id : Z;
  tr_size_name : string;
  tr_size_sort : Z;
  tr_qty_on_hand : Z;
  tr_avg_cost : option num;
  tr_balance_updated_at : Z;
  tr_variant_id : Z
}.

Record SizeNode := {
  sn_size_id : Z;
  sn_size_name : string;
  sn_size_sort : Z;
  sn_variant_id : Z;
  sn_qty_on_hand : Z;
  sn_avg_cost : num;
  sn_balance_updated_at : Z
}.

Record LocationNode := {
  ln_location_id : Z;
  ln_location_code : string;
  ln_location_name : string;
  ln_location_is_default : bool;
  ln_total_qty : Z;
  ln_sizes : list SizeNode
}.

Record ProductColorNode := {
  pn_product_id : Z;
  pn_product_name : string;
  pn_color_id : Z;
  pn_color_name : string;
  pn_color_hex : string;
  pn_total_qty : Z;
  pn_locations : list LocationNode
}.

(** [if (!o[k]) o[k] = fresh; ... o[k] ...]: the entry under the key, made
    first if there is none, is changed in place.  The objects [tree] and
    [locations] are kept as the lists of their values in insertion order; the
    key of a value is read off its fields, which hold what the key was built
    from. *)
Fixpoint upsert {A} (has_key : A → bool) (fresh : A) (f : A → A) (l : list A)
    : list A :=
  match l with
  | [] => [f fresh]
  | x :: l' => if has_key x then f x :: l' else x :: upsert has_key fresh f l'
  end.

Definition size_node (row : TreeRow) : SizeNode :=
  {| sn_size_id := tr_size_id row; sn_size_name := tr_size_name row;
     sn_size_sort := tr_size_sort row; sn_variant_id := tr_variant_id row;
     sn_qty_on_hand := tr_qty_on_hand row;
     sn_avg_cost := default num_zero (tr_avg_cost row);
     sn_balance_updated_at := tr_balance_updated_at row |}.

Definition new_location (row : TreeRow) : LocationNode :=
  {| ln_location_id := tr_location_id row;
     ln_location_code := tr_location_code row;
     ln_location_name := tr_location_name row;
     ln_location_is_default := tr_location_is_default row;
     ln_total_qty := 0; ln_sizes := [] |}.

Definition push_size (row : TreeRow) (ln : LocationNode) : LocationNode :=
  {| ln_location_id := ln_location_id ln;
     ln_location_code := ln_location_code ln;
     ln_location_name := ln_location_name ln;
     ln_location_is_default := ln_location_is_default ln;
     ln_total_qty := ln_total_qty ln + tr_qty_on_hand row;
     ln_sizes := ln_sizes ln ++ [size_node row] |}.

Definition new_product_color (row : TreeRow) : ProductColorNode :=
  {| pn_product_id := tr_product_id row;
     pn_product_name := tr_product_name row;
     pn_color_id := tr_color_id row; pn_color_name := tr_color_name row;
     pn_color_hex := tr_color_hex row;
     pn_total_qty := 0; pn_locations := [] |}.

Definition add_location_row (row : TreeRow) (pc : ProductColorNode)
    : ProductColorNode :=
  {| pn_product_id := pn_product_id pc; pn_product_name := pn_product_name pc;
     pn_color_id := pn_color_id pc; pn_color_name := pn_color_name pc;
     pn_color_hex := pn_color_hex pc;
     pn_total_qty := pn_total_qty pc + tr_qty_on_hand row;
     pn_locations :=
       upsert (λ ln, bool_decide (ln_location_id ln = tr_location_id row))
              (new_location row) (push_size row) (pn_locations pc) |}.

(** The key [`${row.product_id}-${row.color_id}`] is the pair of the ids:
    the text of two integers with a dash in between determines both. *)
Definition add_row (tree : list ProductColorNode) (row : TreeRow)
    : list ProductColorNode :=
  upsert (λ pc, bool_decide ((pn_product_id pc, pn_color_id pc)
                             = (tr_product_id row, tr_color_id row)))
         (new_product_color row) (add_location_row row) tree.

(** [Object.values] of an object with numeric keys: the keys that are array
    indices come first, in ascending order, the others follow in insertion
    order. *)
Definition is_array_index (k : Z) : bool :=
  bool_decide (0 ≤ k) && bool_decide (k < 4294967295).

Definition object_values {A} (key : A → Z) (l : list A) : list A :=
  sort_by (λ a b, bool_decide (key a ≤ key b))
          (filter (λ a, is_array_index (key a) = true) l)
  ++ filter (λ a, is_array_index (key a) = false) l.

(** [Array.prototype.sort] with a comparison function: stable, [a] stays
    before [b] when the comparison is not positive. *)
Definition js_sort {A} (cmp : A → A → Z) (l : list A) : list A :=
  sort_by (λ a b, bool_decide (cmp a b ≤ 0)) l.

(** [x || y] on numbers *)
Definition or_else (x y : Z) : Z := if bool_decide (x = 0) then y else x.

Section Comparisons.
(** [String.prototype.localeCompare]: negative, zero or positive, in the
    order of the locale of the server. *)
Variable localeCompare : string → string → Z.

Definition compare_sizes (a b : SizeNode) : Z :=
  or_else (sn_size_sort a - sn_size_sort b)
          (localeCompare (sn_size_name a) (sn_size_name b)).

Definition compare_locations (a b : LocationNode) : Z :=
  or_else ((if ln_location_is_default b then 1 else 0)
           - (if ln_location_is_default a then 1 else 0))
          (localeCompare (ln_location_name a) (ln_location_name b)).

Definition compare_product_colors (a b : ProductColorNode) : Z :=
  or_else (localeCompare (pn_product_name a) (pn_product_name b))
          (localeCompare (pn_color_name a) (pn_color_name b)).

Definition sorted_location (ln : LocationNode) : LocationNode :=
  {| ln_location_id := ln_location_id ln;
     ln_location_code := ln_location_code ln;
     ln_location_name := ln_location_name ln;
     ln_location_is_default := ln_location_is_default ln;
     ln_total_qty := ln_total_qty ln;
     ln_sizes := js_sort compare_sizes (ln_sizes ln) |}.

Definition sorted_product_color (pc : ProductColorNode) : ProductColorNode :=
  {| pn_product_id := pn_product_id pc; pn_product_name := pn_product_name pc;
     pn_color_id := pn_color_id pc; pn_color_name := pn_color_name pc;
     pn_color_hex := pn_color_hex pc;
     pn_total_qty := pn_total_qty pc;
     pn_locations :=
       js_sort compare_locations
         (sorted_location <$> object_values ln_location_id (pn_locations pc)) |}.

Definition buildInventoryTree (rows : list TreeRow) : list ProductColorNode :=
  js_sort compare_product_colors
    (sorted_product_color <$> foldl add_row [] rows).
End Comparisons.

(** ** Histories

    One step is one successful service call, one CSV import (whatever its
    rows did), or a change of the environment.  A failed call leaves the
    store as it was, so it is no step. *)

Inductive step : state → state → Prop :=
| step_createMovement p s m s' :
    createMovement p s = Ok (m, s') → step s s'
| step_transfer t s r s' :
    transfer t s = Ok (r, s') → step s s'
| step_commitOpname opnameId by_ s r s' :
    commitOpname opnameId by_ s = Ok (r, s') → step s s'
| step_importCsv mode rows s :
    step s (importCsv mode rows s).2
| step_resolveVariantId pn cn sn s r s' :
    resolveVariantId pn cn sn s = Ok (r, s') → step s s'
| step_resolveVariantIdByIds p c z s r s' :
    resolveVariantIdByIds p c z s = Ok (r, s') → step s s'
| step_startOpname code l by_ s r s' :
    startOpname code l by_ s = Ok (r, s') → step s s'
| step_updateOpnameCount o v l c by_ n s r s' :
    updateOpnameCount o v l c by_ n s = Ok (r, s') → step s s'
| step_environment now flag s :
    step s (set_environment now flag s).

(** A fresh installation: no movement yet and every balance row at zero, as
    the migration seeds them. *)
Definition initial (s : state) : Prop :=
  stock_movements s = [] ∧
  ∀ k b, stock_balances s !! k = Some b → qty_on_hand b = 0.

Definition reachable (s : state) : Prop :=
  ∃ s0, initial s0 ∧ rtc step s0 s.

(** The ledger/balance consistency of a store. *)
Definition consistent (s : state) : Prop :=
  ∀ v l, balance_qty s v l = ledger_qty s v l.

(** ** Vocabulary of the statements *)

Definition in_reasons : list string :=
  ["OVERPROD_IN"; "RETURN_IN"; "ADJUSTMENT_IN"; "TRANSFER_IN"].

Definition out_reasons : list string :=
  ["SALES_OUT"; "GIFT_OUT"; "ADJUSTMENT_OUT"; "TRANSFER_OUT"].

(** A request that passes the first two validation steps. *)
Definition well_formed (p : MovementPayload) : Prop :=
  variantId p ≠ 0 ∧ locationId p ≠ 0 ∧ 0 < qty p ∧
  ((movementType p = "IN" ∧ reasonCode p ∈ in_reasons) ∨
   (movementType p = "OUT" ∧ reasonCode p ∈ out_reasons)).

(** The signed quantity a movement contributes to a pair. *)
Definition delta_at (v l : Z) (m : Movement) : Z :=
  if at_pair v l m then signed_qty m else 0.

Definition same_stock (s s' : state) : Prop :=
  stock_movements s' = stock_movements s ∧
  ∀ v l, balance_qty s' v l = balance_qty s v l.

Definition row_qty (b : option Balance) : Z :=
  match b with Some r => qty_on_hand r | None => 0 end.

Definition by_variance_desc (a b : OpnameItem) : Prop := variance b ≤ variance a.

(** The adjustment that the commit books for an item. *)
Definition is_adjustment_of (opnameId : Z) (o : Opname) (i : OpnameItem)
    (a : Adjustment) : Prop :=
  let m := adj_movement a in
  m_variant_id m = oi_variant_id i ∧ m_location_id m = oi_location_id i ∧
  (m_movement_type m, m_reason_code m) =
    (if decide (0 < variance i) then ("IN", "ADJUSTMENT_IN")
     else ("OUT", "ADJUSTMENT_OUT")) ∧
  m_qty m = Z.abs (variance i) ∧
  m_ref_table m = Some "stock_opname" ∧ m_ref_id m = Some opnameId ∧
  m_ref_code m = Some (opname_code o) ∧
  adj_variance_qty a = variance i.

(** The sum of the variances of the items of one pair. *)
Definition variance_at (v l : Z) (items : list OpnameItem) : Z :=
  foldr (λ i acc, variance i + acc) 0
    (filter (λ i, (oi_variant_id i, oi_location_id i) = (v, l)) items).

(** The LIMIT clause keeps all of [n] selected rows. *)
Definition limit_covers (lim : option nat) (n : nat) : Prop :=
  match lim with
  | None => (n ≤ 100)%nat
  | Some O => True
  | Some k => (n ≤ k)%nat
  end.

(** ** Vocabulary of the further statements *)

(** What [createMovement] lets into the ledger. *)
Definition valid_movement (m : Movement) : Prop :=
  0 < m_qty m ∧ m_variant_id m ≠ 0 ∧ m_location_id m ≠ 0 ∧
  ((m_movement_type m = "IN" ∧ m_reason_code m ∈ in_reasons) ∨
   (m_movement_type m = "OUT" ∧ m_reason_code m ∈ out_reasons)).

(** A change of the store that books nothing: ledger, balances and flag are
    as before and no variant or location disappears. *)
Definition quiet (s s' : state) : Prop :=
  stock_movements s' = stock_movements s ∧
  next_movement_id s' = next_movement_id s ∧
  (∀ v l, balance_qty s' v l = balance_qty s v l) ∧
  (∀ v, variant_exists s v = true → variant_exists s' v = true) ∧
  (∀ l, location_exists s l = true → location_exists s' l = true) ∧
  ALLOW_NEGATIVE s' = ALLOW_NEGATIVE s.

(** The service calls are made of single movements and quiet changes. *)
Inductive micro : state → state → Prop :=
| micro_movement p s m s' : createMovement p s = Ok (m, s') → micro s s'
| micro_quiet s s' : quiet s s' → micro s s'.

(** The ids of the ledger rows: increasing, below the counter. *)
Definition ids_increasing (s : state) : Prop :=
  StronglySorted Z.lt (m_id <$> stock_movements s) ∧
  Forall (λ m, m_id m < next_movement_id s) (stock_movements s).

(** The rows a movement refers to exist. *)
Definition refers_to_rows (s : state) (m : Movement) : Prop :=
  variant_exists s (m_variant_id m) = true ∧
  location_exists s (m_location_id m) = true.

(** Negative stock is off and there is none. *)
Definition stock_guarded (s : state) : Prop :=
  allowNegative s = false ∧ ∀ v l, 0 ≤ balance_qty s v l.

(** The balance rows of a variant that has just been created: one row
    without stock and without cost at every location, the other rows as
    before. *)
Definition zero_row : Balance := {| qty_on_hand := 0; avg_cost := None |}.

Definition created_with_balances (s s' : state) (v : Z) : Prop :=
  v = next_product_color_size_id (catalog s) ∧
  variant_exists s' v = true ∧
  (∀ loc, loc ∈ locations (catalog s) →
          stock_balances s' !! (v, loc_id loc) = Some zero_row) ∧
  (∀ k, k.1 ≠ v → stock_balances s' !! k = stock_balances s !! k).

(** No row of the catalog refers to an id that has not been handed out
    yet. *)
Definition refs_below (c : Catalog) : Prop :=
  Forall (λ v, pcs_product_color_id v < next_product_color_id c
               ∧ pcs_size_id v < next_size_id c) (product_color_sizes c) ∧
  Forall (λ pc, pc_product_id pc < next_product_id c
                ∧ pc_color_id pc < next_color_id c) (product_colors c).

(** The catalog [c'] holds the rows of [c] and rows with ids handed out
    since. *)
Definition grows (c c' : Catalog) : Prop :=
  (products c ⊆ products c' ∧ next_product_id c ≤ next_product_id c' ∧
   ∀ x, x ∈ products c' → x ∈ products c ∨ next_product_id c ≤ prod_id x) ∧
  (colors c ⊆ colors c' ∧ next_color_id c ≤ next_color_id c' ∧
   ∀ x, x ∈ colors c' → x ∈ colors c ∨ next_color_id c ≤ col_id x) ∧
  (sizes c ⊆ sizes c' ∧ next_size_id c ≤ next_size_id c' ∧
   ∀ x, x ∈ sizes c' → x ∈ sizes c ∨ next_size_id c ≤ size_id x) ∧
  (product_colors c ⊆ product_colors c' ∧
   next_product_color_id c ≤ next_product_color_id c' ∧
   ∀ x, x ∈ product_colors c' →
        x ∈ product_colors c ∨ next_product_color_id c ≤ pc_id x).

(** [a] is not later than [b] in the order of the stock card. *)
Definition not_later (a b : Movement) : Prop :=
  m_created_at a < m_created_at b ∨
  (m_created_at a = m_created_at b ∧ m_id a ≤ m_id b).

(** The number of rows that the LIMIT clause lets through, if it bounds
    them. *)
Definition limit_bound (lim : option nat) : option nat :=
  match lim with
  | None => Some 100%nat
  | Some O => None
  | Some n => Some n
  end.

(** The sum of the negative variances of the items of one pair. *)
Definition shortfall_at (v l : Z) (items : list OpnameItem) : Z :=
  foldr (λ i acc, Z.min 0 (variance i) + acc) 0
    (filter (λ i, (oi_variant_id i, oi_location_id i) = (v, l)) items).

(** The item that the snapshot makes of a balance row. *)
Definition snapshot_item (opnameId : Z) (id : Z) (r : (Z * Z) * Balance)
    : OpnameItem :=
  {| oi_id := id; oi_opname_id := opnameId;
     oi_variant_id := r.1.1; oi_location_id := r.1.2;
     system_qty := qty_on_hand r.2; counted_qty := None;
     oi_note := None; counted_by := None; counted_at := None |}.

(** The location scope of a count session: every location when [locationId]
    is null or 0. *)
Definition in_scope (locationId : option Z) (l : Z) : Prop :=
  match locationId with
  | Some l0 => l0 = 0 ∨ l = l0
  | None => True
  end.

Definition item_pair (i : OpnameItem) : Z * Z :=
  (oi_variant_id i, oi_location_id i).

(** The size entries of a tree, each with the product, the color and the
    location it hangs under. *)
Definition location_leaves (ln : LocationNode) : list (Z * SizeNode) :=
  (λ sn, (ln_location_id ln, sn)) <$> ln_sizes ln.

Definition product_color_leaves (pc : ProductColorNode)
    : list (Z * Z * (Z * SizeNode)) :=
  (λ x, (pn_product_id pc, pn_color_id pc, x))
    <$> (pn_locations pc ≫= location_leaves).

Definition tree_leaves (tree : list ProductColorNode)
    : list (Z * Z * (Z * SizeNode)) :=
  tree ≫= product_color_leaves.

Definition row_leaf (row : TreeRow) : Z * Z * (Z * SizeNode) :=
  (tr_product_id row, tr_color_id row, (tr_location_id row, size_node row)).

Definition sum_of {A} (f : A → Z) (l : list A) : Z :=
  foldr (λ x acc, f x + acc) 0 l.

Definition product_color_key (pc : ProductColorNode) : Z * Z :=
  (pn_product_id pc, pn_color_id pc).

Definition location_adds_up (ln : LocationNode) : Prop :=
  ln_total_qty ln = sum_of sn_qty_on_hand (ln_sizes ln).

Definition product_color_adds_up (pc : ProductColorNode) : Prop :=
  pn_total_qty pc = sum_of ln_total_qty (pn_locations pc) ∧
  Forall location_adds_up (pn_locations pc).

(** A group has one entry per location, and neither a group nor a location
    is empty. *)
Definition well_grouped (pc : ProductColorNode) : Prop :=
  NoDup (ln_location_id <$> pn_locations pc) ∧ pn_locations pc ≠ [] ∧
  Forall (λ ln, ln_sizes ln ≠ []) (pn_locations pc).

(** A comparison of strings that [Array.prototype.sort] can rely on: the
    sign flips when the arguments are swapped, and "not after" is
    transitive. *)
Definition consistent_comparator (cmp : string → string → Z) : Prop :=
  (∀ x y, 0 < cmp x y ↔ cmp y x < 0) ∧
  (∀ x y z, cmp x y ≤ 0 → cmp y z ≤ 0 → cmp x z ≤ 0).

(** The orders of the three levels of the tree. *)
Definition sizes_in_order (cmp : string → string → Z) (a b : SizeNode)
    : Prop :=
  sn_size_sort a < sn_size_sort b ∨
  (sn_size_sort a = sn_size_sort b ∧ cmp (sn_size_name a) (sn_size_name b) ≤ 0).

Definition locations_in_order (cmp : string → string → Z)
    (a b : LocationNode) : Prop :=
  (ln_location_is_default a = true ∧ ln_location_is_default b = false) ∨
  (ln_location_is_default a = ln_location_is_default b ∧
   cmp (ln_location_name a) (ln_location_name b) ≤ 0).

Definition product_colors_in_order (cmp : string → string → Z)
    (a b : ProductColorNode) : Prop :=
  cmp (pn_product_name a) (pn_product_name b) < 0 ∨
  (cmp (pn_product_name a) (pn_product_name b) = 0 ∧
   cmp (pn_color_name a) (pn_color_name b) ≤ 0).

End Ledger.

Arguments Movement : clear implicits.
Arguments Balance : clear implicits.
Arguments state : clear implicits.
Arguments MovementPayload : clear implicits.
Arguments CsvRow : clear implicits.
Arguments StockCard : clear implicits.
Arguments StockCardLine : clear implicits.
Arguments Adjustment : clear implicits.
Arguments CommitResult : clear implicits.
Arguments TreeRow : clear implicits.
Arguments SizeNode : clear implicits.
Arguments LocationNode : clear implicits.
Arguments ProductColorNode : clear implicits.

(** ** Exact rational costs, for the examples *)

#[global] Instance Q_CostArith : CostArith Q := {|
  num_zero := 0%Q;
  num_of_Z := inject_Z;
  num_add := Qplus;
  num_mul := Qmult;
  num_div := Qdiv;
  num_gt0 := λ q, bool_decide (0 < Qnum q)
|}.

(** A small shop: two locations, one product in one colour and three sizes,
    nothing in stock. *)
Definition demo_catalog : Catalog :=
  {| locations :=
       [{| loc_id := 1; loc_code := "DISPLAY"; loc_name := "Display Area";
           loc_is_default := true |};
        {| loc_id := 2; loc_code := "LEMARI"; loc_name := "Storage Cabinet";
           loc_is_default := false |}];
     products := [{| prod_id := 1; prod_name := "Henley"; prod_price := 50000 |}];
     colors := [{| col_id := 1; col_name := "Black"; col_hex_code := "#000000" |}];
     sizes := [{| size_id := 1; size_name := "M"; size_sort := 3 |};
               {| size_id := 2; size_name := "L"; size_sort := 4 |};
               {| size_id := 3; size_name := "XL"; size_sort := 5 |}];
     product_colors := [{| pc_id := 1; pc_product_id := 1; pc_color_id := 1 |}];
     product_color_sizes :=
       [{| pcs_id := 1; pcs_product_color_id := 1; pcs_size_id := 1 |};
        {| pcs_id := 2; pcs_product_color_id := 1; pcs_size_id := 2 |};
        {| pcs_id := 3; pcs_product_color_id := 1; pcs_size_id := 3 |}];
     next_product_id := 2; next_color_id := 2; next_size_id := 4;
     next_product_color_id := 2; next_product_color_size_id := 4 |}.

Definition demo_state (flag : option string) : state Q :=
  {| catalog := demo_catalog;
     stock_movements := [];
     next_movement_id := 1;
     stock_balances := ∅;
     stock_opname := [];
     next_opname_id := 1;
     stock_opname_items := [];
     next_opname_item_id := 1;
     current_timestamp := 1000;
     ALLOW_NEGATIVE := flag |}.

(** A stock-in of [q] pieces at cost [c]. *)
Definition stock_in (v l q : Z) (c : option Q) : MovementPayload Q :=
  {| variantId := v; locationId := l; movementType := "IN";
     reasonCode := "OVERPROD_IN"; qty := q; unit_ := None; unitCost := c;
     currency := None; refTable := None; refId := None; refCode := None;
     note := None; pic := None; createdBy := None |}.

(** A sale of [q] pieces. *)
Definition sale (v l q : Z) : MovementPayload Q :=
  {| variantId := v; locationId := l; movementType := "OUT";
     reasonCode := "SALES_OUT"; qty := q; unit_ := None; unitCost := None;
     currency := None; refTable := None; refId := None; refCode := None;
     note := None; pic := None; createdBy := None |}.

(** The store after a call, whether it succeeded or threw. *)
Definition after {num A} (r : result (A * state num)) (s : state num) : state num :=
  match r with
  | Ok (_, s') => s'
  | Err _ => s
  end.

(** ** Stores of the examples *)

(** Ten pieces of size M and five of size L on display, bought at 2 and at 4
    a piece. *)
Definition stocked (flag : option string) : state Q :=
  let s0 := demo_state flag in
  let s1 := after (createMovement (stock_in 1 1 10 (Some 2%Q)) s0) s0 in
  after (createMovement (stock_in 2 1 5 (Some 4%Q)) s1) s1.

Definition demo_transfer (from to : Z) : TransferParams :=
  {| t_variantId := 1; fromLocationId := from; toLocationId := to; t_qty := 4;
     t_refCode := Some "TRANSFER-1"; t_pic := None; t_createdBy := None;
     t_note := None |}.

Definition counting : state Q :=
  let s0 := stocked None in
  let s1 := after (startOpname "OPN-1" (Some 1) "ani" s0) s0 in
  let s2 := append_opname_item
              {| oi_id := next_opname_item_id s1; oi_opname_id := 1;
                 oi_variant_id := 3; oi_location_id := 1; system_qty := 0;
                 counted_qty := None; oi_note := None; counted_by := None;
                 counted_at := None |} s1 in
  let s3 := after (updateOpnameCount 1 1 1 7 "ani" None s2) s2 in
  let s4 := after (updateOpnameCount 1 2 1 5 "ani" None s3) s3 in
  after (updateOpnameCount 1 3 1 3 "ani" None s4) s4.

(** A count session overtaken by a delivery: the ten pieces are snapshotted
    and counted as seven, two more arrive, then the session is committed. *)
Definition overtaken : state Q :=
  let s0 := stocked None in
  let s1 := after (startOpname "OPN-1" (Some 1) "ani" s0) s0 in
  let s2 := after (updateOpnameCount 1 1 1 7 "ani" None s1) s1 in
  after (createMovement (stock_in 1 1 2 None) s2) s2.

Definition card_params (lim : option nat) : StockCardParams :=
  {| sc_productId := 1; sc_colorId := 1; sc_sizeId := 1; sc_locationId := 1;
     fromDate := None; toDate := None; limit := lim |}.

(** A third delivery of three pieces of size M; the card is asked for one
    line. *)
Definition restocked : state Q :=
  after (createMovement (stock_in 1 1 3 None) (stocked None)) (stocked None).

(** A price list: a delivery for the display, a new variant under a name of
    the alias table for the cabinet, a row for an unknown place, and the
    second row once more. *)
Definition csv_row (p c z l : string) (q : Z) (unit_cost : Q) : CsvRow Q :=
  {| row_product_name := p; row_color_name := c; row_size_name := z;
     row_location_name := l; row_quantity := CsvInt q; row_cost := unit_cost |}.

Definition csv_rows : list (CsvRow Q) :=
  [csv_row "Henley" "Black" "M" "Display" 5 3%Q;
   csv_row "T-SHIRT KATUN" "Navy" "S" "LEMARI" 2 0%Q;
   csv_row "Henley" "Black" "M" "Gudang" 1 0%Q;
   csv_row "T-SHIRT KATUN" "Navy" "S" "lemari" 2 0%Q].

(** The comparison of strings of the examples: by code points, as
    [localeCompare] orders plain ASCII names of one case. *)
Definition codepoint_compare (a b : string) : Z :=
  match String.compare a b with
  | Lt => -1
  | Eq => 0
  | Gt => 1
  end.

Definition tree_row (p : Z) (pn : string) (l : Z) (lc ln : string) (d : bool)
    (z : Z) (zn : string) (zs : Z) (q : Z) (v : Z) : TreeRow Q :=
  {| tr_product_id := p; tr_product_name := pn;
     tr_color_id := 1; tr_color_name := "Black"; tr_color_hex := "#000000";
     tr_location_id := l; tr_location_code := lc; tr_location_name := ln;
     tr_location_is_default := d;
     tr_size_id := z; tr_size_name := zn; tr_size_sort := zs;
     tr_qty_on_hand := q; tr_avg_cost := None; tr_balance_updated_at := 1000;
     tr_variant_id := v |}.

(** Rows of the tree query, in no particular order. *)
Definition tree_rows : list (TreeRow Q) :=
  [tree_row 1 "Henley" 1 "DISPLAY" "Display Area" true 2 "L" 4 5 2;
   tree_row 1 "Henley" 2 "LEMARI" "Storage Cabinet" false 1 "M" 3 4 1;
   tree_row 2 "Cardigan" 2 "LEMARI" "Storage Cabinet" false 3 "XL" 5 1 7;
   tree_row 1 "Henley" 1 "DISPLAY" "Display Area" true 1 "M" 3 10 1].

(** * Properties *)

Section Properties.
Context {num : Type} `{!CostArith num}.
Implicit Types (s : state num) (p : MovementPayload num) (m : Movement num).

(** ** The result monad *)

Lemma bind_Ok {A B} (f : A → result B) (r : result A) (b : B) :
  r ≫= f = Ok b ↔ ∃ a, r = Ok a ∧ f a = Ok b.
Proof.
  destruct r as [a|e]; cbn; split.
  - eauto.
  - intros (a' & [= <-] & ?); done.
  - discriminate.
  - intros (a' & ? & ?); discriminate.
Qed.

(** ** Validation *)

Lemma js_get_validReasons (mt : string) :
  js_get validReasons mt =
    if decide (mt = "IN") then OwnProp in_reasons
    else if decide (mt = "OUT") then OwnProp out_reasons
    else if decide (mt ∈ object_prototype_keys) then InheritedProp
    else NoProp.
Proof. unfold js_get; cbn. repeat case_decide; done. Qed.

Lemma reason_nonempty (r : string) :
  r ∈ in_reasons ∨ r ∈ out_reasons → r ≠ "".
Proof.
  intros [Hin|Hin] ->; revert Hin.
  - by apply (bool_decide_eq_false_1 ("" ∈ in_reasons)).
  - by apply (bool_decide_eq_false_1 ("" ∈ out_reasons)).
Qed.

Lemma validate_payload_Ok p : validate_payload p = Ok () ↔ well_formed p.
Proof.
  unfold validate_payload, well_formed.
  rewrite js_get_validReasons. split.
  - intros Hv.
    destruct (_ || _) eqn:Hreq in Hv; [discriminate|].
    rewrite !orb_false_iff, !bool_decide_eq_false in Hreq.
    destruct Hreq as ((((? & ?) & ?) & ?) & ?).
    case_bool_decide; [discriminate|].
    split_and!; [done | done | lia |].
    repeat case_decide; try discriminate;
      case_bool_decide; try discriminate; auto.
  - intros (Hvar & Hloc & Hq & Hr).
    assert (movementType p ≠ "" ∧ reasonCode p ≠ "") as [Hmt Hrc].
    { destruct Hr as [[-> Hin]|[-> Hin]]; (split; [done|]);
        apply reason_nonempty; auto. }
    rewrite !bool_decide_eq_false_2 by (done || lia).
    destruct Hr as [[-> Hin]|[-> Hin]].
    + rewrite decide_True by done. by rewrite bool_decide_eq_true_2.
    + rewrite decide_False, decide_True by done.
      by rewrite bool_decide_eq_true_2.
Qed.

Lemma check_stock_Ok p s :
  check_stock p s = Ok () ↔
  (movementType p = "OUT" → allowNegative s = false →
   qty p ≤ balance_qty s (variantId p) (locationId p)).
Proof.
  unfold check_stock.
  case_bool_decide as Hout; destruct (allowNegative s); cbn;
    try case_bool_decide; split; intros; try done; try discriminate; try lia.
  exfalso. assert (qty p ≤ balance_qty s (variantId p) (locationId p)) by auto.
  lia.
Qed.

Lemma check_foreign_keys_Ok p s :
  check_foreign_keys p s = Ok () ↔
  variant_exists s (variantId p) = true ∧ location_exists s (locationId p) = true.
Proof.
  unfold check_foreign_keys.
  destruct (variant_exists _ _), (location_exists _ _); cbn; split;
    intros; try done; try discriminate; destruct_and?; discriminate.
Qed.

(** What a successful [createMovement] is. *)
Lemma createMovement_Ok p s m s' :
  createMovement p s = Ok (m, s') ↔
  well_formed p ∧ check_stock p s = Ok () ∧ check_foreign_keys p s = Ok () ∧
  m = movement_of_payload p s ∧
  s' = updateStockBalance (variantId p) (locationId p) (movementType p)
         (qty p) (unitCost p) (append_movement m s).
Proof.
  unfold createMovement. rewrite <- validate_payload_Ok. split.
  - intros H.
    apply bind_Ok in H as ([] & Hv & H).
    apply bind_Ok in H as ([] & Hs & H).
    apply bind_Ok in H as ([] & Hf & H).
    injection H as <- <-. done.
  - intros (-> & -> & -> & -> & ->). reflexivity.
Qed.

(** The three ways in which [createMovement] refuses a well-formed request
    come in this order; the first two validation steps come before. *)
Lemma createMovement_Err_stock p s e :
  well_formed p → check_stock p s = Err e → createMovement p s = Err e.
Proof.
  intros Hwf Hs. unfold createMovement.
  apply validate_payload_Ok in Hwf as ->. cbn. by rewrite Hs.
Qed.

(** ** Replaying the ledger *)

Lemma sum_signed_app (xs ys : list (Movement num)) :
  sum_signed (xs ++ ys) = sum_signed xs + sum_signed ys.
Proof. unfold sum_signed. induction xs as [|x xs IH]; cbn; lia. Qed.

Lemma ledger_qty_snoc (ms : list (Movement num)) m v l :
  sum_signed (filter (λ x, at_pair v l x = true) (ms ++ [m])) =
  sum_signed (filter (λ x, at_pair v l x = true) ms) + delta_at v l m.
Proof.
  rewrite filter_app, sum_signed_app. f_equal.
  unfold delta_at. destruct (at_pair v l m) eqn:E.
  - rewrite filter_cons_True by done. cbn. lia.
  - rewrite filter_cons_False by (rewrite E; done). done.
Qed.

Lemma balance_qty_updateStockBalance v l mtype q c s v' l' :
  balance_qty (updateStockBalance v l mtype q c s) v' l' =
  if decide ((v, l) = (v', l')) then
    if decide (mtype = "IN") then balance_qty s v l + q
    else if decide (mtype = "OUT") then balance_qty s v l - q
    else balance_qty s v l
  else balance_qty s v' l'.
Proof.
  unfold updateStockBalance, balance_qty at 1. cbn.
  destruct (decide ((v, l) = (v', l'))) as [E|E].
  - injection E as <- <-. rewrite lookup_insert_eq. cbn.
    repeat case_decide; done.
  - by rewrite lookup_insert_ne.
Qed.

Lemma at_pair_true v l m :
  at_pair v l m = true ↔ (m_variant_id m, m_location_id m) = (v, l).
Proof.
  unfold at_pair. rewrite andb_true_iff, !bool_decide_eq_true.
  split; [intros [-> ->] | intros [= -> ->]]; done.
Qed.

(** A successful movement appends one row and moves one balance by its
    signed quantity. *)
Lemma createMovement_effect p s m s' :
  createMovement p s = Ok (m, s') →
  stock_movements s' = stock_movements s ++ [m] ∧
  (∀ v l, balance_qty s' v l = balance_qty s v l + delta_at v l m) ∧
  catalog s' = catalog s ∧ stock_opname s' = stock_opname s ∧
  stock_opname_items s' = stock_opname_items s ∧
  current_timestamp s' = current_timestamp s ∧
  ALLOW_NEGATIVE s' = ALLOW_NEGATIVE s.
Proof.
  intros (Hwf & _ & _ & -> & ->)%createMovement_Ok.
  split_and!; try reflexivity.
  intros v l. rewrite balance_qty_updateStockBalance.
  unfold delta_at, signed_qty. cbn.
  destruct Hwf as (_ & _ & _ & Hdir).
  change (balance_qty (append_movement _ s)) with (balance_qty s).
  destruct (decide (_ = (v, l))) as [E|E].
  - injection E as <- <-.
    rewrite (proj2 (at_pair_true _ _ _)) by done.
    destruct Hdir as [[-> _]|[-> _]]; repeat case_decide; done || lia.
  - destruct (at_pair v l _) eqn:Hat; [|lia].
    apply at_pair_true in Hat. cbn in Hat. congruence.
Qed.

Lemma delta_at_own p s :
  delta_at (variantId p) (locationId p) (movement_of_payload p s) =
  if decide (movementType p = "IN") then qty p else - qty p.
Proof.
  unfold delta_at. by rewrite (proj2 (at_pair_true _ _ _)).
Qed.

Lemma createMovement_consistent p s m s' :
  createMovement p s = Ok (m, s') → consistent s → consistent s'.
Proof.
  intros (Hms & Hb & _)%createMovement_effect Hc v l.
  unfold ledger_qty. rewrite Hms, ledger_qty_snoc, Hb.
  f_equal. apply Hc.
Qed.

(** ** Calls that leave the stock alone *)

Lemma same_stock_refl s : same_stock s s.
Proof. by split. Qed.

Lemma same_stock_trans s1 s2 s3 :
  same_stock s1 s2 → same_stock s2 s3 → same_stock s1 s3.
Proof.
  intros [Hm Hb] [Hm' Hb']. split; [congruence|].
  intros v l. by rewrite Hb', Hb.
Qed.

Lemma same_stock_consistent s s' :
  same_stock s s' → consistent s → consistent s'.
Proof.
  intros [Hm Hb] Hc v l. unfold ledger_qty. rewrite Hm, Hb. apply Hc.
Qed.

Lemma init_balances_qty (v : Z) (locs : list Location)
    (b b' : gmap (Z * Z) (Balance num)) :
  init_balances v locs b = Ok b' → ∀ k, row_qty (b' !! k) = row_qty (b !! k).
Proof.
  revert b. induction locs as [|loc locs IH]; cbn; intros b Hi k.
  - by injection Hi as <-.
  - destruct (b !! (v, loc_id loc)) eqn:Hrow; [discriminate|].
    rewrite (IH _ Hi).
    destruct (decide ((v, loc_id loc) = k)) as [<-|Hne].
    + by rewrite lookup_insert_eq, Hrow.
    + by rewrite lookup_insert_ne.
Qed.

Lemma insert_variant_same_stock productId colorId sizeId s v s' :
  insert_variant productId colorId sizeId s = Ok (v, s') → same_stock s s'.
Proof.
  unfold insert_variant.
  destruct (get_or_create_product_color _ _ _) as [pcid c1].
  destruct (existsb _ _); [discriminate|].
  intros (b & Hb & [= <- <-])%bind_Ok.
  split; [reflexivity|].
  intros v' l'. apply (init_balances_qty _ _ _ _ Hb (v', l')).
Qed.

Lemma set_catalog_same_stock c s : same_stock s (set_catalog c s).
Proof. by split. Qed.

Lemma createVariantFromNames_same_stock pn cn sn s r s' :
  createVariantFromNames pn cn sn s = Ok (r, s') → same_stock s s'.
Proof.
  unfold createVariantFromNames.
  intros (mapped & _ & H)%bind_Ok.
  destruct (get_or_create_product _ _) as [productId c1].
  destruct (get_or_create_color _ _) as [colorId c2].
  apply bind_Ok in H as ([sizeId c3] & _ & H).
  apply bind_Ok in H as ([variantId s1] & Hi & [= _ <-]).
  eapply same_stock_trans;
    [apply set_catalog_same_stock | by eapply insert_variant_same_stock].
Qed.

Lemma resolveVariantId_same_stock pn cn sn s r s' :
  resolveVariantId pn cn sn s = Ok (r, s') → same_stock s s'.
Proof.
  unfold resolveVariantId. destruct (find _ _).
  - intros [= _ <-]. apply same_stock_refl.
  - apply createVariantFromNames_same_stock.
Qed.

Lemma resolveVariantIdByIds_same_stock pid cid sid s v s' :
  resolveVariantIdByIds pid cid sid s = Ok (v, s') → same_stock s s'.
Proof.
  unfold resolveVariantIdByIds, createVariant. destruct (find _ _).
  - intros [= _ <-]. apply same_stock_refl.
  - apply insert_variant_same_stock.
Qed.

Lemma insert_opname_items_same_stock opnameId rows s s' :
  insert_opname_items opnameId rows s = Ok s' → same_stock s s'.
Proof.
  revert s. induction rows as [|[[v l] b] rows IH]; cbn; intros s.
  - intros [= <-]. apply same_stock_refl.
  - destruct (existsb _ _); [discriminate|].
    intros Hi%IH. destruct Hi as [Hm Hb]. by split.
Qed.

Lemma startOpname_same_stock code l by_ s o s' :
  startOpname code l by_ s = Ok (o, s') → same_stock s s'.
Proof.
  unfold startOpname. destruct (existsb _ _); [discriminate|].
  intros (s2 & Hi%insert_opname_items_same_stock & [= _ <-])%bind_Ok.
  destruct Hi as [Hm Hb]. by split.
Qed.

Lemma updateOpnameCount_same_stock o v l c by_ n s i s' :
  updateOpnameCount o v l c by_ n s = Ok (i, s') → same_stock s s'.
Proof.
  unfold updateOpnameCount. destruct (find _ _); [|discriminate].
  intros [= _ <-]. by split.
Qed.

(** ** Composite calls keep the ledger and the balances together *)

Lemma transfer_consistent t s r s' :
  transfer t s = Ok (r, s') → consistent s → consistent s'.
Proof.
  unfold transfer. case_bool_decide as Hsame; [discriminate|].
  intros ([mo s1] & Hout & H)%bind_Ok.
  apply bind_Ok in H as ([mi s2] & Hin & [= _ <-]).
  eauto using createMovement_consistent.
Qed.

Lemma book_adjustments_consistent opnameId o by_ items s adjs s' :
  book_adjustments opnameId o by_ items s = Ok (adjs, s') →
  consistent s → consistent s'.
Proof.
  revert s adjs. induction items as [|i items IH]; cbn; intros s adjs.
  - by intros [= _ <-].
  - intros ([m s1] & Hm & H)%bind_Ok.
    apply bind_Ok in H as ([adjs' s2] & Hrec & [= _ <-]).
    eauto using createMovement_consistent.
Qed.

Lemma complete_opname_same_stock opnameId s :
  same_stock s (complete_opname opnameId s).
Proof. by split. Qed.

Lemma commitOpname_consistent opnameId by_ s r s' :
  commitOpname opnameId by_ s = Ok (r, s') → consistent s → consistent s'.
Proof.
  unfold commitOpname. destruct (find _ _) as [o|]; [|discriminate].
  intros ([adjs s1] & Hb & [= _ <-])%bind_Ok Hc.
  eapply same_stock_consistent; [apply complete_opname_same_stock|].
  eauto using book_adjustments_consistent.
Qed.

Lemma import_movement_consistent mode row q v l s s' :
  import_movement mode row q v l s = Ok s' → consistent s → consistent s'.
Proof.
  unfold import_movement.
  repeat case_decide; repeat case_bool_decide;
    try (by intros [= <-]);
    intros ([m s1] & Hm & [= <-])%bind_Ok;
    eauto using createMovement_consistent.
Qed.

Lemma importCsvRow_consistent mode row s :
  consistent s → consistent (importCsvRow mode row s).2.
Proof.
  intros Hc. unfold importCsvRow.
  destruct (_ || _); [done|].
  destruct (row_quantity row) as [| |q]; [done|done|].
  case_bool_decide; [done|].
  destruct (resolveVariantId _ _ _ s) as [[vr s1]|e] eqn:Hr; [|done].
  apply resolveVariantId_same_stock in Hr.
  pose proof (same_stock_consistent _ _ Hr Hc) as Hc1.
  destruct (find_location _ s1) as [loc|]; [|done].
  destruct (import_movement _ _ _ _ _ s1) as [s2|e] eqn:Hi; [|done].
  cbn. eauto using import_movement_consistent.
Qed.

Lemma import_rows_consistent mode i rows acc s :
  consistent s → consistent (import_rows mode i rows acc s).2.
Proof.
  revert i acc s. induction rows as [|row rows IH]; cbn; intros i acc s Hc.
  - done.
  - pose proof (importCsvRow_consistent mode row s Hc) as Hrow.
    destruct (importCsvRow mode row s) as [r s1]. by apply IH.
Qed.

Lemma step_consistent s s' : step s s' → consistent s → consistent s'.
Proof.
  intros Hstep Hc. destruct Hstep.
  - eauto using createMovement_consistent.
  - eauto using transfer_consistent.
  - eauto using commitOpname_consistent.
  - by apply import_rows_consistent.
  - eauto using same_stock_consistent, resolveVariantId_same_stock.
  - eauto using same_stock_consistent, resolveVariantIdByIds_same_stock.
  - eauto using same_stock_consistent, startOpname_same_stock.
  - eauto using same_stock_consistent, updateOpnameCount_same_stock.
  - eapply same_stock_consistent; [|done]. by split.
Qed.

Lemma initial_consistent s : initial s → consistent s.
Proof.
  intros [Hm Hb] v l. unfold ledger_qty, balance_qty. rewrite Hm. cbn.
  destruct (stock_balances s !! (v, l)) eqn:E; [|done]. eauto.
Qed.


(** ** Moving-average cost *)

Lemma balance_avg_cost_updateStockBalance v l mtype q c s v' l' :
  balance_avg_cost (updateStockBalance v l mtype q c s) v' l' =
  if decide ((v, l) = (v', l')) then
    if decide (mtype = "IN") then
      match c with
      | Some x => if num_gt0 x
                  then moving_average (balance_qty s v l) (balance_avg_cost s v l) q x
                  else balance_avg_cost s v l
      | None => balance_avg_cost s v l
      end
    else balance_avg_cost s v l
  else balance_avg_cost s v' l'.
Proof.
  unfold updateStockBalance, balance_avg_cost at 1. cbn.
  destruct (decide ((v, l) = (v', l'))) as [E|E].
  - injection E as <- <-. by rewrite lookup_insert_eq.
  - by rewrite lookup_insert_ne.
Qed.


(** ** Insufficient stock *)

Lemma createMovement_succeeds p s :
  well_formed p → check_stock p s = Ok () →
  variant_exists s (variantId p) = true →
  location_exists s (locationId p) = true →
  ∃ m s', createMovement p s = Ok (m, s').
Proof.
  intros Hwf Hs Hv Hl. eexists _, _. apply createMovement_Ok.
  split_and!; try done. by apply check_foreign_keys_Ok.
Qed.



(** ** Transfers *)

Lemma delta_at_other p s v l :
  (variantId p, locationId p) ≠ (v, l) →
  delta_at v l (movement_of_payload p s) = 0.
Proof.
  intros Hne. unfold delta_at.
  destruct (at_pair _ _ _) eqn:Hat; [|done].
  apply at_pair_true in Hat. done.
Qed.

(** C4. A successful transfer of q from A to B (A ≠ B) lowers the balance at
    A by q, raises the balance at B by q and appends exactly two movements,
    TRANSFER_OUT at A and TRANSFER_IN at B, with the same reference code; a
    transfer with A = B is rejected as an invalid argument and leaves the
    store unchanged. *)
Theorem transfer_moves_stock t s :
  (fromLocationId t = toLocationId t →
     transfer t s = Err SameLocations ∧
     classify SameLocations = Some InvalidArgument ∧
     after (transfer t s) s = s) ∧
  (∀ mo mi s', transfer t s = Ok ((mo, mi), s') →
     fromLocationId t ≠ toLocationId t ∧
     balance_qty s' (t_variantId t) (fromLocationId t) =
       balance_qty s (t_variantId t) (fromLocationId t) - t_qty t ∧
     balance_qty s' (t_variantId t) (toLocationId t) =
       balance_qty s (t_variantId t) (toLocationId t) + t_qty t ∧
     stock_movements s' = stock_movements s ++ [mo; mi] ∧
     (m_movement_type mo, m_reason_code mo, m_variant_id mo, m_location_id mo,
      m_qty mo) =
       ("OUT", "TRANSFER_OUT", t_variantId t, fromLocationId t, t_qty t) ∧
     (m_movement_type mi, m_reason_code mi, m_variant_id mi, m_location_id mi,
      m_qty mi) =
       ("IN", "TRANSFER_IN", t_variantId t, toLocationId t, t_qty t) ∧
     m_ref_code mo = m_ref_code mi).
Proof.
  split.
  - intros Hsame. unfold transfer. by rewrite bool_decide_eq_true_2.
  - intros mo mi s'. unfold transfer.
    case_bool_decide as Hne; [discriminate|].
    intros ([mo' s1] & Hout & H)%bind_Ok.
    apply bind_Ok in H as ([mi' s2] & Hin & [= <- <- <-]).
    pose proof Hout as (_ & _ & _ & Hmo & _)%createMovement_Ok.
    pose proof Hin as (_ & _ & _ & Hmi & _)%createMovement_Ok.
    apply createMovement_effect in Hout as (Hms1 & Hb1 & _).
    apply createMovement_effect in Hin as (Hms2 & Hb2 & _).
    split; [done|].
    rewrite !Hb2, !Hb1, Hms2, Hms1, <- app_assoc.
    subst mo' mi'.
    pose proof (delta_at_own (transfer_out_payload t) s) as Hoo.
    pose proof (delta_at_own (transfer_in_payload t) s1) as Hii.
    pose proof (delta_at_other (transfer_out_payload t) s
                  (t_variantId t) (toLocationId t)) as Hoi.
    pose proof (delta_at_other (transfer_in_payload t) s1
                  (t_variantId t) (fromLocationId t)) as Hio.
    cbn in Hoo, Hii, Hoi, Hio.
    rewrite decide_False in Hoo by done. rewrite decide_True in Hii by done.
    rewrite Hoo, Hii, Hoi, Hio by congruence.
    split_and!; try reflexivity; lia.
Qed.

(** ** ORDER BY returns the selected rows, sorted *)

Section Sorting.
Context {A : Type} (le : A → A → bool) (R : relation A).
Hypothesis le_spec : ∀ x y, le x y = true ↔ R x y.
Hypothesis R_total : ∀ x y, R x y ∨ R y x.
Hypothesis R_trans : ∀ x y z, R x y → R y z → R x z.

Lemma insert_by_perm x (l : list A) : insert_by le x l ≡ₚ x :: l.
Proof.
  induction l as [|y l IH]; cbn; [done|].
  destruct (le x y); [done|].
  rewrite IH. apply perm_swap.
Qed.

Lemma sort_by_perm (l : list A) : sort_by le l ≡ₚ l.
Proof.
  induction l as [|x l IH]; cbn; [done|].
  fold (sort_by le l). by rewrite insert_by_perm, IH.
Qed.

Lemma insert_by_sorted x (l : list A) :
  StronglySorted R l → StronglySorted R (insert_by le x l).
Proof.
  induction 1 as [|y l Hl IH Hy]; cbn.
  - by repeat constructor.
  - destruct (le x y) eqn:E.
    + apply le_spec in E. constructor; [by constructor|].
      constructor; [done|].
      eapply Forall_impl; [exact Hy|]. intros z Hz. by eapply R_trans.
    + constructor; [done|].
      rewrite insert_by_perm. constructor; [|done].
      destruct (R_total x y) as [Hxy|Hyx]; [|done].
      apply le_spec in Hxy. congruence.
Qed.

Lemma sort_by_sorted (l : list A) : StronglySorted R (sort_by le l).
Proof.
  induction l as [|x l IH]; cbn; [constructor|].
  by apply insert_by_sorted.
Qed.
End Sorting.

Lemma commit_items_perm opnameId s :
  commit_items opnameId s ≡ₚ
  filter (λ i, has_variance opnameId i = true) (stock_opname_items s).
Proof. apply sort_by_perm. Qed.

Lemma commit_items_sorted opnameId s :
  StronglySorted by_variance_desc (commit_items opnameId s).
Proof.
  apply sort_by_sorted.
  - intros x y. unfold variance_desc. apply bool_decide_eq_true.
  - intros x y. unfold by_variance_desc. lia.
  - intros x y z. unfold by_variance_desc. lia.
Qed.

Lemma has_variance_true opnameId i :
  has_variance opnameId i = true ↔
  oi_opname_id i = opnameId ∧ ∃ c, counted_qty i = Some c ∧ c - system_qty i ≠ 0.
Proof.
  unfold has_variance, variance_qty.
  rewrite andb_true_iff, bool_decide_eq_true.
  destruct (counted_qty i) as [c|]; cbn.
  - rewrite negb_true_iff, bool_decide_eq_false. split.
    + intros [? ?]. eauto.
    + intros [? (c' & [= <-] & ?)]. done.
  - split; [intros [_ [=]] | intros [_ (c & [=] & _)]].
Qed.

Lemma elem_of_commit_items opnameId s i :
  i ∈ commit_items opnameId s ↔
  i ∈ stock_opname_items s ∧ oi_opname_id i = opnameId ∧
  ∃ c, counted_qty i = Some c ∧ c - system_qty i ≠ 0.
Proof.
  rewrite commit_items_perm, list_elem_of_filter, has_variance_true.
  tauto.
Qed.

(** ** Opname commit *)

Lemma variance_at_cons v l i items :
  variance_at v l (i :: items) =
  (if decide ((oi_variant_id i, oi_location_id i) = (v, l))
   then variance i else 0) + variance_at v l items.
Proof.
  unfold variance_at. case_decide.
  - by rewrite filter_cons_True.
  - by rewrite filter_cons_False.
Qed.

Lemma variance_at_app v l xs ys :
  variance_at v l (xs ++ ys) = variance_at v l xs + variance_at v l ys.
Proof.
  induction xs as [|x xs IH]; [done|].
  cbn [app]. rewrite !variance_at_cons, IH. lia.
Qed.

Lemma variance_at_perm v l xs ys :
  xs ≡ₚ ys → variance_at v l xs = variance_at v l ys.
Proof.
  induction 1; rewrite ?variance_at_cons; lia || congruence.
Qed.

Lemma delta_at_adjustment opnameId o by_ i s v l :
  delta_at v l (movement_of_payload (adjustment_payload opnameId o by_ i) s) =
  if decide ((oi_variant_id i, oi_location_id i) = (v, l))
  then variance i else 0.
Proof.
  case_decide as E.
  - injection E as <- <-.
    pose proof (delta_at_own (adjustment_payload opnameId o by_ i) s) as Hd.
    cbn in Hd. rewrite Hd.
    case_bool_decide; [rewrite decide_True by done|rewrite decide_False by done];
      lia.
  - by apply delta_at_other.
Qed.

(** What the loop of the commit does, for any list of items. *)
Lemma book_adjustments_effect opnameId o by_ items s adjs s' :
  book_adjustments opnameId o by_ items s = Ok (adjs, s') →
  Forall2 (is_adjustment_of opnameId o) items adjs ∧
  stock_movements s' = stock_movements s ++ (adj_movement <$> adjs) ∧
  (∀ v l, balance_qty s' v l = balance_qty s v l + variance_at v l items) ∧
  stock_opname s' = stock_opname s ∧
  stock_opname_items s' = stock_opname_items s ∧
  current_timestamp s' = current_timestamp s.
Proof.
  revert s adjs.
  induction items as [|i items IH]; cbn [book_adjustments]; intros s adjs.
  - intros [= <- <-]. split_and!; try done.
    + by rewrite app_nil_r.
    + intros v l. unfold variance_at. cbn. lia.
  - intros ([m s1] & Hm & H)%bind_Ok.
    apply bind_Ok in H as ([adjs' s2] & Hrec & [= <- <-]).
    apply IH in Hrec as (Hall & Hms & Hb & Ho & Hi & Ht).
    pose proof Hm as (_ & _ & _ & Hmeq & _)%createMovement_Ok.
    apply createMovement_effect in Hm as (Hms1 & Hb1 & _ & Ho1 & Hi1 & Ht1 & _).
    split_and!.
    + constructor; [|done]. subst m. unfold is_adjustment_of. cbn.
      split_and!; try done. by case_bool_decide; case_decide.
    + rewrite Hms, Hms1, <- app_assoc. done.
    + intros v l. rewrite Hb, Hb1, variance_at_cons. subst m.
      rewrite delta_at_adjustment. lia.
    + congruence.
    + congruence.
    + congruence.
Qed.

Lemma commitOpname_Ok opnameId by_ s r s' :
  commitOpname opnameId by_ s = Ok (r, s') →
  ∃ o s1,
    o ∈ stock_opname s ∧ op_id o = opnameId ∧ op_status o = ACTIVE ∧
    book_adjustments opnameId o by_ (commit_items opnameId s) s =
      Ok (adjustments r, s1) ∧
    s' = complete_opname opnameId s1 ∧
    cr_opname r = set_op_completed (current_timestamp s) o ∧
    total_adjustments (summary r) = length (adjustments r).
Proof.
  unfold commitOpname.
  destruct (find _ _) as [o|] eqn:Hfind; [|discriminate].
  apply find_some in Hfind as [Hin Hact].
  apply andb_true_iff in Hact as [Hid Hst].
  apply bool_decide_eq_true in Hid, Hst.
  intros ([adjs s1] & Hb & [= <- <-])%bind_Ok.
  exists o, s1. split_and!; try done. by apply list_elem_of_In.
Qed.

Lemma variance_counted i c :
  counted_qty i = Some c → variance i = c - system_qty i.
Proof. unfold variance, variance_qty. by intros ->. Qed.

Lemma variance_at_session opnameId s v l i :
  filter (λ j, item_matches opnameId v l j = true) (stock_opname_items s) = [i] →
  variance_at v l (commit_items opnameId s) = variance i.
Proof.
  intros Hone.
  rewrite (variance_at_perm _ _ _ _ (commit_items_perm opnameId s)).
  unfold variance_at.
  rewrite list_filter_filter.
  rewrite (list_filter_iff _
    (λ j, has_variance opnameId j = true ∧ item_matches opnameId v l j = true)).
  2:{ intros j. unfold item_matches, has_variance.
      rewrite !andb_true_iff, !bool_decide_eq_true.
      split; [intros [[= -> ->] [-> ?]] | intros [[? ?] [[_ ->] ->]]]; done. }
  rewrite <- list_filter_filter, Hone.
  destruct (has_variance opnameId i) eqn:Hv.
  - rewrite filter_cons_True by done. cbn. lia.
  - rewrite filter_cons_False by (rewrite Hv; done). cbn.
    assert (i ∈ [i]) as Hin by apply list_elem_of_here.
    rewrite <- Hone in Hin. apply list_elem_of_filter in Hin as [Hm _].
    unfold item_matches in Hm. rewrite !andb_true_iff in Hm.
    destruct Hm as [[Hid%bool_decide_eq_true _] _].
    unfold has_variance in Hv. rewrite bool_decide_eq_true_2 in Hv by done.
    unfold variance. destruct (variance_qty i) as [d|]; [|done]. cbn in *.
    apply negb_false_iff, bool_decide_eq_true in Hv. done.
Qed.

(** C5, as the code has it. A successful commit of an ACTIVE session books
    exactly one adjustment per item of the session with a non-null count and
    a non-zero variance, in the order of the commit query: IN with
    ADJUSTMENT_IN if the variance is positive, else OUT with ADJUSTMENT_OUT,
    of quantity |variance|, referring to the session; uncounted and
    zero-variance items are not in the query. Every balance moves by the
    variance of its item, so a counted item ends at its counted quantity
    when its balance at commit time is still the snapshotted system
    quantity. *)
Theorem commit_books_variances opnameId by_ s r s' :
  commitOpname opnameId by_ s = Ok (r, s') →
  ∃ o, o ∈ stock_opname s ∧ op_id o = opnameId ∧ op_status o = ACTIVE ∧
    (∀ i, i ∈ commit_items opnameId s ↔
          i ∈ stock_opname_items s ∧ oi_opname_id i = opnameId ∧
          ∃ c, counted_qty i = Some c ∧ c - system_qty i ≠ 0) ∧
    commit_items opnameId s ≡ₚ
      filter (λ i, has_variance opnameId i = true) (stock_opname_items s) ∧
    Forall2 (is_adjustment_of opnameId o) (commit_items opnameId s)
      (adjustments r) ∧
    stock_movements s' = stock_movements s ++ (adj_movement <$> adjustments r) ∧
    (∀ i c,
       filter (λ j, item_matches opnameId (oi_variant_id i) (oi_location_id i) j
                    = true) (stock_opname_items s) = [i] →
       counted_qty i = Some c →
       balance_qty s' (oi_variant_id i) (oi_location_id i) =
         balance_qty s (oi_variant_id i) (oi_location_id i) + (c - system_qty i) ∧
       (balance_qty s (oi_variant_id i) (oi_location_id i) = system_qty i →
        balance_qty s' (oi_variant_id i) (oi_location_id i) = c)).
Proof.
  intros (o & s1 & Hin & Hid & Hact & Hbook & -> & _)%commitOpname_Ok.
  apply book_adjustments_effect in Hbook as (Hall & Hms & Hb & _).
  exists o. split_and!; try done.
  - apply elem_of_commit_items.
  - apply commit_items_perm.
  - intros i c Hone Hc.
    change (balance_qty (complete_opname opnameId s1)) with (balance_qty s1).
    rewrite Hb, (variance_at_session _ _ _ _ i Hone), (variance_counted i c Hc).
    split; [done|lia].
Qed.

(** ** Commit is refused unless the session is ACTIVE *)

Lemma find_None_Forall {A} (f : A → bool) (l : list A) :
  Forall (λ x, f x = false) l → find f l = None.
Proof. induction 1 as [|x l Hx _ IH]; cbn; [done|]. by rewrite Hx. Qed.

(** C6. Commit on a session that is not ACTIVE fails with an invalid-state
    error and leaves the store (ledger, balances, session) unchanged; in
    particular a second commit after a successful one is refused, the
    session being COMPLETED. *)
Theorem commit_requires_active opnameId by_ s :
  (Forall (λ o, op_id o = opnameId → op_status o ≠ ACTIVE) (stock_opname s) →
     commitOpname opnameId by_ s = Err OpnameNotFoundOrNotActive ∧
     classify OpnameNotFoundOrNotActive = Some InvalidState ∧
     after (commitOpname opnameId by_ s) s = s) ∧
  (∀ r s', commitOpname opnameId by_ s = Ok (r, s') →
     Forall (λ o, op_id o = opnameId → op_status o = COMPLETED)
       (stock_opname s') ∧
     ∀ by', commitOpname opnameId by' s' = Err OpnameNotFoundOrNotActive ∧
            after (commitOpname opnameId by' s') s' = s').
Proof.
  assert (∀ by' s0,
    Forall (λ o, op_id o = opnameId → op_status o ≠ ACTIVE) (stock_opname s0) →
    commitOpname opnameId by' s0 = Err OpnameNotFoundOrNotActive) as Hrefuse.
  { intros by' s0 Hall. unfold commitOpname.
    rewrite find_None_Forall; [done|].
    eapply Forall_impl; [exact Hall|]. intros o Ho. cbn in Ho.
    destruct (bool_decide (op_id o = opnameId)) eqn:Hid; [|done].
    apply bool_decide_eq_true in Hid. cbn.
    by apply bool_decide_eq_false, Ho. }
  split.
  - intros Hall. by rewrite (Hrefuse _ _ Hall).
  - intros r s' (o & s1 & _ & _ & _ & Hbook & -> & _)%commitOpname_Ok.
    apply book_adjustments_effect in Hbook as (_ & _ & _ & Ho & _).
    assert (Forall (λ o, op_id o = opnameId → op_status o = COMPLETED)
              (stock_opname (complete_opname opnameId s1))) as Hdone.
    { unfold complete_opname. cbn. apply Forall_fmap, Forall_forall.
      intros x _. cbn. case_bool_decide; [done|].
      intros; done. }
    split; [done|]. intros by'.
    rewrite Hrefuse; [done|].
    eapply Forall_impl; [exact Hdone|]. intros x Hx Hid. cbn in Hx.
    by rewrite Hx.
Qed.

(** ** Order of the adjustments *)

Lemma book_adjustments_app opnameId o by_ xs ys s adjs s' :
  book_adjustments opnameId o by_ (xs ++ ys) s = Ok (adjs, s') →
  ∃ adjs1 s1 adjs2,
    book_adjustments opnameId o by_ xs s = Ok (adjs1, s1) ∧
    book_adjustments opnameId o by_ ys s1 = Ok (adjs2, s') ∧
    adjs = adjs1 ++ adjs2.
Proof.
  revert s adjs.
  induction xs as [|x xs IH]; cbn [book_adjustments app]; intros s adjs.
  - intros Hys. by exists [], s, adjs.
  - intros ([m s1] & Hm & H)%bind_Ok.
    apply bind_Ok in H as ([adjs' s2] & Hrec & [= <- <-]).
    apply IH in Hrec as (adjs1 & s3 & adjs2 & Hxs & Hys & ->).
    eexists (_ :: adjs1), s3, adjs2. split_and!; [|done|reflexivity].
    rewrite Hm. cbn. by rewrite Hxs.
Qed.

Lemma book_adjustments_checked opnameId o by_ i items s adjs s' :
  book_adjustments opnameId o by_ (i :: items) s = Ok (adjs, s') →
  check_stock (adjustment_payload opnameId o by_ i) s = Ok ().
Proof.
  cbn [book_adjustments].
  intros ([m s1] & Hm & _)%bind_Ok.
  by apply createMovement_Ok in Hm as (_ & Hs & _).
Qed.

(** A list in descending variance order without zero variances: the
    positive variances first, then the negative ones. *)
Lemma descending_split (items : list OpnameItem) :
  StronglySorted by_variance_desc items →
  Forall (λ i, variance i ≠ 0) items →
  ∃ ins outs, items = ins ++ outs ∧
    Forall (λ i, 0 < variance i) ins ∧ Forall (λ i, variance i < 0) outs.
Proof.
  induction 1 as [|x l Hl IH Hx]; intros Hnz.
  - by exists [], [].
  - apply Forall_cons in Hnz as [Hxnz Hnz].
    destruct (decide (0 < variance x)) as [Hpos|Hneg].
    + destruct (IH Hnz) as (ins & outs & -> & Hins & Houts).
      exists (x :: ins), outs. split_and!; [done| |done]. by constructor.
    + exists [], (x :: l). split_and!; [done|constructor|].
      constructor; [lia|].
      eapply Forall_impl; [exact Hx|]. unfold by_variance_desc. cbn. lia.
Qed.

Lemma commit_items_nonzero opnameId s :
  Forall (λ i, variance i ≠ 0) (commit_items opnameId s).
Proof.
  apply Forall_forall. intros i (_ & _ & c & Hc & Hne)%elem_of_commit_items.
  by rewrite (variance_counted i c Hc).
Qed.

Lemma adjustments_reason opnameId o (items : list OpnameItem)
    (adjs : list (Adjustment num)) (reason : string) :
  Forall2 (is_adjustment_of opnameId o) items adjs →
  Forall (λ i, (if decide (0 < variance i) then "ADJUSTMENT_IN"
                else "ADJUSTMENT_OUT") = reason) items →
  Forall (λ a, m_reason_code (adj_movement a) = reason) adjs.
Proof.
  induction 1 as [|i a items adjs Ha _ IH]; intros Hr; [constructor|].
  apply Forall_cons in Hr as [Hi Hr]. constructor; [|by apply IH].
  destruct Ha as (_ & _ & Hd & _). case_decide; by injection Hd as _ ->.
Qed.

(** C10. The adjustments of one commit are booked in descending variance
    order: the items split into the positive variances followed by the
    negative ones, every ADJUSTMENT_IN movement is created before any
    ADJUSTMENT_OUT movement, and the stock check of each OUT adjustment runs
    on balances that already hold all the IN adjustments of the commit (and
    the OUT adjustments before it). *)
Theorem adjustments_in_before_out opnameId by_ s r s' :
  commitOpname opnameId by_ s = Ok (r, s') →
  StronglySorted by_variance_desc (commit_items opnameId s) ∧
  ∃ o ins outs adjs_in adjs_out,
    commit_items opnameId s = ins ++ outs ∧
    Forall (λ i, 0 < variance i) ins ∧ Forall (λ i, variance i < 0) outs ∧
    adjustments r = adjs_in ++ adjs_out ∧
    Forall2 (is_adjustment_of opnameId o) ins adjs_in ∧
    Forall2 (is_adjustment_of opnameId o) outs adjs_out ∧
    Forall (λ a, m_reason_code (adj_movement a) = "ADJUSTMENT_IN") adjs_in ∧
    Forall (λ a, m_reason_code (adj_movement a) = "ADJUSTMENT_OUT") adjs_out ∧
    stock_movements s' =
      stock_movements s ++ (adj_movement <$> adjs_in)
                        ++ (adj_movement <$> adjs_out) ∧
    ∀ before i later, outs = before ++ i :: later →
      ∃ adjs_i s_i,
        book_adjustments opnameId o by_ (ins ++ before) s = Ok (adjs_i, s_i) ∧
        check_stock (adjustment_payload opnameId o by_ i) s_i = Ok () ∧
        ∀ v l, balance_qty s_i v l =
               balance_qty s v l + variance_at v l ins + variance_at v l before.
Proof.
  intros (o & s1 & _ & _ & _ & Hbook & -> & _)%commitOpname_Ok.
  split; [apply commit_items_sorted|].
  destruct (descending_split (commit_items opnameId s))
    as (ins & outs & Hsplit & Hins & Houts);
    [apply commit_items_sorted | apply commit_items_nonzero |].
  rewrite Hsplit in Hbook.
  pose proof Hbook as (adjs_in & s_in & adjs_out & Hbin & Hbout & Hadjs)
    %book_adjustments_app.
  pose proof Hbin as (Hfin & Hmin & _)%book_adjustments_effect.
  pose proof Hbout as (Hfout & Hmout & _)%book_adjustments_effect.
  exists o, ins, outs, adjs_in, adjs_out.
  split_and!; try done.
  - eapply adjustments_reason; [exact Hfin|].
    eapply Forall_impl; [exact Hins|]. intros i Hi. cbn in *.
    by rewrite decide_True.
  - eapply adjustments_reason; [exact Hfout|].
    eapply Forall_impl; [exact Houts|]. intros i Hi. cbn in *.
    rewrite decide_False; [done|lia].
  - change (stock_movements (complete_opname opnameId s1))
      with (stock_movements s1).
    by rewrite Hmout, Hmin, <- app_assoc.
  - intros before i later ->.
    rewrite app_assoc in Hbook.
    apply book_adjustments_app in Hbook
      as (adjs_i & s_i & adjs_rest & Hpre & Hrest & _).
    exists adjs_i, s_i. split_and!; [done| |].
    + by eapply book_adjustments_checked.
    + intros v l.
      apply book_adjustments_effect in Hpre as (_ & _ & Hb & _).
      rewrite Hb, variance_at_app. lia.
Qed.

(** ** Stock card *)

Lemma sum_signed_perm (xs ys : list (Movement num)) :
  xs ≡ₚ ys → sum_signed xs = sum_signed ys.
Proof.
  unfold sum_signed.
  induction 1 as [|x xs ys _ IH|x y xs|xs ys zs _ IH1 _ IH2]; cbn [foldr].
  - done.
  - by rewrite IH.
  - lia.
  - congruence.
Qed.

Lemma sum_signed_cons m (ms : list (Movement num)) :
  sum_signed (m :: ms) = signed_qty m + sum_signed ms.
Proof. reflexivity. Qed.

Lemma sum_signed_split (P Q : Movement num → Prop)
    `{∀ m, Decision (P m)} `{∀ m, Decision (Q m)} (ms : list (Movement num)) :
  sum_signed (filter P ms) =
  sum_signed (filter (λ m, P m ∧ Q m) ms)
  + sum_signed (filter (λ m, P m ∧ ¬ Q m) ms).
Proof.
  induction ms as [|m ms IH]; [done|].
  destruct (decide (P m)) as [HP|HP]; destruct (decide (Q m)) as [HQ|HQ].
  - rewrite !filter_cons_True, (filter_cons_False (λ m, P m ∧ ¬ Q m)) by tauto.
    rewrite !sum_signed_cons. lia.
  - rewrite (filter_cons_True P), (filter_cons_False (λ m, P m ∧ Q m)),
      (filter_cons_True (λ m, P m ∧ ¬ Q m)) by tauto.
    rewrite !sum_signed_cons. lia.
  - by rewrite !filter_cons_False by tauto.
  - by rewrite !filter_cons_False by tauto.
Qed.

Lemma running_balances_movements b (ms : list (Movement num)) :
  line_movement <$> running_balances b ms = ms.
Proof.
  revert b. induction ms as [|m ms IH]; intros b; cbn; [done|].
  by rewrite IH.
Qed.

Lemma running_balances_last_cons b m (ms : list (Movement num)) :
  ∃ line, last (running_balances b (m :: ms)) = Some line ∧
          running_balance line = b + sum_signed (m :: ms).
Proof.
  revert b m. induction ms as [|m' ms IH]; intros b m.
  - eexists. split; [reflexivity|]. cbn. lia.
  - destruct (IH (b + signed_qty m) m') as (line & Hlast & Hline).
    exists line. split; [exact Hlast|].
    rewrite Hline, (sum_signed_cons m). lia.
Qed.

Lemma running_balances_last b (ms : list (Movement num)) :
  match last (running_balances b ms) with
  | Some line => running_balance line
  | None => b
  end = b + sum_signed ms.
Proof.
  destruct ms as [|m ms]; [cbn; lia|].
  by destruct (running_balances_last_cons b m ms) as (line & -> & ->).
Qed.

Lemma apply_limit_covers {A} lim (l : list A) :
  limit_covers lim (length l) → apply_limit lim l = l.
Proof.
  unfold limit_covers, apply_limit.
  destruct lim as [[|k]|]; intros Hn; [done| |]; by apply take_ge.
Qed.

Lemma getStockCard_Ok (prm : StockCardParams) s c :
  getStockCard prm s = Ok c →
  let v := sc_variant_id c in
  let l := sc_locationId prm in
  opening_qty c = openingQty s v l (fromDate prm) ∧
  current_qty c = balance_qty s v l ∧
  sc_movements c =
    running_balances (opening_qty c)
      (card_movements s v l (fromDate prm) (toDate prm) (limit prm)).
Proof.
  unfold getStockCard. destruct (find _ _) as [row|]; [|discriminate].
  by intros [= <-].
Qed.


Lemma after_Ok {A} (r : result (A * state num)) s :
  is_ok r = true → ∃ a, r = Ok (a, after r s).
Proof. destruct r as [[a s']|e]; [by exists a | discriminate]. Qed.

End Properties.

(** * The properties on the small shop *)

Lemma demo_state_initial flag : initial (demo_state flag).
Proof.
  split; [reflexivity|]. intros k b. cbn. by rewrite lookup_empty.
Qed.

Lemma stocked_consistent flag : consistent (stocked flag).
Proof.
  unfold stocked.
  set (s0 := demo_state flag).
  destruct (after_Ok (createMovement (stock_in 1 1 10 (Some 2%Q)) s0) s0)
    as (m1 & H1); [by destruct flag|].
  set (s1 := after _ s0) in *.
  destruct (after_Ok (createMovement (stock_in 2 1 5 (Some 4%Q)) s1) s1)
    as (m2 & H2); [by destruct flag|].
  eapply createMovement_consistent; [exact H2|].
  eapply createMovement_consistent; [exact H1|].
  apply initial_consistent, demo_state_initial.
Qed.

Lemma stocked_reachable flag : reachable (stocked flag).
Proof.
  exists (demo_state flag). split; [apply demo_state_initial|].
  unfold stocked.
  set (s0 := demo_state flag).
  destruct (after_Ok (createMovement (stock_in 1 1 10 (Some 2%Q)) s0) s0)
    as (m1 & H1); [by destruct flag|].
  set (s1 := after _ s0) in *.
  destruct (after_Ok (createMovement (stock_in 2 1 5 (Some 4%Q)) s1) s1)
    as (m2 & H2); [by destruct flag|].
  eapply rtc_l; [by eapply step_createMovement|].
  eapply rtc_l; [by eapply step_createMovement|].
  apply rtc_refl.
Qed.


Example stocked_balances :
  balance_qty (stocked None) 1 1 = 10 ∧ ledger_qty (stocked None) 1 1 = 10 ∧
  balance_qty (stocked None) 2 1 = 5 ∧ balance_qty (stocked None) 3 1 = 0.
Proof. by vm_compute. Qed.


Example moving_average_value :
  (balance_avg_cost (stocked None) 1 1 == 2)%Q ∧
  (balance_avg_cost
     (after (createMovement (stock_in 1 1 5 (Some 5%Q)) (stocked None))
        (stocked None)) 1 1 == 3)%Q.
Proof. by vm_compute. Qed.

Lemma well_formed_sale v l q : v ≠ 0 → l ≠ 0 → 0 < q → well_formed (sale v l q).
Proof.
  intros Hv Hl Hq. split_and!; try done. right. split; [done|].
  unfold out_reasons. apply list_elem_of_here.
Qed.



(** Four pieces of size M go from the display to the cabinet. *)
Lemma transfer_moves_stock_witness :
  transfer (demo_transfer 1 1) (stocked None) = Err SameLocations ∧
  ∃ mo mi s', transfer (demo_transfer 1 2) (stocked None) = Ok ((mo, mi), s') ∧
    balance_qty s' 1 1 = 10 - 4 ∧ balance_qty s' 1 2 = 0 + 4 ∧
    stock_movements s' = stock_movements (stocked None) ++ [mo; mi] ∧
    m_ref_code mo = m_ref_code mi.
Proof.
  split.
  - exact (proj1 (proj1 (transfer_moves_stock (demo_transfer 1 1) (stocked None))
                    eq_refl)).
  - destruct (after_Ok (transfer (demo_transfer 1 2) (stocked None))
                (stocked None)) as ([mo mi] & H); [by vm_compute|].
    exists mo, mi, (after (transfer (demo_transfer 1 2) (stocked None))
                      (stocked None)).
    split; [exact H|].
    destruct (proj2 (transfer_moves_stock (demo_transfer 1 2) (stocked None))
                _ _ _ H) as (_ & Ha & Hb & Hms & _ & _ & Href).
    split; [exact Ha|]. split; [exact Hb|]. split; [exact Hms|exact Href].
Defined.

Example transfer_notes :
  (λ r, match r with
        | Ok ((mo, mi), _) => (m_note mo, m_note mi, m_ref_code mo)
        | Err _ => (None, None, None)
        end) (transfer (demo_transfer 1 2) (stocked None)) =
  (Some "Transfer to location 2", Some "Transfer from location 1",
   Some "TRANSFER-1").
Proof. by vm_compute. Qed.

(** ** The count session of the specification

    Items (system=10, counted=7), (system=5, counted=5) and
    (system=0, counted=3).  The snapshot only takes balances with stock, so
    the third item is put in the table as a row of its own. *)

Example counting_items :
  (λ i, (oi_variant_id i, system_qty i, counted_qty i, variance_qty i))
    <$> stock_opname_items counting =
  [(1, 10, Some 7, Some (-3)); (2, 5, Some 5, Some 0); (3, 0, Some 3, Some 3)].
Proof. by vm_compute. Qed.

(** The commit books IN 3 for the third item, then OUT 3 for the first, and
    the balances end at the counted quantities 7, 5 and 3. *)
Example commit_counting :
  match commitOpname 1 (Some "ani") counting with
  | Ok (r, s') =>
      (λ a, let m := adj_movement a in
            (m_variant_id m, m_movement_type m, m_reason_code m, m_qty m,
             m_ref_table m, m_ref_id m, m_ref_code m))
        <$> adjustments r =
        [(3, "IN", "ADJUSTMENT_IN", 3, Some "stock_opname", Some 1, Some "OPN-1");
         (1, "OUT", "ADJUSTMENT_OUT", 3, Some "stock_opname", Some 1, Some "OPN-1")]
      ∧ (balance_qty s' 1 1, balance_qty s' 2 1, balance_qty s' 3 1) = (7, 5, 3)
      ∧ op_status <$> stock_opname s' = [COMPLETED]
  | Err _ => False
  end.
Proof. by vm_compute. Qed.

Lemma commit_books_variances_witness :
  ∃ r s', commitOpname 1 (Some "ani") counting = Ok (r, s') ∧
    ∃ o, o ∈ stock_opname counting ∧ op_id o = 1 ∧ op_status o = ACTIVE ∧
      Forall2 (is_adjustment_of 1 o) (commit_items 1 counting) (adjustments r) ∧
      stock_movements s' =
        stock_movements counting ++ (adj_movement <$> adjustments r).
Proof.
  destruct (after_Ok (commitOpname 1 (Some "ani") counting) counting)
    as (r & H); [by vm_compute|].
  exists r, (after (commitOpname 1 (Some "ani") counting) counting).
  split; [exact H|].
  destruct (commit_books_variances _ _ _ _ _ H)
    as (o & Hin & Hid & Hact & _ & _ & Hall & Hms & _).
  exists o. split; [exact Hin|]. split; [exact Hid|]. split; [exact Hact|].
  split; [exact Hall|exact Hms].
Defined.

(** The committed balance is 9, the counted quantity is 7. *)
Lemma commit_after_delivery :
  ∃ r s',
    commitOpname 1 (Some "ani") overtaken = Ok (r, s') ∧
    (λ i, (oi_opname_id i, oi_variant_id i, oi_location_id i, system_qty i,
           counted_qty i)) <$> stock_opname_items overtaken
      = [(1, 1, 1, 10, Some 7); (1, 2, 1, 5, None)] ∧
    balance_qty overtaken 1 1 = 12 ∧
    balance_qty s' 1 1 = 9 ∧
    balance_qty s' 1 1 ≠ 7.
Proof.
  destruct (after_Ok (commitOpname 1 (Some "ani") overtaken) overtaken)
    as (r & H); [by vm_compute|].
  exists r, (after (commitOpname 1 (Some "ani") overtaken) overtaken).
  split; [exact H|].
  split; [vm_compute; reflexivity|].
  split; [vm_compute; reflexivity|].
  split; [vm_compute; reflexivity|].
  vm_compute. discriminate.
Qed.

Lemma commit_requires_active_witness :
  commitOpname 7 None counting = Err OpnameNotFoundOrNotActive ∧
  ∃ r s', commitOpname 1 (Some "ani") counting = Ok (r, s') ∧
    commitOpname 1 (Some "ani") s' = Err OpnameNotFoundOrNotActive ∧
    after (commitOpname 1 (Some "ani") s') s' = s'.
Proof.
  split.
  - refine (proj1 (proj1 (commit_requires_active 7 None counting) _)).
    repeat constructor. by vm_compute.
  - destruct (after_Ok (commitOpname 1 (Some "ani") counting) counting)
      as (r & H); [by vm_compute|].
    exists r, (after (commitOpname 1 (Some "ani") counting) counting).
    split; [exact H|].
    exact (proj2 (proj2 (commit_requires_active 1 (Some "ani") counting) _ _ H)
             (Some "ani")).
Defined.

Lemma adjustments_in_before_out_witness :
  ∃ r s', commitOpname 1 (Some "ani") counting = Ok (r, s') ∧
    StronglySorted by_variance_desc (commit_items 1 counting) ∧
    ∃ adjs_in adjs_out,
      adjustments r = adjs_in ++ adjs_out ∧
      Forall (λ a, m_reason_code (adj_movement a) = "ADJUSTMENT_IN") adjs_in ∧
      Forall (λ a, m_reason_code (adj_movement a) = "ADJUSTMENT_OUT") adjs_out.
Proof.
  destruct (after_Ok (commitOpname 1 (Some "ani") counting) counting)
    as (r & H); [by vm_compute|].
  exists r, (after (commitOpname 1 (Some "ani") counting) counting).
  split; [exact H|].
  destruct (adjustments_in_before_out _ _ _ _ _ H)
    as (Hsorted & o & ins & outs & adjs_in & adjs_out & _ & _ & _ & Hadjs
        & _ & _ & Hin & Hout & _).
  split; [exact Hsorted|].
  exists adjs_in, adjs_out. split; [exact Hadjs|]. split; [exact Hin|exact Hout].
Defined.

(** ** The stock card of the shop *)



(** ** Resolving a name of the alias table twice *)

(** C8 does not hold for a product name of the alias table. The first call
    creates the variant under the product [T-shirt Katun PDK] and reports
    created=true; the second call looks for a product named [T-SHIRT KATUN],
    finds none, takes the creation path again and fails on the unique key of
    [product_color_sizes], where the claim has it return the same id with
    created=false. *)
Theorem resolve_aliased_name_twice :
  ∃ s1,
    resolveVariantId "T-SHIRT KATUN" "Black" "M" (demo_state None) =
      Ok ({| r_id := 4; r_created := true |}, s1) ∧
    prod_name <$> products (catalog s1) = ["Henley"; "T-shirt Katun PDK"] ∧
    resolveVariantId "T-SHIRT KATUN" "Black" "M" s1 =
      Err (DuplicateEntry "unique_product_color_size").
Proof.
  eexists. split; [vm_compute; reflexivity|].
  split; vm_compute; reflexivity.
Qed.

(** A name outside the alias table is found again. *)
Example resolve_plain_name_twice :
  ∃ s1,
    resolveVariantId "Polo" "Black" "M" (demo_state None) =
      Ok ({| r_id := 4; r_created := true |}, s1) ∧
    ∃ s2, resolveVariantId "Polo" "Black" "M" s1 =
      Ok ({| r_id := 4; r_created := false |}, s2).
Proof.
  eexists. split; [vm_compute; reflexivity|].
  eexists. vm_compute. reflexivity.
Qed.

(** The same in a CSV import: the fourth row names the variant that the
    second row created, and fails. *)
Example import_aliased_name_twice :
  (λ '(r, s), (imported r, created r, errors r, balance_qty s 1 1,
               balance_qty s 4 2))
    (importCsv "add" csv_rows (stocked None)) =
  (2%nat, 1%nat,
   [(4%nat, RowUnknownLocation);
    (5%nat, RowThrew (DuplicateEntry "unique_product_color_size"))],
   15, 2).
Proof. vm_compute. reflexivity. Qed.

(** * Further properties of the services *)

Section Further.
Context {num : Type} `{!CostArith num}.
Implicit Types (s : state num) (p : MovementPayload num) (m : Movement num).

(** ** Service calls as movements and quiet changes *)

Lemma quiet_refl s : quiet s s.
Proof. by repeat split. Qed.

Lemma quiet_trans s1 s2 s3 : quiet s1 s2 → quiet s2 s3 → quiet s1 s3.
Proof.
  intros (Hm & Hn & Hb & Hv & Hl & Hf) (Hm' & Hn' & Hb' & Hv' & Hl' & Hf').
  split_and!;
    [congruence | congruence | intros v l; by rewrite Hb', Hb
    | auto | auto | congruence].
Qed.

Lemma createMovement_next_id p s m s' :
  createMovement p s = Ok (m, s') →
  m_id m = next_movement_id s ∧ next_movement_id s' = next_movement_id s + 1.
Proof. by intros (_ & _ & _ & -> & ->)%createMovement_Ok. Qed.

Lemma get_or_create_product_color_fixes productId colorId c id c' :
  get_or_create_product_color productId colorId c = (id, c') →
  locations c' = locations c ∧
  product_color_sizes c' = product_color_sizes c ∧
  next_product_color_size_id c' = next_product_color_size_id c.
Proof.
  unfold get_or_create_product_color.
  destruct (find _ _); by intros [= <- <-].
Qed.

Lemma get_or_create_product_fixes name c id c' :
  get_or_create_product name c = (id, c') →
  locations c' = locations c ∧
  product_color_sizes c' = product_color_sizes c ∧
  next_product_color_size_id c' = next_product_color_size_id c.
Proof.
  unfold get_or_create_product. destruct (find _ _); by intros [= <- <-].
Qed.

Lemma get_or_create_color_fixes name c id c' :
  get_or_create_color name c = (id, c') →
  locations c' = locations c ∧
  product_color_sizes c' = product_color_sizes c ∧
  next_product_color_size_id c' = next_product_color_size_id c.
Proof.
  unfold get_or_create_color. destruct (find _ _); by intros [= <- <-].
Qed.

Lemma get_or_create_size_fixes name c id c' :
  get_or_create_size name c = Ok (id, c') →
  locations c' = locations c ∧
  product_color_sizes c' = product_color_sizes c ∧
  next_product_color_size_id c' = next_product_color_size_id c.
Proof.
  unfold get_or_create_size. destruct (find _ _); [by intros [= <- <-]|].
  destruct (js_get _ _); try discriminate; by intros [= <- <-].
Qed.

(** What a successful insertion of a variant leaves behind. *)
Lemma insert_variant_Ok productId colorId sizeId s v s' :
  insert_variant productId colorId sizeId s = Ok (v, s') →
  v = next_product_color_size_id (catalog s) ∧
  locations (catalog s') = locations (catalog s) ∧
  (∃ pcid, product_color_sizes (catalog s') =
     product_color_sizes (catalog s) ++
       [{| pcs_id := v; pcs_product_color_id := pcid; pcs_size_id := sizeId |}]) ∧
  init_balances v (locations (catalog s)) (stock_balances s)
    = Ok (stock_balances s') ∧
  stock_movements s' = stock_movements s ∧
  next_movement_id s' = next_movement_id s ∧
  stock_opname s' = stock_opname s ∧
  stock_opname_items s' = stock_opname_items s ∧
  ALLOW_NEGATIVE s' = ALLOW_NEGATIVE s.
Proof.
  unfold insert_variant.
  destruct (get_or_create_product_color _ _ _) as [pcid c1] eqn:Hpc.
  apply get_or_create_product_color_fixes in Hpc as (Hl & Hp & Hn).
  destruct (existsb _ _); [discriminate|].
  intros (b & Hb & [= <- <-])%bind_Ok. cbn.
  rewrite Hl, Hp, Hn. cbn in Hb. rewrite Hl, Hn in Hb.
  split_and!; try done. by exists pcid.
Qed.

Lemma variant_exists_app s s' (new : list ProductColorSize) v :
  product_color_sizes (catalog s') = product_color_sizes (catalog s) ++ new →
  variant_exists s v = true → variant_exists s' v = true.
Proof.
  unfold variant_exists. rewrite !bool_decide_eq_true. intros ->.
  rewrite fmap_app, elem_of_app. auto.
Qed.

Lemma location_exists_eq s s' l :
  locations (catalog s') = locations (catalog s) →
  location_exists s' l = location_exists s l.
Proof. unfold location_exists. by intros ->. Qed.

Lemma insert_variant_quiet productId colorId sizeId s v s' :
  insert_variant productId colorId sizeId s = Ok (v, s') → quiet s s'.
Proof.
  intros H. pose proof (insert_variant_same_stock _ _ _ _ _ _ H) as [_ Hb].
  apply insert_variant_Ok in H
    as (_ & Hl & (pcid & Hp) & _ & Hm & Hn & _ & _ & Hf).
  split_and!; try done.
  - intros v'. eapply variant_exists_app. exact Hp.
  - intros l. by rewrite (location_exists_eq s s').
Qed.

Lemma set_catalog_quiet c s :
  locations c = locations (catalog s) →
  product_color_sizes c = product_color_sizes (catalog s) →
  quiet s (set_catalog c s).
Proof.
  intros Hl Hp. split_and!; try done.
  - intros v. unfold variant_exists. cbn. by rewrite Hp.
  - intros l. unfold location_exists. cbn. by rewrite Hl.
Qed.

Lemma createVariantFromNames_quiet pn cn sn s r s' :
  createVariantFromNames pn cn sn s = Ok (r, s') → quiet s s'.
Proof.
  unfold createVariantFromNames.
  intros (mapped & _ & H)%bind_Ok.
  destruct (get_or_create_product _ _) as [productId c1] eqn:H1.
  destruct (get_or_create_color _ _) as [colorId c2] eqn:H2.
  apply bind_Ok in H as ([sizeId c3] & H3 & H).
  apply bind_Ok in H as ([variantId s1] & Hi & [= _ <-]).
  apply get_or_create_product_fixes in H1 as (Hl1 & Hp1 & _).
  apply get_or_create_color_fixes in H2 as (Hl2 & Hp2 & _).
  apply get_or_create_size_fixes in H3 as (Hl3 & Hp3 & _).
  eapply quiet_trans; [|by eapply insert_variant_quiet].
  apply set_catalog_quiet; congruence.
Qed.

Lemma resolveVariantId_quiet pn cn sn s r s' :
  resolveVariantId pn cn sn s = Ok (r, s') → quiet s s'.
Proof.
  unfold resolveVariantId. destruct (find _ _).
  - intros [= _ <-]. apply quiet_refl.
  - apply createVariantFromNames_quiet.
Qed.

Lemma resolveVariantIdByIds_quiet pid cid sid s v s' :
  resolveVariantIdByIds pid cid sid s = Ok (v, s') → quiet s s'.
Proof.
  unfold resolveVariantIdByIds, createVariant. destruct (find _ _).
  - intros [= _ <-]. apply quiet_refl.
  - apply insert_variant_quiet.
Qed.

Lemma insert_opname_items_quiet opnameId rows s s' :
  insert_opname_items opnameId rows s = Ok s' → quiet s s'.
Proof.
  revert s. induction rows as [|[[v l] b] rows IH]; cbn; intros s.
  - intros [= <-]. apply quiet_refl.
  - destruct (existsb _ _); [discriminate|].
    intros Hi%IH. eapply quiet_trans; [|exact Hi]. by repeat split.
Qed.

Lemma startOpname_quiet code l by_ s o s' :
  startOpname code l by_ s = Ok (o, s') → quiet s s'.
Proof.
  unfold startOpname. destruct (existsb _ _); [discriminate|].
  intros (s2 & Hi%insert_opname_items_quiet & [= _ <-])%bind_Ok.
  eapply quiet_trans; [|exact Hi]. by repeat split.
Qed.

Lemma updateOpnameCount_quiet o v l c by_ n s i s' :
  updateOpnameCount o v l c by_ n s = Ok (i, s') → quiet s s'.
Proof.
  unfold updateOpnameCount. destruct (find _ _); [|discriminate].
  intros [= _ <-]. by repeat split.
Qed.

Lemma book_adjustments_micro opnameId o by_ items s adjs s' :
  book_adjustments opnameId o by_ items s = Ok (adjs, s') → rtc micro s s'.
Proof.
  revert s adjs.
  induction items as [|i items IH]; cbn [book_adjustments]; intros s adjs.
  - intros [= _ <-]. apply rtc_refl.
  - intros ([m s1] & Hm & H)%bind_Ok.
    apply bind_Ok in H as ([adjs' s2] & Hrec & [= _ <-]).
    eapply rtc_l; [by eapply micro_movement|]. by eapply IH.
Qed.

Lemma import_movement_micro mode row q v l s s' :
  import_movement mode row q v l s = Ok s' → rtc micro s s'.
Proof.
  unfold import_movement.
  repeat case_decide; repeat case_bool_decide;
    try (intros [= <-]; apply rtc_refl);
    intros ([m s1] & Hm & [= <-])%bind_Ok;
    by eapply rtc_once, micro_movement.
Qed.

Lemma importCsvRow_micro mode row s : rtc micro s (importCsvRow mode row s).2.
Proof.
  unfold importCsvRow.
  destruct (_ || _); [apply rtc_refl|].
  destruct (row_quantity row) as [| |q]; [apply rtc_refl|apply rtc_refl|].
  case_bool_decide; [apply rtc_refl|].
  destruct (resolveVariantId _ _ _ s) as [[vr s1]|e] eqn:Hr; [|apply rtc_refl].
  apply resolveVariantId_quiet, micro_quiet in Hr.
  destruct (find_location _ s1) as [loc|]; [|by apply rtc_once].
  destruct (import_movement _ _ _ _ _ s1) as [s2|e] eqn:Hi; [|by apply rtc_once].
  cbn. eapply rtc_l; [exact Hr|]. by eapply import_movement_micro.
Qed.

Lemma import_rows_micro mode i rows acc s :
  rtc micro s (import_rows mode i rows acc s).2.
Proof.
  revert i acc s. induction rows as [|row rows IH]; cbn; intros i acc s.
  - apply rtc_refl.
  - pose proof (importCsvRow_micro mode row s) as Hrow.
    destruct (importCsvRow mode row s) as [r s1].
    etrans; [exact Hrow|]. apply IH.
Qed.

(** Every step is a change of the environment or a sequence of movements and
    quiet changes. *)
Lemma step_micro s s' :
  step s s' →
  (∃ now flag, s' = set_environment now flag s) ∨ rtc micro s s'.
Proof.
  destruct 1 as [p s m s' H|t s r s' H|opnameId by_ s r s' H|mode rows s
                |pn cn sn s r s' H|pid cid sid s r s' H|code l by_ s r s' H
                |o v l c by_ n s r s' H|now flag s].
  - right. by eapply rtc_once, micro_movement.
  - right. unfold transfer in H. case_bool_decide; [discriminate|].
    apply bind_Ok in H as ([mo s1] & Hout & H).
    apply bind_Ok in H as ([mi s2] & Hin & [= _ <-]).
    eapply rtc_l; [by eapply micro_movement|].
    by eapply rtc_once, micro_movement.
  - right. apply commitOpname_Ok in H as (o & s1 & _ & _ & _ & Hb & -> & _).
    eapply rtc_r; [by eapply book_adjustments_micro|].
    apply micro_quiet. by repeat split.
  - right. apply import_rows_micro.
  - right. by eapply rtc_once, micro_quiet, resolveVariantId_quiet.
  - right. by eapply rtc_once, micro_quiet, resolveVariantIdByIds_quiet.
  - right. by eapply rtc_once, micro_quiet, startOpname_quiet.
  - right. by eapply rtc_once, micro_quiet, updateOpnameCount_quiet.
  - left. eauto.
Qed.

Lemma rtc_micro_invariant (P : state num → Prop) s s' :
  (∀ s1 s2, micro s1 s2 → P s1 → P s2) → rtc micro s s' → P s → P s'.
Proof. intros Hstep. induction 1; eauto. Qed.

Lemma set_environment_quiet_but_flag now flag s :
  stock_movements (set_environment now flag s) = stock_movements s ∧
  next_movement_id (set_environment now flag s) = next_movement_id s ∧
  stock_balances (set_environment now flag s) = stock_balances s ∧
  catalog (set_environment now flag s) = catalog s.
Proof. done. Qed.

(** ** The ledger is append-only *)

Lemma micro_prefix s s' :
  micro s s' → stock_movements s `prefix_of` stock_movements s'.
Proof.
  destruct 1 as [p s m s' H|s s' H].
  - apply createMovement_effect in H as (-> & _). by apply prefix_app_r.
  - destruct H as (-> & _). done.
Qed.

(** X1. No step of a history (a call of the services, a CSV import, a
    change of the environment) updates or deletes a ledger row: the ledger
    of the earlier store is a prefix of the ledger of the later one. The
    route that deletes a variant together with its ledger rows is no step of
    a history. *)
Theorem ledger_append_only s s' :
  rtc step s s' → stock_movements s `prefix_of` stock_movements s'.
Proof.
  induction 1 as [|s1 s2 s3 Hstep _ IH]; [done|].
  etrans; [|exact IH].
  destruct (step_micro _ _ Hstep) as [(now & flag & ->)|Hmicro]; [done|].
  clear -Hmicro. induction Hmicro as [|x y z Hxy _ IHm]; [done|].
  etrans; [by apply micro_prefix|exact IHm].
Qed.

(** ** What is in the ledger *)

Lemma movement_of_payload_valid p s :
  well_formed p → valid_movement (movement_of_payload p s).
Proof. intros (? & ? & ? & ?). by split_and!. Qed.

Lemma micro_valid s s' :
  micro s s' →
  Forall valid_movement (stock_movements s) →
  Forall valid_movement (stock_movements s').
Proof.
  destruct 1 as [p s m s' H|s s' H].
  - pose proof H as (Hwf & _ & _ & -> & _)%createMovement_Ok.
    apply createMovement_effect in H as (-> & _).
    intros Hall. apply Forall_app. split; [done|].
    constructor; [|constructor]. by apply movement_of_payload_valid.
  - destruct H as (-> & _). done.
Qed.

(** X2. Every row of the ledger of a reachable store has a positive
    quantity, a variant and a location, and a reason code of the set of its
    direction: IN with OVERPROD_IN, RETURN_IN, ADJUSTMENT_IN or TRANSFER_IN,
    OUT with SALES_OUT, GIFT_OUT, ADJUSTMENT_OUT or TRANSFER_OUT. *)
Theorem ledger_rows_valid s :
  reachable s → Forall valid_movement (stock_movements s).
Proof.
  intros (s0 & [Hm _] & Hsteps).
  assert (Forall valid_movement (stock_movements s0)) as Hinit
    by (rewrite Hm; constructor).
  clear Hm. induction Hsteps as [|s1 s2 s3 Hstep _ IH]; [done|].
  apply IH.
  destruct (step_micro _ _ Hstep) as [(now & flag & ->)|Hmicro]; [done|].
  apply (rtc_micro_invariant
           (λ x, Forall valid_movement (stock_movements x)) s1 s2);
    [intros x y; apply micro_valid | done | done].
Qed.

Lemma micro_ids s s' : micro s s' → ids_increasing s → ids_increasing s'.
Proof.
  destruct 1 as [p s m s' H|s s' H]; intros [Hsorted Hbelow].
  - pose proof (createMovement_next_id _ _ _ _ H) as [Hid Hnext].
    apply createMovement_effect in H as (Hms & _).
    unfold ids_increasing. rewrite Hms, Hnext, fmap_app. split.
    + apply StronglySorted_app_2; [|done|cbn; repeat constructor].
      intros x y Hx Hy. apply list_elem_of_fmap in Hx as (mx & -> & Hx).
      cbn in Hy. apply list_elem_of_singleton in Hy as ->.
      rewrite Forall_forall in Hbelow. specialize (Hbelow _ Hx).
      cbn. lia.
    + apply Forall_app. split.
      * eapply Forall_impl; [exact Hbelow|]. cbn. lia.
      * constructor; [lia|constructor].
  - destruct H as (Hms & Hn & _). unfold ids_increasing. by rewrite Hms, Hn.
Qed.

(** X3. In a reachable store the ids of the ledger rows increase strictly
    with the insertion order and lie below the AUTO_INCREMENT counter: no id
    is used twice. *)
Theorem ledger_ids_increasing s :
  reachable s →
  StronglySorted Z.lt (m_id <$> stock_movements s) ∧
  NoDup (m_id <$> stock_movements s) ∧
  Forall (λ m, m_id m < next_movement_id s) (stock_movements s).
Proof.
  intros (s0 & [Hm _] & Hsteps).
  assert (ids_increasing s0) as Hinit.
  { unfold ids_increasing. rewrite Hm. split; constructor. }
  assert (ids_increasing s) as [Hsorted Hbelow].
  { clear Hm. induction Hsteps as [|s1 s2 s3 Hstep _ IH]; [done|].
    apply IH.
    destruct (step_micro _ _ Hstep) as [(now & flag & ->)|Hmicro]; [done|].
    apply (rtc_micro_invariant ids_increasing s1 s2);
      [intros x y; apply micro_ids | done | done]. }
  split_and!; [done| |done].
  clear -Hsorted. induction Hsorted as [|x l _ IH Hx]; constructor; [|done].
  intros Hin. rewrite Forall_forall in Hx. specialize (Hx _ Hin). lia.
Qed.

Lemma micro_refers s s' :
  micro s s' →
  Forall (refers_to_rows s) (stock_movements s) →
  Forall (refers_to_rows s') (stock_movements s').
Proof.
  destruct 1 as [p s m s' H|s s' H]; intros Hall.
  - pose proof H as (_ & _ & [Hv Hl]%check_foreign_keys_Ok & -> & _)
      %createMovement_Ok.
    apply createMovement_effect in H as (-> & _ & Hc & _).
    assert (∀ x, refers_to_rows s x → refers_to_rows s' x) as Hmono.
    { intros x. unfold refers_to_rows, variant_exists, location_exists.
      by rewrite Hc. }
    apply Forall_app. split.
    + eapply Forall_impl; [exact Hall|exact Hmono].
    + constructor; [|constructor]. apply Hmono. by split.
  - destruct H as (-> & _ & _ & Hv & Hl & _).
    eapply Forall_impl; [exact Hall|]. intros x [Hx1 Hx2]. split; auto.
Qed.

(** X4. In a reachable store every ledger row refers to a variant and to a
    location that exist: no step of a history removes a variant or a
    location, and [createMovement] books nothing for a missing one. *)
Theorem ledger_rows_refer s :
  reachable s → Forall (refers_to_rows s) (stock_movements s).
Proof.
  intros (s0 & [Hm _] & Hsteps).
  assert (Forall (refers_to_rows s0) (stock_movements s0)) as Hinit
    by (rewrite Hm; constructor).
  clear Hm. induction Hsteps as [|s1 s2 s3 Hstep _ IH]; [done|].
  apply IH.
  destruct (step_micro _ _ Hstep) as [(now & flag & ->)|Hmicro]; [done|].
  apply (rtc_micro_invariant
           (λ x, Forall (refers_to_rows x) (stock_movements x)) s1 s2);
    [intros x y; apply micro_refers | done | done].
Qed.

(** ** No negative stock while the flag is off *)

Lemma micro_guarded s s' : micro s s' → stock_guarded s → stock_guarded s'.
Proof.
  destruct 1 as [p s m s' H|s s' H]; intros [Hflag Hpos].
  - pose proof H as (Hwf & Hs & _ & -> & _)%createMovement_Ok.
    apply createMovement_effect in H as (_ & Hb & _ & _ & _ & _ & Hf).
    split; [unfold allowNegative; by rewrite Hf|].
    intros v l. rewrite Hb. unfold delta_at.
    destruct (at_pair v l _) eqn:Hat; [|specialize (Hpos v l); lia].
    apply at_pair_true in Hat. cbn in Hat. injection Hat as <- <-.
    unfold signed_qty. cbn. specialize (Hpos (variantId p) (locationId p)).
    destruct Hwf as (_ & _ & Hq & [[Ht _]|[Ht _]]); rewrite Ht.
    + rewrite decide_True by done. lia.
    + rewrite decide_False by done.
      pose proof (proj1 (check_stock_Ok p s) Hs Ht Hflag). lia.
  - destruct H as (_ & _ & Hb & _ & _ & Hf).
    split; [unfold allowNegative; by rewrite Hf|].
    intros v l. rewrite Hb. apply Hpos.
Qed.

(** X5. While negative stock is not allowed, no service call drives a
    balance below zero: a step from a store with the flag off and without
    negative balances leads to a store without negative balances. *)
Theorem no_negative_stock s s' :
  step s s' → allowNegative s = false →
  (∀ v l, 0 ≤ balance_qty s v l) → ∀ v l, 0 ≤ balance_qty s' v l.
Proof.
  intros Hstep Hflag Hpos.
  destruct (step_micro _ _ Hstep) as [(now & flag & ->)|Hmicro]; [exact Hpos|].
  apply (rtc_micro_invariant stock_guarded s s');
    [intros x y; apply micro_guarded | done | done].
Qed.

(** ** What one movement touches *)

(** X6. A successful [createMovement] writes the balance row of its own
    (variant, location) pair and no other: every other row of
    [stock_balances] is as before, and so are the catalog and the opname
    tables. *)
Theorem createMovement_frame p s m s' :
  createMovement p s = Ok (m, s') →
  (∀ k, k ≠ (variantId p, locationId p) →
        stock_balances s' !! k = stock_balances s !! k) ∧
  is_Some (stock_balances s' !! (variantId p, locationId p)) ∧
  catalog s' = catalog s ∧ stock_opname s' = stock_opname s ∧
  stock_opname_items s' = stock_opname_items s.
Proof.
  intros (_ & _ & _ & -> & ->)%createMovement_Ok.
  unfold updateStockBalance. cbn. split_and!; try done.
  - intros k Hk. by rewrite lookup_insert_ne.
  - rewrite lookup_insert_eq. eauto.
Qed.

(** X7. An IN movement without a unit cost, or with a unit cost that is not
    positive, adds its quantity to the balance and leaves every average cost
    as it was. *)
Theorem in_without_cost p s m s' :
  createMovement p s = Ok (m, s') → movementType p = "IN" →
  cost_supplied (unitCost p) = false →
  balance_qty s' (variantId p) (locationId p) =
    balance_qty s (variantId p) (locationId p) + qty p ∧
  ∀ v l, balance_avg_cost s' v l = balance_avg_cost s v l.
Proof.
  intros H Hin Hcost.
  pose proof H as (_ & _ & _ & Hm & Hs')%createMovement_Ok.
  apply createMovement_effect in H as (_ & Hb & _). split.
  - rewrite Hb, Hm, delta_at_own, Hin, decide_True by done. done.
  - intros v l. rewrite Hs', balance_avg_cost_updateStockBalance.
    destruct (decide (_ = (v, l))) as [[= <- <-]|_]; [|done].
    rewrite Hin, decide_True by done.
    unfold cost_supplied in Hcost.
    destruct (unitCost p) as [c|]; [|done]. by rewrite Hcost.
Qed.

Lemma in_keeps_cost p s m s' :
  createMovement p s = Ok (m, s') → movementType p = "IN" →
  cost_supplied (unitCost p) = false →
  ∀ v l, balance_avg_cost s' v l = balance_avg_cost s v l.
Proof.
  intros (_ & _ & _ & -> & ->)%createMovement_Ok Hin Hcost v l.
  rewrite balance_avg_cost_updateStockBalance, Hin.
  destruct (decide (_ = (v, l))) as [[= <- <-]|_]; [|done].
  rewrite decide_True by done. unfold cost_supplied in Hcost.
  destruct (unitCost p) as [c|]; [|done]. by rewrite Hcost.
Qed.

Lemma createMovement_other_rows p s m s' k :
  createMovement p s = Ok (m, s') → k ≠ (variantId p, locationId p) →
  stock_balances s' !! k = stock_balances s !! k.
Proof.
  intros (_ & _ & _ & -> & ->)%createMovement_Ok Hk.
  unfold updateStockBalance. cbn. by rewrite lookup_insert_ne.
Qed.

Lemma out_keeps_cost p s m s' :
  createMovement p s = Ok (m, s') → movementType p = "OUT" →
  ∀ v l, balance_avg_cost s' v l = balance_avg_cost s v l.
Proof.
  intros (_ & _ & _ & -> & ->)%createMovement_Ok Hout v l.
  rewrite balance_avg_cost_updateStockBalance, Hout.
  destruct (decide (_ = (v, l))) as [[= <- <-]|_]; [|done].
  by rewrite decide_False.
Qed.

Lemma transfer_Ok t s mo mi s' :
  transfer t s = Ok ((mo, mi), s') →
  fromLocationId t ≠ toLocationId t ∧
  ∃ s1, createMovement (transfer_out_payload t) s = Ok (mo, s1) ∧
        createMovement (transfer_in_payload t) s1 = Ok (mi, s').
Proof.
  unfold transfer. case_bool_decide as Hne; [discriminate|].
  intros ([mo' s1] & Hout & H)%bind_Ok.
  apply bind_Ok in H as ([mi' s2] & Hin & [= <- <- <-]).
  split; [done|]. by exists s1.
Qed.

(** X8. A successful transfer moves stock and nothing else: the sum of the
    balances of the variant at the two locations is as before, every other
    balance is as before, and no average cost changes (the destination does
    not take over the cost of the source). *)
Theorem transfer_conserves t s r s' :
  transfer t s = Ok (r, s') →
  balance_qty s' (t_variantId t) (fromLocationId t)
  + balance_qty s' (t_variantId t) (toLocationId t) =
    balance_qty s (t_variantId t) (fromLocationId t)
    + balance_qty s (t_variantId t) (toLocationId t) ∧
  (∀ v l, (v, l) ≠ (t_variantId t, fromLocationId t) →
          (v, l) ≠ (t_variantId t, toLocationId t) →
          stock_balances s' !! (v, l) = stock_balances s !! (v, l)) ∧
  (∀ v l, balance_avg_cost s' v l = balance_avg_cost s v l).
Proof.
  destruct r as [mo mi].
  intros (Hne & s1 & Hout & Hin)%transfer_Ok.
  split_and!.
  - pose proof Hout as (_ & _ & _ & Hmo & _)%createMovement_Ok.
    pose proof Hin as (_ & _ & _ & Hmi & _)%createMovement_Ok.
    pose proof Hout as (_ & Hb1 & _)%createMovement_effect.
    pose proof Hin as (_ & Hb2 & _)%createMovement_effect.
    rewrite !Hb2, !Hb1. subst mo mi.
    pose proof (delta_at_own (transfer_out_payload t) s) as Hoo.
    pose proof (delta_at_own (transfer_in_payload t) s1) as Hii.
    pose proof (delta_at_other (transfer_out_payload t) s
                  (t_variantId t) (toLocationId t)) as Hoi.
    pose proof (delta_at_other (transfer_in_payload t) s1
                  (t_variantId t) (fromLocationId t)) as Hio.
    cbn in Hoo, Hii, Hoi, Hio.
    rewrite decide_False in Hoo by done. rewrite decide_True in Hii by done.
    rewrite Hoo, Hii, Hoi, Hio by congruence. lia.
  - intros v l Hfrom Hto.
    rewrite (createMovement_other_rows _ _ _ _ _ Hin) by done.
    by rewrite (createMovement_other_rows _ _ _ _ _ Hout).
  - intros v l.
    rewrite (in_keeps_cost _ _ _ _ Hin eq_refl eq_refl).
    by eapply out_keeps_cost.
Qed.

(** ** Variants created on demand *)

Lemma init_balances_keeps (v : Z) (locs : list Location)
    (b b' : gmap (Z * Z) (Balance num)) k x :
  init_balances v locs b = Ok b' → b !! k = Some x → b' !! k = Some x.
Proof.
  revert b. induction locs as [|loc locs IH]; cbn; intros b Hi Hk.
  - by injection Hi as <-.
  - destruct (b !! (v, loc_id loc)) eqn:Hrow; [discriminate|].
    apply (IH _ Hi). rewrite lookup_insert_ne; [done|]. congruence.
Qed.

Lemma init_balances_rows (v : Z) (locs : list Location)
    (b b' : gmap (Z * Z) (Balance num)) :
  init_balances v locs b = Ok b' →
  (∀ loc, loc ∈ locs → b' !! (v, loc_id loc) = Some zero_row) ∧
  (∀ k, k.1 ≠ v → b' !! k = b !! k).
Proof.
  revert b. induction locs as [|loc locs IH]; cbn; intros b Hi.
  - injection Hi as <-. split; [|done]. intros loc Hin. by inversion Hin.
  - destruct (b !! (v, loc_id loc)) eqn:Hrow; [discriminate|].
    destruct (IH _ Hi) as [Hrows Hother]. split.
    + intros loc' [->|Hin]%elem_of_cons; [|by apply Hrows].
      eapply init_balances_keeps; [exact Hi|]. by rewrite lookup_insert_eq.
    + intros k Hk. rewrite Hother by done.
      rewrite lookup_insert_ne; [done|]. intros <-. done.
Qed.

Lemma insert_variant_created productId colorId sizeId s v s' :
  insert_variant productId colorId sizeId s = Ok (v, s') →
  created_with_balances s s' v.
Proof.
  intros (-> & Hl & (pcid & Hp) & Hb & _)%insert_variant_Ok.
  apply init_balances_rows in Hb as [Hrows Hother].
  split_and!; try done.
  unfold variant_exists. rewrite bool_decide_eq_true, Hp, fmap_app.
  apply elem_of_app. right. cbn. apply list_elem_of_here.
Qed.

(** X9. A variant that [createVariant] or [createVariantFromNames] creates
    gets the next id of [product_color_sizes] and a balance row without stock
    at every location; the balance rows of the other variants are as before,
    and [createVariantFromNames] reports created=true. *)
Theorem variant_created_with_balances s :
  (∀ productId colorId sizeId v s',
     createVariant productId colorId sizeId s = Ok (v, s') →
     created_with_balances s s' v) ∧
  (∀ productName colorName sizeName r s',
     createVariantFromNames productName colorName sizeName s = Ok (r, s') →
     r_created r = true ∧ created_with_balances s s' (r_id r)).
Proof.
  split.
  - intros productId colorId sizeId v s'. apply insert_variant_created.
  - intros pn cn sn r s'. unfold createVariantFromNames.
    intros (mapped & _ & H)%bind_Ok.
    destruct (get_or_create_product _ _) as [productId c1] eqn:H1.
    destruct (get_or_create_color _ _) as [colorId c2] eqn:H2.
    apply bind_Ok in H as ([sizeId c3] & H3 & H).
    apply bind_Ok in H as ([variantId s1] & Hi & [= <- <-]).
    apply get_or_create_product_fixes in H1 as (Hl1 & _ & Hn1).
    apply get_or_create_color_fixes in H2 as (Hl2 & _ & Hn2).
    apply get_or_create_size_fixes in H3 as (Hl3 & _ & Hn3).
    split; [done|].
    destruct (insert_variant_created _ _ _ _ _ _ Hi) as (Hv & He & Hrows & Ho).
    cbn in Hv, Hrows, Ho. split_and!; try done.
    + cbn. congruence.
    + intros loc Hloc. apply Hrows. congruence.
Qed.

Lemma find_app_last {A} (f : A → bool) (l : list A) (x : A) :
  Forall (λ y, f y = false) l → f x = true → find f (l ++ [x]) = Some x.
Proof.
  induction 1 as [|y l Hy _ IH]; cbn; intros Hx.
  - by rewrite Hx.
  - rewrite Hy. by apply IH.
Qed.

Lemma find_None_all {A} (f : A → bool) (l : list A) :
  find f l = None → Forall (λ y, f y = false) l.
Proof.
  intros Hnone. apply Forall_forall. intros y Hy.
  apply (find_none f l Hnone). by apply list_elem_of_In.
Qed.

Lemma variant_has_ids_true c productId colorId sizeId v :
  variant_has_ids c productId colorId sizeId v = true ↔
  (∃ pc, pc ∈ product_colors c ∧ pc_id pc = pcs_product_color_id v ∧
         pc_product_id pc = productId ∧ pc_color_id pc = colorId) ∧
  pcs_size_id v = sizeId.
Proof.
  unfold variant_has_ids.
  rewrite andb_true_iff, bool_decide_eq_true, existsb_exists.
  split; intros [(pc & Hin & Hpc) Hsz]; (split; [|done]); exists pc.
  - rewrite !andb_true_iff, !bool_decide_eq_true in Hpc.
    rewrite list_elem_of_In. tauto.
  - rewrite !andb_true_iff, !bool_decide_eq_true.
    rewrite <- list_elem_of_In. tauto.
Qed.

Lemma get_or_create_product_color_row productId colorId c id c' :
  get_or_create_product_color productId colorId c = (id, c') →
  (product_colors c' = product_colors c ∨
   product_colors c' = product_colors c ++
     [{| pc_id := next_product_color_id c; pc_product_id := productId;
         pc_color_id := colorId |}]) ∧
  ∃ pc, pc ∈ product_colors c' ∧ pc_id pc = id ∧
        pc_product_id pc = productId ∧ pc_color_id pc = colorId.
Proof.
  unfold get_or_create_product_color.
  destruct (find _ _) as [pc|] eqn:Hf; intros [= <- <-].
  - apply find_some in Hf as [Hin Hpc].
    rewrite andb_true_iff, !bool_decide_eq_true in Hpc.
    split; [by left|]. exists pc. by rewrite list_elem_of_In.
  - split; [by right|]. eexists. cbn.
    split; [apply elem_of_app; right; apply list_elem_of_here|done].
Qed.

(** X10. Resolving the same (product, color, size) ids again finds the
    variant of the first call and changes nothing, provided no variant row
    refers to a product-color id that has not been handed out yet. *)
Theorem resolveVariantIdByIds_again productId colorId sizeId s v s' :
  resolveVariantIdByIds productId colorId sizeId s = Ok (v, s') →
  Forall (λ x, pcs_product_color_id x < next_product_color_id (catalog s))
    (product_color_sizes (catalog s)) →
  resolveVariantIdByIds productId colorId sizeId s' = Ok (v, s').
Proof.
  unfold resolveVariantIdByIds at 1.
  destruct (find _ _) as [v0|] eqn:Hfind.
  - intros [= <- <-] _. unfold resolveVariantIdByIds. by rewrite Hfind.
  - unfold createVariant, insert_variant.
    destruct (get_or_create_product_color _ _ _) as [pcid c1] eqn:Hpc.
    pose proof (get_or_create_product_color_fixes _ _ _ _ _ Hpc)
      as (Hl & Hp & Hn).
    apply get_or_create_product_color_row in Hpc as (Hgrow & pc & Hin & Hpc).
    destruct (existsb _ _); [discriminate|].
    intros (b & Hb & [= <- <-])%bind_Ok Hbelow.
    unfold resolveVariantIdByIds. cbn. rewrite Hp.
    rewrite find_app_last; [done| |].
    + apply find_None_all in Hfind.
      rewrite Forall_forall in Hfind, Hbelow. apply Forall_forall.
      intros x Hx. specialize (Hfind x Hx). specialize (Hbelow x Hx).
      apply not_true_is_false. intros Hx'.
      apply variant_has_ids_true in Hx' as [(pc' & Hin' & Hid' & ? & ?) ?].
      cbn in Hin'.
      assert (pc' ∈ product_colors (catalog s)) as Hold.
      { destruct Hgrow as [Hg|Hg]; rewrite Hg in Hin'; [done|].
        apply elem_of_app in Hin' as [?|Hnew]; [done|].
        apply list_elem_of_singleton in Hnew. subst pc'. cbn in Hid'. lia. }
      assert (variant_has_ids (catalog s) productId colorId sizeId x = true)
        as Hold'.
      { apply variant_has_ids_true. split; [|done]. by exists pc'. }
      congruence.
    + apply variant_has_ids_true. cbn. split; [|done]. exists pc.
      by destruct Hpc as (? & ? & ?).
Qed.

(** ** Resolving a name twice *)

Lemma grows_refl c : grows c c.
Proof. repeat split; try done; auto. Qed.

Lemma grows_trans c1 c2 c3 : grows c1 c2 → grows c2 c3 → grows c1 c3.
Proof.
  intros ((Hp1 & Hpn1 & Hpo1) & (Hc1 & Hcn1 & Hco1) & (Hs1 & Hsn1 & Hso1)
          & (Hq1 & Hqn1 & Hqo1))
         ((Hp2 & Hpn2 & Hpo2) & (Hc2 & Hcn2 & Hco2) & (Hs2 & Hsn2 & Hso2)
          & (Hq2 & Hqn2 & Hqo2)).
  repeat split; try (etrans; eassumption).
  - intros x [Hx|Hx]%Hpo2; [by apply Hpo1|right; lia].
  - intros x [Hx|Hx]%Hco2; [by apply Hco1|right; lia].
  - intros x [Hx|Hx]%Hso2; [by apply Hso1|right; lia].
  - intros x [Hx|Hx]%Hqo2; [by apply Hqo1|right; lia].
Qed.

Lemma snoc_grows {A} (l : list A) (x : A) (id : A → Z) (n : Z) :
  id x = n →
  l ⊆ l ++ [x] ∧ n ≤ n + 1 ∧ ∀ y, y ∈ l ++ [x] → y ∈ l ∨ n ≤ id y.
Proof.
  intros Hx. split; [|split; [lia|]].
  - intros y Hy. apply elem_of_app. by left.
  - intros y [Hy|Hy]%elem_of_app; [by left|right].
    apply list_elem_of_singleton in Hy as ->. lia.
Qed.

Lemma same_grows {A} (l : list A) (id : A → Z) (n : Z) :
  l ⊆ l ∧ n ≤ n ∧ ∀ y, y ∈ l → y ∈ l ∨ n ≤ id y.
Proof. split; [done|]. split; [lia|]. by left. Qed.

Lemma get_or_create_product_grows name c id c' :
  get_or_create_product name c = (id, c') →
  grows c c' ∧ ∃ x, x ∈ products c' ∧ prod_id x = id ∧ prod_name x = name.
Proof.
  unfold get_or_create_product.
  destruct (find _ _) as [x|] eqn:Hf; intros [= <- <-].
  - apply find_some in Hf as [Hin Hx%bool_decide_eq_true].
    split; [apply grows_refl|]. exists x. by rewrite list_elem_of_In.
  - split.
    + split; [by apply (snoc_grows (products c) _ prod_id)|].
      split; [apply same_grows|]. split; apply same_grows.
    + eexists. cbn.
      split; [apply elem_of_app; right; apply list_elem_of_here|done].
Qed.

Lemma get_or_create_color_grows name c id c' :
  get_or_create_color name c = (id, c') →
  grows c c' ∧ ∃ x, x ∈ colors c' ∧ col_id x = id ∧ col_name x = name.
Proof.
  unfold get_or_create_color.
  destruct (find _ _) as [x|] eqn:Hf; intros [= <- <-].
  - apply find_some in Hf as [Hin Hx%bool_decide_eq_true].
    split; [apply grows_refl|]. exists x. by rewrite list_elem_of_In.
  - split.
    + split; [apply same_grows|].
      split; [by apply (snoc_grows (colors c) _ col_id)|].
      split; apply same_grows.
    + eexists. cbn.
      split; [apply elem_of_app; right; apply list_elem_of_here|done].
Qed.

Lemma get_or_create_size_grows name c id c' :
  get_or_create_size name c = Ok (id, c') →
  grows c c' ∧ ∃ x, x ∈ sizes c' ∧ size_id x = id ∧ size_name x = name.
Proof.
  unfold get_or_create_size.
  destruct (find _ _) as [x|] eqn:Hf.
  - intros [= <- <-].
    apply find_some in Hf as [Hin Hx%bool_decide_eq_true].
    split; [apply grows_refl|]. exists x. by rewrite list_elem_of_In.
  - destruct (js_get _ _) as [n| |]; try discriminate; intros [= <- <-].
    all: split;
      [split; [apply same_grows|]; split; [apply same_grows|];
       split; [by apply (snoc_grows (sizes c) _ size_id)|apply same_grows]
      |eexists; cbn;
       split; [apply elem_of_app; right; apply list_elem_of_here|done]].
Qed.

Lemma get_or_create_product_color_grows productId colorId c id c' :
  get_or_create_product_color productId colorId c = (id, c') →
  grows c c' ∧
  ∃ x, x ∈ product_colors c' ∧ pc_id x = id ∧
       pc_product_id x = productId ∧ pc_color_id x = colorId.
Proof.
  unfold get_or_create_product_color.
  destruct (find _ _) as [x|] eqn:Hf; intros [= <- <-].
  - apply find_some in Hf as [Hin Hx].
    rewrite andb_true_iff, !bool_decide_eq_true in Hx.
    split; [apply grows_refl|]. exists x. by rewrite list_elem_of_In.
  - split.
    + split; [apply same_grows|]. split; [apply same_grows|].
      split; [apply same_grows|].
      by apply (snoc_grows (product_colors c) _ pc_id).
    + eexists. cbn.
      split; [apply elem_of_app; right; apply list_elem_of_here|done].
Qed.

Lemma variant_has_names_true c productName colorName sizeName v :
  variant_has_names c productName colorName sizeName v = true ↔
  ∃ pc x co sz,
    (pc ∈ product_colors c ∧ x ∈ products c ∧ co ∈ colors c ∧ sz ∈ sizes c) ∧
    pc_id pc = pcs_product_color_id v ∧
    (prod_id x = pc_product_id pc ∧ prod_name x = productName) ∧
    (col_id co = pc_color_id pc ∧ col_name co = colorName) ∧
    (size_id sz = pcs_size_id v ∧ size_name sz = sizeName).
Proof.
  unfold variant_has_names. rewrite andb_true_iff, !existsb_exists. split.
  - intros [(pc & Hpc & H) (sz & Hsz & Hs)].
    rewrite !andb_true_iff, !existsb_exists, bool_decide_eq_true in H.
    destruct H as [[Hid (x & Hx & Hxx)] (co & Hco & Hcc)].
    rewrite andb_true_iff, !bool_decide_eq_true in Hxx, Hcc, Hs.
    exists pc, x, co, sz. rewrite !list_elem_of_In. tauto.
  - intros (pc & x & co & sz & (Hpc & Hx & Hco & Hsz) & Hid & Hxx & Hcc & Hs).
    rewrite !list_elem_of_In in *. split.
    + exists pc. split; [done|].
      rewrite !andb_true_iff, !existsb_exists, bool_decide_eq_true.
      split_and!; [done| |].
      * exists x. by rewrite andb_true_iff, !bool_decide_eq_true.
      * exists co. by rewrite andb_true_iff, !bool_decide_eq_true.
    + exists sz. by rewrite andb_true_iff, !bool_decide_eq_true.
Qed.

(** A variant row of the old catalog that has the names in the grown
    catalog had them before. *)
Lemma variant_has_names_old c c' pn cn sn v :
  grows c c' → refs_below c → v ∈ product_color_sizes c →
  variant_has_names c' pn cn sn v = true →
  variant_has_names c pn cn sn v = true.
Proof.
  intros ((_ & _ & Hpo) & (_ & _ & Hco) & (_ & _ & Hso) & (_ & _ & Hqo))
         [Hv Hpc] Hin.
  rewrite Forall_forall in Hv. rewrite Forall_forall in Hpc.
  specialize (Hv v Hin) as [Hv1 Hv2].
  rewrite !variant_has_names_true.
  intros (pc & x & co & sz & (Hq & Hx & Hc & Hs) & Hid & [Hxi Hxn] & [Hci Hcn]
          & [Hsi Hsn]).
  apply Hqo in Hq as [Hq|Hq]; [|lia].
  specialize (Hpc pc Hq) as [Hpc1 Hpc2].
  apply Hpo in Hx as [Hx|Hx]; [|lia].
  apply Hco in Hc as [Hc|Hc]; [|lia].
  apply Hso in Hs as [Hs|Hs]; [|lia].
  by exists pc, x, co, sz.
Qed.

(** X11. Resolving the same names again finds the variant of the first call,
    reports created=false and changes nothing, for every product name that
    is no key of the alias table, provided no row of the catalog refers to an
    id that has not been handed out yet. *)
Theorem resolveVariantId_again productName colorName sizeName s r s' :
  resolveVariantId productName colorName sizeName s = Ok (r, s') →
  js_get productMapping productName = NoProp →
  refs_below (catalog s) →
  resolveVariantId productName colorName sizeName s' =
    Ok ({| r_id := r_id r; r_created := false |}, s').
Proof.
  unfold resolveVariantId at 1.
  destruct (find _ _) as [v0|] eqn:Hfind.
  - intros [= <- <-] _ _. unfold resolveVariantId. by rewrite Hfind.
  - intros Hcreate Hplain Hrefs.
    unfold createVariantFromNames, mappedProductName in Hcreate.
    rewrite Hplain in Hcreate. cbn in Hcreate.
    destruct (get_or_create_product _ _) as [productId c1] eqn:H1.
    destruct (get_or_create_color _ _) as [colorId c2] eqn:H2.
    apply bind_Ok in Hcreate as ([sizeId c3] & H3 & Hcreate).
    apply bind_Ok in Hcreate as ([variantId s1] & Hi & [= <- <-]).
    unfold insert_variant in Hi. cbn in Hi.
    destruct (get_or_create_product_color _ _ _) as [pcid c4] eqn:H4.
    destruct (existsb _ _); [discriminate|].
    apply bind_Ok in Hi as (b & Hb & [= <- <-]).
    pose proof (get_or_create_product_fixes _ _ _ _ H1) as (_ & F1 & _).
    pose proof (get_or_create_color_fixes _ _ _ _ H2) as (_ & F2 & _).
    pose proof (get_or_create_size_fixes _ _ _ _ H3) as (_ & F3 & _).
    pose proof (get_or_create_product_color_fixes _ _ _ _ _ H4) as (_ & F4 & _).
    apply get_or_create_product_grows in H1 as (G1 & x & Hx & Hxi & Hxn).
    apply get_or_create_color_grows in H2 as (G2 & co & Hco & Hci & Hcn).
    apply get_or_create_size_grows in H3 as (G3 & sz & Hsz & Hsi & Hsn).
    apply get_or_create_product_color_grows in H4
      as (G4 & pc & Hpc & Hpi & Hpp & Hpk).
    assert (grows (catalog s) c4) as G
      by (do 3 (eapply grows_trans; [eassumption|]); exact G4).
    assert (x ∈ products c4) as Hx4.
    { apply G4, G3, G2, Hx. }
    assert (co ∈ colors c4) as Hco4.
    { destruct G4 as (_ & (Hi4 & _) & _). destruct G3 as (_ & (Hi3 & _) & _).
      apply Hi4, Hi3, Hco. }
    assert (sz ∈ sizes c4) as Hsz4.
    { destruct G4 as (_ & _ & (Hi4 & _) & _). apply Hi4, Hsz. }
    unfold resolveVariantId. cbn.
    rewrite F4, F3, F2, F1.
    rewrite find_app_last; [done| |].
    + apply find_None_all in Hfind.
      rewrite Forall_forall in Hfind. apply Forall_forall.
      intros v Hv. specialize (Hfind v Hv).
      apply not_true_is_false. intros Hnew.
      assert (variant_has_names (catalog s) productName colorName sizeName v
              = true) as Hold; [|congruence].
      by apply (variant_has_names_old (catalog s) c4).
    + apply (proj2 (variant_has_names_true c4 _ _ _ _)).
      exists pc, x, co, sz. cbn. split_and!; try done; congruence.
Qed.

(** ** The lines of a stock card *)

Lemma chronological_spec (a b : Movement num) :
  chronological a b = true ↔ not_later a b.
Proof.
  unfold chronological, not_later.
  rewrite orb_true_iff, andb_true_iff, !bool_decide_eq_true. done.
Qed.

Lemma take_sorted {A} (R : relation A) (n : nat) (l : list A) :
  StronglySorted R l → StronglySorted R (take n l).
Proof.
  intros Hl. rewrite <- (take_drop n l) in Hl.
  by apply StronglySorted_app_1_l in Hl.
Qed.

Lemma apply_limit_sublist {A} (lim : option nat) (l : list A) :
  ∃ n, apply_limit lim l = take n l ∧
       match limit_bound lim with
       | Some k => (length (apply_limit lim l) ≤ k)%nat
       | None => apply_limit lim l = l
       end.
Proof.
  destruct lim as [[|k]|]; cbn.
  - exists (length l). by rewrite firstn_all.
  - exists (S k). split; [done|]. rewrite length_take. lia.
  - exists 100%nat. split; [done|]. rewrite length_take. lia.
Qed.

Lemma running_balances_prefix b (ms : list (Movement num)) k line :
  running_balances b ms !! k = Some line →
  running_balance line = b + sum_signed (take (S k) ms) ∧
  ms !! k = Some (line_movement line) ∧
  qty_change line = signed_qty (line_movement line).
Proof.
  revert b k line. induction ms as [|m ms IH]; intros b k line; [done|].
  destruct k as [|k]; cbn [running_balances lookup list_lookup].
  - intros [= <-]. cbn [running_balance line_movement qty_change].
    split; [|done]. cbn [take]. rewrite sum_signed_cons.
    rewrite take_0. change (sum_signed []) with 0. lia.
  - intros Hk. destruct (IH _ _ _ Hk) as (Hr & Hm & Hq).
    split; [|done]. rewrite Hr. cbn [take]. rewrite sum_signed_cons. lia.
Qed.


(** ** The snapshot of a count session *)

Lemma insert_opname_items_Ok opnameId (rows : list ((Z * Z) * Balance num)) s s' :
  insert_opname_items opnameId rows s = Ok s' →
  ∃ new,
    stock_opname_items s' = stock_opname_items s ++ new ∧
    Forall2 (λ r i, ∃ id, i = snapshot_item opnameId id r) rows new ∧
    stock_opname s' = stock_opname s ∧ stock_balances s' = stock_balances s.
Proof.
  revert s. induction rows as [|[[v l] b] rows IH]; cbn; intros s.
  - intros [= <-]. exists []. by rewrite app_nil_r.
  - destruct (existsb _ _); [discriminate|].
    intros (new & Hitems & Hall & Ho & Hb)%IH. cbn in *.
    eexists (_ :: new). rewrite Hitems, <- app_assoc.
    split_and!; [done| |done|done].
    constructor; [|done]. by eexists.
Qed.

Lemma in_snapshot_true locationId (r : (Z * Z) * Balance num) :
  in_snapshot locationId r = true ↔
  0 < qty_on_hand r.2 ∧ in_scope locationId r.1.2.
Proof.
  unfold in_snapshot, in_scope.
  rewrite andb_true_iff, bool_decide_eq_true.
  destruct locationId as [l0|]; [|tauto].
  by rewrite orb_true_iff, !bool_decide_eq_true.
Qed.


(** ** Counting *)

Lemma item_matches_set_counted opnameId v l c by_ now n i :
  item_matches opnameId v l (set_counted c by_ now n i) =
  item_matches opnameId v l i.
Proof. done. Qed.


(** ** The outcome of a commit *)

Lemma length_by_sign (items : list OpnameItem) :
  Forall (λ i, variance i ≠ 0) items →
  Nat.add (length (filter (λ i, 0 < variance i) items))
          (length (filter (λ i, variance i < 0) items)) = length items.
Proof.
  induction 1 as [|i items Hi _ IH]; [done|].
  destruct (decide (0 < variance i)).
  - rewrite filter_cons_True, filter_cons_False by lia. cbn. lia.
  - rewrite filter_cons_False, filter_cons_True by lia. cbn. lia.
Qed.

Lemma adjustments_by_direction opnameId o (items : list OpnameItem)
    (adjs : list (Adjustment num)) :
  Forall2 (is_adjustment_of opnameId o) items adjs →
  length (filter (λ i, 0 < variance i) items) =
    length (filter (λ a, m_movement_type (adj_movement a) = "IN") adjs).
Proof.
  induction 1 as [|i a items adjs Ha _ IH]; [done|].
  destruct Ha as (_ & _ & Hd & _).
  destruct (decide (0 < variance i)); injection Hd as Ht _.
  - rewrite !filter_cons_True by done. cbn. by rewrite IH.
  - rewrite !filter_cons_False; [done| |done]. by rewrite Ht.
Qed.

(** X15. The summary of a commit adds up: the number of items, of
    adjustments and of appended ledger rows are the same, the positive and
    the negative variances together are all the items, and the positive
    variances are the IN adjustments. *)
Theorem commit_summary_adds_up opnameId by_ s r s' :
  commitOpname opnameId by_ s = Ok (r, s') →
  total_items (summary r) = length (adjustments r) ∧
  total_adjustments (summary r) = length (adjustments r) ∧
  length (stock_movements s') =
    (length (stock_movements s) + length (adjustments r))%nat ∧
  (positive_variances (summary r) + negative_variances (summary r))%nat
    = total_items (summary r) ∧
  positive_variances (summary r) =
    length (filter (λ a, m_movement_type (adj_movement a) = "IN")
              (adjustments r)).
Proof.
  unfold commitOpname.
  destruct (find _ _) as [o|]; [|discriminate].
  intros ([adjs s1] & Hb & [= <- <-])%bind_Ok. cbn.
  apply book_adjustments_effect in Hb as (Hall & Hms & _).
  split_and!; try done.
  - by eapply Forall2_length.
  - rewrite Hms, length_app, length_fmap. done.
  - apply length_by_sign, commit_items_nonzero.
  - by eapply adjustments_by_direction.
Qed.

(** ** When a commit goes through *)

Lemma shortfall_at_cons v l i items :
  shortfall_at v l (i :: items) =
  (if decide (item_pair i = (v, l)) then Z.min 0 (variance i) else 0)
  + shortfall_at v l items.
Proof.
  unfold shortfall_at, item_pair. case_decide.
  - by rewrite filter_cons_True.
  - by rewrite filter_cons_False.
Qed.

Lemma shortfall_at_nonpos v l items : shortfall_at v l items ≤ 0.
Proof.
  induction items as [|i items IH]; [done|].
  rewrite shortfall_at_cons. case_decide; lia.
Qed.

Lemma adjustment_payload_well_formed opnameId o by_ i :
  oi_variant_id i ≠ 0 → oi_location_id i ≠ 0 → variance i ≠ 0 →
  well_formed (adjustment_payload (num:=num) opnameId o by_ i).
Proof.
  intros Hv Hl Hd. unfold well_formed. cbn. split_and!; [done|done|lia|].
  case_bool_decide; [left|right]; (split; [done|]).
  - unfold in_reasons. do 2 apply list_elem_of_further. apply list_elem_of_here.
  - unfold out_reasons. do 2 apply list_elem_of_further. apply list_elem_of_here.
Qed.

Lemma book_adjustments_succeeds opnameId o by_ items s :
  Forall (λ i, oi_variant_id i ≠ 0 ∧ oi_location_id i ≠ 0 ∧ variance i ≠ 0 ∧
               variant_exists s (oi_variant_id i) = true ∧
               location_exists s (oi_location_id i) = true) items →
  (∀ v l, 0 ≤ balance_qty s v l + shortfall_at v l items) →
  ∃ adjs s', book_adjustments opnameId o by_ items s = Ok (adjs, s').
Proof.
  revert s. induction items as [|i items IH]; intros s Hitems Hcover.
  - by exists [], s.
  - apply Forall_cons in Hitems as [(Hv & Hl & Hd & Hve & Hle) Hitems].
    destruct (createMovement_succeeds (adjustment_payload opnameId o by_ i) s)
      as (m & s1 & Hm); try done.
    { by apply adjustment_payload_well_formed. }
    { apply check_stock_Ok. cbn. intros Hout _.
      case_bool_decide as Hpos; [discriminate|].
      specialize (Hcover (oi_variant_id i) (oi_location_id i)).
      rewrite shortfall_at_cons, decide_True in Hcover by done.
      pose proof (shortfall_at_nonpos (oi_variant_id i) (oi_location_id i) items).
      lia. }
    pose proof Hm as (_ & _ & _ & Hmeq & _)%createMovement_Ok.
    pose proof Hm as (_ & Hb & Hc & _)%createMovement_effect.
    destruct (IH s1) as (adjs & s' & Hrec).
    + eapply Forall_impl; [exact Hitems|].
      intros j (? & ? & ? & ? & ?).
      unfold variant_exists, location_exists. rewrite Hc. by split_and!.
    + intros v l. rewrite Hb, Hmeq, delta_at_adjustment.
      specialize (Hcover v l). rewrite shortfall_at_cons in Hcover.
      unfold item_pair in Hcover. case_decide; lia.
    + eexists _, s'. cbn [book_adjustments]. rewrite Hm. cbn.
      rewrite Hrec. reflexivity.
Qed.


(** ** CSV import *)

Lemma import_rows_accounts mode i (rows : list (CsvRow num)) acc s :
  let r := (import_rows mode i rows acc s).1 in
  (imported r + length (errors r) =
     imported acc + length (errors acc) + length rows)%nat ∧
  (updated acc = imported acc → updated r = imported r) ∧
  (created acc ≤ created r ≤ created acc + length rows)%nat ∧
  ∃ es, errors r = errors acc ++ es ∧
        StronglySorted lt es.*1 ∧
        Forall (λ n, i + 2 ≤ n < i + 2 + length rows)%nat es.*1.
Proof.
  revert i acc s. induction rows as [|row rows IH]; intros i acc s.
  - cbn. split; [lia|split; [done|split; [lia|]]]. exists [].
    rewrite app_nil_r. split_and!; [done|constructor|constructor].
  - cbn [import_rows].
    destruct (importCsvRow mode row s) as [rr s1].
    destruct (IH (S i) (record_row i rr acc) s1)
      as (Hn & Hu & Hc & es & Hes & Hsorted & Hrange).
    set (r := (import_rows mode (S i) rows (record_row i rr acc) s1).1) in *.
    cbn zeta. fold r.
    assert (created acc ≤ created (record_row i rr acc) ≤ S (created acc))%nat
      as Hcreated.
    { unfold record_row. destruct (row_created rr), (row_failure rr); cbn; lia. }
    unfold record_row in Hn, Hu, Hes.
    destruct (row_failure rr) as [e|]; cbn in Hn, Hu, Hes.
    + split; [|split; [|split]].
      * rewrite length_app in Hn. cbn in *. lia.
      * done.
      * cbn [length]. lia.
      * exists (((i + 2)%nat, e) :: es). rewrite <- app_assoc in Hes.
        split_and!; [exact Hes| |].
        -- cbn. constructor; [done|].
           eapply Forall_impl; [exact Hrange|]. cbn. lia.
        -- cbn. constructor; [lia|].
           eapply Forall_impl; [exact Hrange|]. cbn. lia.
    + split; [|split; [|split]].
      * cbn [length]. lia.
      * intros E. apply Hu. by rewrite E.
      * cbn [length]. lia.
      * exists es. split_and!; [done|done|].
        eapply Forall_impl; [exact Hrange|]. cbn. lia.
Qed.




(** ** Finite checks

    Two statements over all pairs (variant, location) that follow from a
    check of the rows of a table. *)

Lemma balances_nonneg s :
  map_Forall (λ _ b, 0 ≤ qty_on_hand b) (stock_balances s) →
  ∀ v l, 0 ≤ balance_qty s v l.
Proof.
  intros Hall v l. unfold balance_qty.
  destruct (stock_balances s !! (v, l)) as [b|] eqn:Hb; [|done].
  exact (Hall _ _ Hb).
Qed.

Lemma shortfall_at_absent v l (items : list OpnameItem) :
  (v, l) ∉ item_pair <$> items → shortfall_at v l items = 0.
Proof.
  induction items as [|i items IH]; [done|].
  rewrite fmap_cons, not_elem_of_cons. intros [Hne Hnin].
  rewrite shortfall_at_cons, decide_False by done. by rewrite IH.
Qed.

Lemma shortfall_covered s (items : list OpnameItem) :
  (∀ v l, 0 ≤ balance_qty s v l) →
  Forall (λ i, 0 ≤ balance_qty s (oi_variant_id i) (oi_location_id i)
                   + shortfall_at (oi_variant_id i) (oi_location_id i) items)
    items →
  ∀ v l, 0 ≤ balance_qty s v l + shortfall_at v l items.
Proof.
  intros Hpos Hitems v l.
  destruct (decide ((v, l) ∈ item_pair <$> items)) as [Hin|Hnin].
  - apply list_elem_of_fmap in Hin as (i & Hi & Hin).
    rewrite Forall_forall in Hitems. specialize (Hitems i Hin).
    unfold item_pair in Hi. by injection Hi as -> ->.
  - rewrite shortfall_at_absent by done. specialize (Hpos v l). lia.
Qed.

(** ** The inventory tree *)

Section Upsert.
Context {A : Type} (has_key : A → bool) (fresh : A) (f : A → A).

Lemma upsert_Forall (P : A → Prop) (l : list A) :
  (∀ x, has_key x = true → P x → P (f x)) → P (f fresh) →
  Forall P l → Forall P (upsert has_key fresh f l).
Proof.
  intros Hf Hfresh. induction 1 as [|x l Hx Hl IH]; cbn.
  - by constructor.
  - destruct (has_key x) eqn:Hk; constructor; auto.
Qed.

Lemma upsert_bind {B} (g : A → list B) (extra : list B) (l : list A) :
  (∀ x, has_key x = true → g (f x) ≡ₚ g x ++ extra) →
  g (f fresh) ≡ₚ extra →
  upsert has_key fresh f l ≫= g ≡ₚ (l ≫= g) ++ extra.
Proof.
  intros Hf Hfresh. induction l as [|x l IH]; cbn.
  - by rewrite app_nil_r.
  - destruct (has_key x) eqn:Hk; cbn.
    + rewrite (Hf x Hk), <- !app_assoc.
      apply Permutation_app_head, Permutation_app_comm.
    + by rewrite IH, app_assoc.
Qed.

Lemma upsert_sum (h : A → Z) (d : Z) (l : list A) :
  (∀ x, has_key x = true → h (f x) = h x + d) → h (f fresh) = d →
  sum_of h (upsert has_key fresh f l) = sum_of h l + d.
Proof.
  intros Hf Hfresh. induction l as [|x l IH]; cbn.
  - lia.
  - destruct (has_key x) eqn:Hk; cbn.
    + rewrite (Hf x Hk). fold (sum_of h l). lia.
    + fold (sum_of h (upsert has_key fresh f l)) (sum_of h l). lia.
Qed.

Lemma upsert_nonempty (l : list A) : upsert has_key fresh f l ≠ [].
Proof. destruct l as [|x l]; cbn; [done|]. by destruct (has_key x). Qed.

Lemma upsert_keys {K} (key : A → K) (k : K) (l : list A) :
  (∀ x, has_key x = true ↔ key x = k) → (∀ x, key (f x) = key x) →
  key fresh = k →
  NoDup (key <$> l) → NoDup (key <$> upsert has_key fresh f l).
Proof.
  intros Hk Hf Hfresh.
  assert (∀ l y, y ∈ key <$> upsert has_key fresh f l → y ∈ key <$> l ∨ y = k)
    as Hin.
  { clear l. induction l as [|x l IH]; cbn; intros y.
    - rewrite Hf, Hfresh. intros ->%list_elem_of_singleton. by right.
    - destruct (has_key x) eqn:Hx; rewrite !fmap_cons.
      + rewrite Hf. by left.
      + intros [->|Hy]%elem_of_cons; [left; apply list_elem_of_here|].
        destruct (IH _ Hy) as [?|?]; [left|by right].
        by apply list_elem_of_further. }
  induction l as [|x l IH]; cbn.
  - intros _. rewrite Hf. apply NoDup_singleton.
  - intros [Hx Hl]%NoDup_cons.
    destruct (has_key x) eqn:Hkx; rewrite !fmap_cons.
    + rewrite Hf. by apply NoDup_cons.
    + apply NoDup_cons. split; [|by apply IH].
      intros [?|Hxk]%Hin; [done|].
      apply Hk in Hxk. congruence.
Qed.
End Upsert.

Lemma sum_of_app {A} (h : A → Z) (l k : list A) :
  sum_of h (l ++ k) = sum_of h l + sum_of h k.
Proof.
  induction l as [|x l IH]; cbn; [done|].
  fold (sum_of h (l ++ k)) (sum_of h l). lia.
Qed.

Lemma sum_of_perm {A} (h : A → Z) (l k : list A) :
  l ≡ₚ k → sum_of h l = sum_of h k.
Proof.
  induction 1 as [|x l k _ IH|x y l|l k j _ IH1 _ IH2]; cbn.
  - done.
  - fold (sum_of h l) (sum_of h k). lia.
  - lia.
  - congruence.
Qed.

Lemma sum_of_fmap {A B} (g : A → B) (h : B → Z) (l : list A) :
  sum_of h (g <$> l) = sum_of (h ∘ g) l.
Proof.
  induction l as [|x l IH]; cbn; [done|].
  fold (sum_of h (g <$> l)) (sum_of (h ∘ g) l). by rewrite IH.
Qed.

Lemma object_values_perm {A} (key : A → Z) (l : list A) :
  object_values key l ≡ₚ l.
Proof.
  unfold object_values. rewrite sort_by_perm.
  induction l as [|x l IH]; [done|].
  destruct (is_array_index (key x)) eqn:Hx.
  - rewrite filter_cons_True, filter_cons_False by congruence.
    cbn. by rewrite IH.
  - rewrite filter_cons_False, filter_cons_True by congruence.
    rewrite <- Permutation_middle. by rewrite IH.
Qed.

Lemma js_sort_perm {A} (cmp : A → A → Z) (l : list A) : js_sort cmp l ≡ₚ l.
Proof. apply sort_by_perm. Qed.

(** *** The tree before it is sorted *)

Lemma push_size_leaves (row : TreeRow num) ln :
  location_leaves (push_size row ln) =
  location_leaves ln ++ [(ln_location_id ln, size_node row)].
Proof. unfold location_leaves. cbn. by rewrite fmap_app. Qed.

Lemma add_location_row_leaves (row : TreeRow num) pc :
  product_color_key pc = (tr_product_id row, tr_color_id row) →
  product_color_leaves (add_location_row row pc) ≡ₚ
  product_color_leaves pc ++ [row_leaf row].
Proof.
  intros [= Hp Hc]. unfold product_color_leaves. cbn.
  rewrite (upsert_bind _ _ _ location_leaves
             [(tr_location_id row, size_node row)]).
  - rewrite fmap_app. cbn. by rewrite Hp, Hc.
  - intros ln Hln%bool_decide_eq_true. by rewrite push_size_leaves, Hln.
  - done.
Qed.

Lemma add_row_leaves (row : TreeRow num) tree :
  tree_leaves (add_row tree row) ≡ₚ tree_leaves tree ++ [row_leaf row].
Proof.
  unfold tree_leaves, add_row. apply upsert_bind.
  - intros pc Hpc%bool_decide_eq_true. by apply add_location_row_leaves.
  - by rewrite add_location_row_leaves.
Qed.

Lemma raw_tree_leaves (rows : list (TreeRow num)) tree :
  tree_leaves (foldl add_row tree rows) ≡ₚ tree_leaves tree ++ (row_leaf <$> rows).
Proof.
  revert tree. induction rows as [|row rows IH]; intros tree; cbn [foldl].
  - by rewrite app_nil_r.
  - rewrite IH, add_row_leaves, <- app_assoc. done.
Qed.

Lemma raw_tree_keys (rows : list (TreeRow num)) tree :
  NoDup (product_color_key <$> tree) →
  NoDup (product_color_key <$> foldl add_row tree rows).
Proof.
  revert tree. induction rows as [|row rows IH]; intros tree Htree; cbn [foldl].
  - done.
  - apply IH. unfold add_row.
    apply (upsert_keys _ _ _ product_color_key
             (tr_product_id row, tr_color_id row)); try done.
    intros pc. apply bool_decide_eq_true.
Qed.

Lemma add_location_row_grouped (row : TreeRow num) pc :
  well_grouped pc ∨ pn_locations pc = [] →
  well_grouped (add_location_row row pc).
Proof.
  intros Hpc. unfold well_grouped. cbn. split_and!.
  - apply (upsert_keys _ _ _ ln_location_id (tr_location_id row)); try done.
    + intros ln. apply bool_decide_eq_true.
    + destruct Hpc as [(? & _)| ->]; [done|constructor].
  - apply upsert_nonempty.
  - apply upsert_Forall.
    + intros ln _ _. cbn. by destruct (ln_sizes ln).
    + done.
    + destruct Hpc as [(_ & _ & ?)| ->]; [done|constructor].
Qed.

Lemma raw_tree_grouped (rows : list (TreeRow num)) tree :
  Forall well_grouped tree → Forall well_grouped (foldl add_row tree rows).
Proof.
  revert tree. induction rows as [|row rows IH]; intros tree Htree; cbn [foldl].
  - done.
  - apply IH. unfold add_row. apply upsert_Forall; [| |done].
    + intros pc _ Hpc. apply add_location_row_grouped. by left.
    + apply add_location_row_grouped. by right.
Qed.

Lemma add_location_row_adds_up (row : TreeRow num) pc :
  product_color_adds_up pc → product_color_adds_up (add_location_row row pc).
Proof.
  intros [Htotal Hlocs]. unfold product_color_adds_up, add_location_row.
  cbn [pn_total_qty pn_locations]. split.
  - rewrite (upsert_sum _ _ _ ln_total_qty (tr_qty_on_hand row)).
    + by rewrite Htotal.
    + done.
    + cbn. lia.
  - apply upsert_Forall; [| |done].
    + intros ln _ Hln. unfold location_adds_up, push_size in *.
      cbn [ln_total_qty ln_sizes].
      rewrite sum_of_app, Hln. cbn. lia.
    + unfold location_adds_up. cbn. lia.
Qed.

Lemma raw_tree_adds_up (rows : list (TreeRow num)) tree :
  Forall product_color_adds_up tree →
  Forall product_color_adds_up (foldl add_row tree rows).
Proof.
  revert tree. induction rows as [|row rows IH]; intros tree Htree; cbn [foldl].
  - done.
  - apply IH. unfold add_row. apply upsert_Forall; [| |done].
    + intros pc _ Hpc. by apply add_location_row_adds_up.
    + apply add_location_row_adds_up. split; [done|constructor].
Qed.

Lemma raw_tree_total (rows : list (TreeRow num)) tree :
  sum_of pn_total_qty (foldl add_row tree rows) =
  sum_of pn_total_qty tree + sum_of tr_qty_on_hand rows.
Proof.
  revert tree. induction rows as [|row rows IH]; intros tree; cbn [foldl].
  - cbn. lia.
  - rewrite IH. unfold add_row.
    rewrite (upsert_sum _ _ _ pn_total_qty (tr_qty_on_hand row));
      [|done|cbn; lia].
    cbn. fold (sum_of tr_qty_on_hand rows). lia.
Qed.

(** *** Sorting keeps what the tree holds *)

Section Sorted.
Variable localeCompare : string → string → Z.

Lemma sorted_location_leaves (ln : LocationNode num) :
  location_leaves (sorted_location localeCompare ln) ≡ₚ location_leaves ln.
Proof. unfold location_leaves. cbn. by rewrite js_sort_perm. Qed.

Lemma sorted_locations_perm (pc : ProductColorNode num) :
  pn_locations (sorted_product_color localeCompare pc) ≡ₚ
  sorted_location localeCompare <$> pn_locations pc.
Proof. cbn. by rewrite js_sort_perm, object_values_perm. Qed.

Lemma sorted_product_color_leaves (pc : ProductColorNode num) :
  product_color_leaves (sorted_product_color localeCompare pc) ≡ₚ
  product_color_leaves pc.
Proof.
  unfold product_color_leaves.
  rewrite sorted_locations_perm.
  change (pn_product_id (sorted_product_color localeCompare pc))
    with (pn_product_id pc).
  change (pn_color_id (sorted_product_color localeCompare pc))
    with (pn_color_id pc).
  apply fmap_Permutation.
  induction (pn_locations pc) as [|ln l IH]; [done|].
  rewrite fmap_cons, !bind_cons. by rewrite sorted_location_leaves, IH.
Qed.

Lemma sorted_tree_leaves (tree : list (ProductColorNode num)) :
  tree_leaves (sorted_product_color localeCompare <$> tree) ≡ₚ tree_leaves tree.
Proof.
  unfold tree_leaves. induction tree as [|pc tree IH]; [done|].
  rewrite fmap_cons, !bind_cons. by rewrite sorted_product_color_leaves, IH.
Qed.

Lemma sorted_product_color_grouped (pc : ProductColorNode num) :
  well_grouped pc → well_grouped (sorted_product_color localeCompare pc).
Proof.
  intros (Hnd & Hne & Hsizes). unfold well_grouped.
  pose proof (sorted_locations_perm pc) as Hp. split_and!.
  - rewrite Hp. by rewrite <- list_fmap_compose.
  - intros Hnil. rewrite Hnil in Hp. apply Permutation_nil_l in Hp.
    apply Hne. symmetry in Hp. by apply fmap_nil_inv in Hp.
  - rewrite Hp. apply Forall_fmap. eapply Forall_impl; [exact Hsizes|].
    intros ln Hln Hnil. apply Hln. cbn in Hnil.
    pose proof (js_sort_perm (compare_sizes localeCompare) (ln_sizes ln)) as Hs.
    rewrite Hnil in Hs. apply Permutation_nil_l in Hs. done.
Qed.

Lemma sorted_product_color_adds_up (pc : ProductColorNode num) :
  product_color_adds_up pc →
  product_color_adds_up (sorted_product_color localeCompare pc).
Proof.
  intros [Htotal Hlocs]. unfold product_color_adds_up.
  rewrite (sum_of_perm _ _ _ (sorted_locations_perm pc)).
  split; [|rewrite (sorted_locations_perm pc)].
  - rewrite sum_of_fmap. exact Htotal.
  - apply Forall_fmap. eapply Forall_impl; [exact Hlocs|].
    intros ln Hln. unfold compose, location_adds_up, sorted_location in *.
    cbn [ln_total_qty ln_sizes].
    by rewrite (sum_of_perm _ _ _ (js_sort_perm _ _)).
Qed.

(** X20. The inventory tree holds every row of the query exactly once, as a
    size entry under the product-color group and the location of the row:
    the size entries of the tree, with the ids they hang under, are a
    permutation of the rows. No two groups are for the same product and
    color, no group has two entries for one location, and no group and no
    location is empty. *)
Theorem inventory_tree_holds_rows (rows : list (TreeRow num)) :
  let tree := buildInventoryTree localeCompare rows in
  tree_leaves tree ≡ₚ row_leaf <$> rows ∧
  NoDup (product_color_key <$> tree) ∧
  Forall well_grouped tree.
Proof.
  unfold buildInventoryTree. cbn zeta. split_and!.
  - etrans; [|apply (raw_tree_leaves rows [])].
    etrans; [|apply sorted_tree_leaves].
    unfold tree_leaves. by rewrite js_sort_perm.
  - rewrite js_sort_perm, <- list_fmap_compose.
    apply (raw_tree_keys rows []). constructor.
  - rewrite js_sort_perm. apply Forall_fmap.
    eapply Forall_impl; [apply (raw_tree_grouped rows []); constructor|].
    intros pc. apply sorted_product_color_grouped.
Qed.

(** X21. The totals of the inventory tree add up: the total of a location is
    the sum of the quantities of its sizes, the total of a product-color
    group is the sum of the totals of its locations, and the totals of the
    groups sum to the quantities of all rows. *)
Theorem inventory_tree_totals (rows : list (TreeRow num)) :
  let tree := buildInventoryTree localeCompare rows in
  Forall product_color_adds_up tree ∧
  sum_of pn_total_qty tree = sum_of tr_qty_on_hand rows.
Proof.
  unfold buildInventoryTree. cbn zeta. split.
  - rewrite js_sort_perm. apply Forall_fmap.
    eapply Forall_impl; [apply (raw_tree_adds_up rows []); constructor|].
    intros pc. apply sorted_product_color_adds_up.
  - rewrite (sum_of_perm _ _ _ (js_sort_perm _ _)), sum_of_fmap.
    change (pn_total_qty ∘ sorted_product_color localeCompare)
      with (pn_total_qty (num:=num)).
    by rewrite raw_tree_total.
Qed.
End Sorted.

(** *** The order of the tree *)

Section Ordered.
Variable localeCompare : string → string → Z.
Hypothesis localeCompare_consistent : consistent_comparator localeCompare.

Lemma localeCompare_total x y :
  localeCompare x y ≤ 0 ∨ localeCompare y x ≤ 0.
Proof.
  destruct localeCompare_consistent as [Hflip _].
  destruct (decide (localeCompare x y ≤ 0)); [by left|right].
  assert (0 < localeCompare x y) as H%Hflip by lia. lia.
Qed.

Lemma localeCompare_zero x y :
  localeCompare x y = 0 ↔ localeCompare y x = 0.
Proof.
  destruct localeCompare_consistent as [Hflip _].
  pose proof (Hflip x y). pose proof (Hflip y x). lia.
Qed.

Lemma localeCompare_trans x y z :
  localeCompare x y ≤ 0 → localeCompare y z ≤ 0 → localeCompare x z ≤ 0.
Proof. destruct localeCompare_consistent as [_ Htrans]. apply Htrans. Qed.

Lemma localeCompare_before x y z :
  localeCompare x y ≤ 0 → localeCompare y z ≤ 0 →
  localeCompare x y < 0 ∨ localeCompare y z < 0 → localeCompare x z < 0.
Proof.
  intros Hxy Hyz Hlt.
  pose proof (localeCompare_trans _ _ _ Hxy Hyz) as Hxz.
  destruct (decide (localeCompare x z = 0)) as [Hz|]; [|lia].
  apply localeCompare_zero in Hz.
  destruct localeCompare_consistent as [Hflip _].
  destruct Hlt as [Hlt|Hlt].
  - assert (localeCompare y x ≤ 0)
      by (apply (localeCompare_trans _ z); lia).
    pose proof (Hflip y x). lia.
  - assert (localeCompare z y ≤ 0)
      by (apply (localeCompare_trans _ x); lia).
    pose proof (Hflip z y). lia.
Qed.

Lemma compare_sizes_spec (a b : SizeNode num) :
  bool_decide (compare_sizes localeCompare a b ≤ 0) = true ↔
  sizes_in_order localeCompare a b.
Proof.
  rewrite bool_decide_eq_true.
  unfold compare_sizes, or_else, sizes_in_order. case_bool_decide; lia.
Qed.

Lemma compare_locations_spec (a b : LocationNode num) :
  bool_decide (compare_locations localeCompare a b ≤ 0) = true ↔
  locations_in_order localeCompare a b.
Proof.
  rewrite bool_decide_eq_true.
  unfold compare_locations, or_else, locations_in_order.
  destruct (ln_location_is_default a), (ln_location_is_default b);
    case_bool_decide; try lia; split; try lia; intros [[? ?]|[? ?]];
    try discriminate; lia.
Qed.

Lemma compare_product_colors_spec (a b : ProductColorNode num) :
  bool_decide (compare_product_colors localeCompare a b ≤ 0) = true ↔
  product_colors_in_order localeCompare a b.
Proof.
  rewrite bool_decide_eq_true.
  unfold compare_product_colors, or_else, product_colors_in_order.
  case_bool_decide; lia.
Qed.

Lemma sizes_sorted (l : list (SizeNode num)) :
  StronglySorted (sizes_in_order localeCompare)
    (js_sort (compare_sizes localeCompare) l).
Proof.
  apply sort_by_sorted.
  - apply compare_sizes_spec.
  - intros a b. unfold sizes_in_order.
    pose proof (localeCompare_total (sn_size_name a) (sn_size_name b)). lia.
  - intros a b c. unfold sizes_in_order.
    pose proof (localeCompare_trans (sn_size_name a) (sn_size_name b)
                  (sn_size_name c)). lia.
Qed.

Lemma locations_sorted (l : list (LocationNode num)) :
  StronglySorted (locations_in_order localeCompare)
    (js_sort (compare_locations localeCompare) l).
Proof.
  apply sort_by_sorted.
  - apply compare_locations_spec.
  - intros a b. unfold locations_in_order.
    pose proof (localeCompare_total (ln_location_name a) (ln_location_name b)).
    destruct (ln_location_is_default a), (ln_location_is_default b);
      intuition lia.
  - intros a b c. unfold locations_in_order.
    pose proof (localeCompare_trans (ln_location_name a) (ln_location_name b)
                  (ln_location_name c)).
    destruct (ln_location_is_default a), (ln_location_is_default b),
      (ln_location_is_default c); intuition (try discriminate; try lia).
Qed.

Lemma product_colors_sorted (l : list (ProductColorNode num)) :
  StronglySorted (product_colors_in_order localeCompare)
    (js_sort (compare_product_colors localeCompare) l).
Proof.
  apply sort_by_sorted.
  - apply compare_product_colors_spec.
  - intros a b. unfold product_colors_in_order.
    pose proof (localeCompare_total (pn_product_name a) (pn_product_name b)).
    pose proof (localeCompare_zero (pn_product_name a) (pn_product_name b)).
    pose proof (localeCompare_total (pn_color_name a) (pn_color_name b)).
    lia.
  - intros a b c. unfold product_colors_in_order.
    pose proof (localeCompare_trans (pn_product_name a) (pn_product_name b)
                  (pn_product_name c)).
    pose proof (localeCompare_before (pn_product_name a) (pn_product_name b)
                  (pn_product_name c)).
    pose proof (localeCompare_trans (pn_color_name a) (pn_color_name b)
                  (pn_color_name c)).
    pose proof (localeCompare_zero (pn_product_name a) (pn_product_name c)).
    intros [?|[? ?]] [?|[? ?]].
    + left. lia.
    + left. lia.
    + left. lia.
    + assert (localeCompare (pn_product_name a) (pn_product_name c) ≤ 0)
        by lia.
      assert (localeCompare (pn_product_name c) (pn_product_name a) ≤ 0).
      { apply (localeCompare_trans _ (pn_product_name b)).
        - apply Z.eq_le_incl. by apply localeCompare_zero.
        - apply Z.eq_le_incl. by apply localeCompare_zero. }
      destruct localeCompare_consistent as [Hflip _].
      pose proof (Hflip (pn_product_name c) (pn_product_name a)).
      right. lia.
Qed.

(** X22. With a comparison of strings that is consistent, the inventory tree
    comes out in order: the product-color groups by product name and then
    color name, the locations of a group with the default locations first
    and then by name, the sizes of a location by sort order and then by
    name. *)
Theorem inventory_tree_in_order (rows : list (TreeRow num)) :
  let tree := buildInventoryTree localeCompare rows in
  StronglySorted (product_colors_in_order localeCompare) tree ∧
  Forall (λ pc,
      StronglySorted (locations_in_order localeCompare) (pn_locations pc) ∧
      Forall (λ ln, StronglySorted (sizes_in_order localeCompare) (ln_sizes ln))
        (pn_locations pc)) tree.
Proof.
  unfold buildInventoryTree. cbn zeta. split.
  - apply product_colors_sorted.
  - rewrite js_sort_perm. apply Forall_fmap, Forall_forall.
    intros pc _. unfold compose, sorted_product_color.
    cbn [pn_locations]. split.
    + apply locations_sorted.
    + rewrite js_sort_perm. apply Forall_fmap, Forall_forall.
      intros ln _. apply sizes_sorted.
Qed.
End Ordered.

End Further.

(** * The further properties on the small shop *)

Lemma stocked_history flag : rtc step (demo_state flag) (stocked flag).
Proof.
  unfold stocked.
  set (s0 := demo_state flag).
  destruct (after_Ok (createMovement (stock_in 1 1 10 (Some 2%Q)) s0) s0)
    as (m1 & H1); [by destruct flag|].
  set (s1 := after _ s0) in *.
  destruct (after_Ok (createMovement (stock_in 2 1 5 (Some 4%Q)) s1) s1)
    as (m2 & H2); [by destruct flag|].
  eapply rtc_l; [by eapply step_createMovement|].
  eapply rtc_l; [by eapply step_createMovement|].
  apply rtc_refl.
Qed.

Lemma stocked_nonneg v l : 0 ≤ balance_qty (stocked None) v l.
Proof.
  apply balances_nonneg.
  apply (bool_decide_unpack _). vm_compute. exact I.
Qed.

Lemma counting_nonneg v l : 0 ≤ balance_qty counting v l.
Proof.
  apply balances_nonneg.
  apply (bool_decide_unpack _). vm_compute. exact I.
Qed.

Lemma ledger_append_only_witness :
  rtc step (demo_state None) (stocked None) ∧
  stock_movements (demo_state None) `prefix_of` stock_movements (stocked None).
Proof.
  split; [apply stocked_history|].
  exact (ledger_append_only _ _ (stocked_history None)).
Defined.

Lemma ledger_rows_valid_witness :
  reachable (stocked None) ∧
  Forall valid_movement (stock_movements (stocked None)).
Proof.
  split; [apply stocked_reachable|].
  exact (ledger_rows_valid _ (stocked_reachable None)).
Defined.

Lemma ledger_ids_increasing_witness :
  reachable (stocked None) ∧
  StronglySorted Z.lt (m_id <$> stock_movements (stocked None)) ∧
  NoDup (m_id <$> stock_movements (stocked None)) ∧
  Forall (λ m, m_id m < next_movement_id (stocked None))
    (stock_movements (stocked None)).
Proof.
  split; [apply stocked_reachable|].
  exact (ledger_ids_increasing _ (stocked_reachable None)).
Defined.

Lemma ledger_rows_refer_witness :
  reachable (stocked None) ∧
  Forall (refers_to_rows (stocked None)) (stock_movements (stocked None)).
Proof.
  split; [apply stocked_reachable|].
  exact (ledger_rows_refer _ (stocked_reachable None)).
Defined.

Lemma no_negative_stock_witness :
  ∃ m s', createMovement (sale 1 1 3) (stocked None) = Ok (m, s') ∧
    allowNegative (stocked None) = false ∧
    ∀ v l, 0 ≤ balance_qty s' v l.
Proof.
  destruct (after_Ok (createMovement (sale 1 1 3) (stocked None)) (stocked None))
    as (m & H); [by vm_compute|].
  exists m, (after (createMovement (sale 1 1 3) (stocked None)) (stocked None)).
  split; [exact H|]. split; [reflexivity|].
  exact (no_negative_stock _ _ (step_createMovement _ _ _ _ H) eq_refl
           stocked_nonneg).
Defined.

Lemma createMovement_frame_witness :
  ∃ m s', createMovement (sale 1 1 3) (stocked None) = Ok (m, s') ∧
    stock_balances s' !! (2, 1) = stock_balances (stocked None) !! (2, 1) ∧
    is_Some (stock_balances s' !! (1, 1)) ∧
    catalog s' = catalog (stocked None).
Proof.
  destruct (after_Ok (createMovement (sale 1 1 3) (stocked None)) (stocked None))
    as (m & H); [by vm_compute|].
  exists m, (after (createMovement (sale 1 1 3) (stocked None)) (stocked None)).
  split; [exact H|].
  destruct (createMovement_frame _ _ _ _ H) as (Hother & Hown & Hcat & _).
  split; [apply Hother; discriminate|]. split; [exact Hown|exact Hcat].
Defined.

Lemma in_without_cost_witness :
  ∃ m s', createMovement (stock_in 1 1 3 None) (stocked None) = Ok (m, s') ∧
    balance_qty s' 1 1 = balance_qty (stocked None) 1 1 + 3 ∧
    ∀ v l, balance_avg_cost s' v l = balance_avg_cost (stocked None) v l.
Proof.
  destruct (after_Ok (createMovement (stock_in 1 1 3 None) (stocked None))
              (stocked None)) as (m & H); [by vm_compute|].
  exists m, (after (createMovement (stock_in 1 1 3 None) (stocked None))
               (stocked None)).
  split; [exact H|].
  exact (in_without_cost _ _ _ _ H eq_refl eq_refl).
Defined.

Lemma transfer_conserves_witness :
  ∃ r s', transfer (demo_transfer 1 2) (stocked None) = Ok (r, s') ∧
    balance_qty s' 1 1 + balance_qty s' 1 2 =
      balance_qty (stocked None) 1 1 + balance_qty (stocked None) 1 2 ∧
    ∀ v l, balance_avg_cost s' v l = balance_avg_cost (stocked None) v l.
Proof.
  destruct (after_Ok (transfer (demo_transfer 1 2) (stocked None))
              (stocked None)) as (r & H); [by vm_compute|].
  exists r, (after (transfer (demo_transfer 1 2) (stocked None)) (stocked None)).
  split; [exact H|].
  destruct (transfer_conserves _ _ _ _ H) as (Hsum & _ & Hcost).
  split; [exact Hsum|exact Hcost].
Defined.

Lemma variant_created_with_balances_witness :
  (∃ v s', createVariant 1 2 1 (stocked None) = Ok (v, s') ∧
     created_with_balances (stocked None) s' v) ∧
  (∃ r s', createVariantFromNames "Henley" "Red" "M" (stocked None)
             = Ok (r, s') ∧
     r_created r = true ∧ created_with_balances (stocked None) s' (r_id r)).
Proof.
  split.
  - destruct (after_Ok (createVariant 1 2 1 (stocked None)) (stocked None))
      as (v & H); [by vm_compute|].
    exists v, (after (createVariant 1 2 1 (stocked None)) (stocked None)).
    split; [exact H|].
    exact (proj1 (variant_created_with_balances (stocked None)) _ _ _ _ _ H).
  - destruct (after_Ok (createVariantFromNames "Henley" "Red" "M" (stocked None))
                (stocked None)) as (r & H); [by vm_compute|].
    exists r, (after (createVariantFromNames "Henley" "Red" "M" (stocked None))
                 (stocked None)).
    split; [exact H|].
    exact (proj2 (variant_created_with_balances (stocked None)) _ _ _ _ _ H).
Defined.

Lemma resolveVariantIdByIds_again_witness :
  ∃ v s', resolveVariantIdByIds 1 2 1 (stocked None) = Ok (v, s') ∧
    resolveVariantIdByIds 1 2 1 s' = Ok (v, s').
Proof.
  destruct (after_Ok (resolveVariantIdByIds 1 2 1 (stocked None)) (stocked None))
    as (v & H); [by vm_compute|].
  exists v, (after (resolveVariantIdByIds 1 2 1 (stocked None)) (stocked None)).
  split; [exact H|].
  apply (resolveVariantIdByIds_again _ _ _ _ _ _ H).
  vm_compute. repeat constructor.
Defined.

Lemma resolveVariantId_again_witness :
  ∃ r s', resolveVariantId "Henley" "Red" "M" (stocked None) = Ok (r, s') ∧
    resolveVariantId "Henley" "Red" "M" s' =
      Ok ({| r_id := r_id r; r_created := false |}, s').
Proof.
  destruct (after_Ok (resolveVariantId "Henley" "Red" "M" (stocked None))
              (stocked None)) as (r & H); [by vm_compute|].
  exists r, (after (resolveVariantId "Henley" "Red" "M" (stocked None))
               (stocked None)).
  split; [exact H|].
  apply (resolveVariantId_again _ _ _ _ _ _ H).
  - reflexivity.
  - vm_compute. repeat constructor.
Defined.



Lemma commit_summary_adds_up_witness :
  ∃ r s', commitOpname 1 (Some "ani") counting = Ok (r, s') ∧
    total_adjustments (summary r) = length (adjustments r) ∧
    (positive_variances (summary r) + negative_variances (summary r))%nat
      = total_items (summary r).
Proof.
  destruct (after_Ok (commitOpname 1 (Some "ani") counting) counting)
    as (r & H); [by vm_compute|].
  exists r, (after (commitOpname 1 (Some "ani") counting) counting).
  split; [exact H|].
  destruct (commit_summary_adds_up _ _ _ _ _ H) as (_ & Ht & _ & Hsum & _).
  split; [exact Ht|exact Hsum].
Defined.




Lemma codepoint_compare_consistent : consistent_comparator codepoint_compare.
Proof.
  split.
  - intros x y. unfold codepoint_compare.
    pose proof (OrderedTypeEx.String_as_OT.cmp_antisym x y) as H.
    unfold OrderedTypeEx.String_as_OT.cmp in H. rewrite H.
    destruct (String.compare y x); cbn; lia.
  - intros x y z. unfold codepoint_compare.
    destruct (String.compare x y) eqn:Hxy; [| |lia].
    + apply OrderedTypeEx.String_as_OT.cmp_eq in Hxy as ->. done.
    + destruct (String.compare y z) eqn:Hyz; [| |lia].
      * apply OrderedTypeEx.String_as_OT.cmp_eq in Hyz as <-.
        rewrite Hxy. done.
      * apply OrderedTypeEx.String_as_OT.cmp_lt in Hxy, Hyz.
        pose proof (OrderedTypeEx.String_as_OT.lt_trans _ _ _ Hxy Hyz) as Hxz.
        apply OrderedTypeEx.String_as_OT.cmp_lt in Hxz.
        unfold OrderedTypeEx.String_as_OT.cmp in Hxz. rewrite Hxz. done.
Qed.

Lemma inventory_tree_in_order_witness :
  consistent_comparator codepoint_compare ∧
  StronglySorted (product_colors_in_order codepoint_compare)
    (buildInventoryTree codepoint_compare tree_rows).
Proof.
  split; [exact codepoint_compare_consistent|].
  exact (proj1 (inventory_tree_in_order codepoint_compare
                  codepoint_compare_consistent tree_rows)).
Defined.

(** The tree of the rows: the groups by name, the default location first,
    the sizes by sort order, the totals summed. *)
Example tree_of_the_rows :
  (λ pc, (pn_product_name pc, pn_total_qty pc,
          (λ ln, (ln_location_name ln, ln_total_qty ln,
                  (λ sn, (sn_size_name sn, sn_qty_on_hand sn)) <$> ln_sizes ln))
            <$> pn_locations pc))
    <$> buildInventoryTree codepoint_compare tree_rows =
  [("Cardigan", 1, [("Storage Cabinet", 1, [("XL", 1)])]);
   ("Henley", 19, [("Display Area", 15, [("M", 10); ("L", 5)]);
                   ("Storage Cabinet", 4, [("M", 4)])])].
Proof. vm_compute. reflexivity. Qed.
